(** * The [t] template tag of Crank: a shallow embedding of src/template.ts

    The file embeds [parse], [formatString], [createElementsFromParse] and
    [template] of src/template.ts, together with the six regular expressions
    that drive the scanner, and proves properties of them.

    Conventions of the embedding.
    - A JavaScript string is a [string]: a sequence of code units, here the
      code units 0..255 ([ascii]).  The character classes are the JavaScript
      ones restricted to that range.
    - A regular expression with the [g] flag is embedded as the function that
      [exec] computes for it: the match attempted at one position (written by
      hand from the pattern, following the order in which a backtracking
      matcher explores it) and the search for the leftmost position at or
      after [lastIndex] where that attempt succeeds.
    - [throw new SyntaxError(...)] is an abrupt completion that carries the
      kind of the error (the names of section 7 of the specification); the
      text of the message is not modelled, but what computing it can throw
      is: [JSON.stringify(value)] in the message of line 362.  The other
      messages apply [getTagDisplay] to a tag, a value of type [Tag] (a
      string, a symbol or a component), for which it returns a string.
    - [String(exp)] and [JSON.stringify(value)] can throw: a [TypeError]
      for [String] of an object with no [toString] and for
      [JSON.stringify] of a circular object or of a BigInt.  That is the
      abrupt completion [TypeError], which also stands for what a
      [toString] or a [toJSON] of the caller's throws; these conversions
      are taken to have no other effect on [parse].
    - The mutable locals of [parse] are threaded through explicitly. *)

From Stdlib Require Import Ascii String ZArith.
From stdpp Require Import gmap strings list fin_maps pretty.

Set Warnings "-register-all".
Set Default Proof Using "Type".

(** ** Strings *)

Module Str.

Fixpoint take (n : nat) (s : string) : string :=
  match n, s with
  | S n', String c s' => String c (take n' s')
  | _, _ => EmptyString
  end.

Fixpoint drop (n : nat) (s : string) : string :=
  match n, s with
  | S n', String _ s' => drop n' s'
  | _, _ => s
  end.

(** [s.slice(a, b)] for indices [0 <= a], [0 <= b]. *)
Definition slice (s : string) (a b : nat) : string := take (b - a) (drop a s).

(** [s.slice(a)] for an index [0 <= a]. *)
Definition slice_from (s : string) (a : nat) : string := drop a s.

(** [s.slice(a, -1)] for [a] 0 or 1. *)
Definition slice_to_last (s : string) (a : nat) : string :=
  slice s a (String.length s - 1).

(** A string is truthy when it is not empty. *)
Definition nonempty (s : string) : bool :=
  match s with EmptyString => false | String _ _ => true end.

(** The longest prefix whose characters satisfy [p], and what follows it:
    a greedy [[class]*] that nothing after it forces to give back. *)
Fixpoint span (p : ascii → bool) (s : string) : string * string :=
  match s with
  | String c s' =>
      if p c then let '(a, b) := span p s' in (String c a, b)
      else (EmptyString, s)
  | EmptyString => (EmptyString, EmptyString)
  end.

(** [s.startsWith(p)]: what matching the literal [p] at the start of [s]
    comes to. *)
Fixpoint starts_with (p s : string) : bool :=
match p with
| EmptyString => true
| String a p' =>
    match s with
    | String b s' => Ascii.eqb a b && starts_with p' s'
    | EmptyString => false
    end
end.

Fixpoint all (p : ascii → bool) (s : string) : bool :=
  match s with
  | String c s' => p c && all p s'
  | EmptyString => true
  end.

(** Removing the trailing [p] characters (a replace of [[p]*$] by the
    empty string): the leftmost position from which only [p] characters
    follow is where the match starts. *)
Fixpoint drop_trailing (p : ascii → bool) (s : string) : string :=
  match s with
  | String c s' => if all p s then EmptyString else String c (drop_trailing p s')
  | EmptyString => EmptyString
  end.

End Str.

(** ** Characters and character classes *)

Definition LF : ascii := "010"%char.
Definition CR : ascii := "013"%char.
Definition DQUOTE : ascii := Eval cbv in ascii_of_nat 34.
Definition SQUOTE : ascii := "'"%char.
Definition BACKSLASH : ascii := "\"%char.

(** [\s]: TAB, LF, VT, FF, CR, SPACE and NBSP (the white space and line
    terminator code units below 256). *)
Definition is_space (c : ascii) : bool :=
  let n := nat_of_ascii c in
  (9 <=? n) && (n <=? 13) || (n =? 32) || (n =? 160).

(** [\w]: [A-Za-z0-9_]. *)
Definition is_word (c : ascii) : bool :=
  let n := nat_of_ascii c in
  (48 <=? n) && (n <=? 57) || (65 <=? n) && (n <=? 90)
  || (97 <=? n) && (n <=? 122) || (n =? 95).

(** [[-_$\w]]. *)
Definition is_ident (c : ascii) : bool :=
  Ascii.eqb c "-" || Ascii.eqb c "_" || Ascii.eqb c "$" || is_word c.

(** [\r|\n], the first character of a newline match. *)
Definition is_eol (c : ascii) : bool := Ascii.eqb c CR || Ascii.eqb c LF.

(** What [.] refuses: the line terminators. *)
Definition is_line_terminator (c : ascii) : bool := is_eol c.

(** [before.replace(/^\s* /, empty)]: the leading white space removed. *)
Definition trim_leading (s : string) : string := (Str.span is_space s).2.

(** [before.replace(/\s*$/, empty)]: the trailing white space removed. *)
Definition trim_trailing (s : string) : string := Str.drop_trailing is_space s.

(** ** Values

    The expressions of a template are arbitrary JavaScript values.  The
    embedding keeps what [parse] and [template] observe of a value: its type
    ([typeof exp], [exp != null]), its identity ([!==]), what [String(exp)]
    returns and the own enumerable properties an object spread copies.

    [VNum n] is the number whose value is the safe integer [n] (of
    magnitude below 2^53: such an integer is a number exactly, and [String]
    prints it in plain decimal).  [VObj id str fields] is a reference to an
    object (a plain object, an array, a function such as a component) on
    which neither [String] nor [JSON.stringify] throws: [id] is its
    identity, [str] is what [String] returns for it and [fields] are its own
    enumerable string-keyed properties.  [VOther id str json fields] is any
    other value (another number, a symbol, a BigInt, an object with no
    [toString], a circular object, ...): [String] returns [str] for it, or
    throws a [TypeError] when [str] is [None], and [JSON.stringify] throws a
    [TypeError] when [json] is [false].  It is not a boolean, not [null] or
    [undefined] and not a string, and it is identical ([===]) to the values
    of the same [id]; the number [NaN], which is not identical to itself, is
    no value of the embedding. *)

(** The integers of magnitude below 2^53. *)
Definition is_safe_integer (n : Z) : bool := (Z.abs n <? 9007199254740992)%Z.

Record SafeInteger := mkSafeInteger {
  integer : Z;
  integer_safe : is_safe_integer integer = true }.

Definition SafeInteger_of_Z (n : Z) : option SafeInteger :=
  match is_safe_integer n as b return is_safe_integer n = b → option SafeInteger with
  | true => λ H, Some (mkSafeInteger n H)
  | false => λ _, None
  end eq_refl.

Declare Scope safe_integer_scope.
Delimit Scope safe_integer_scope with safe_integer.
Number Notation SafeInteger SafeInteger_of_Z integer : safe_integer_scope.

Inductive value :=
  | VUndefined
  | VNull
  | VBool (b : bool)
  | VNum (n : SafeInteger)
  | VStr (s : string)
  | VObj (id : nat) (str : string) (fields : gmap string value)
  | VOther (id : nat) (str : option string) (json : bool)
      (fields : gmap string value).
Arguments VNum n%_safe_integer.

Module JS.

(** [typeof v === "boolean"]. *)
Definition is_boolean (v : value) : bool :=
  match v with VBool _ => true | _ => false end.

(** [v == null]. *)
Definition is_nullish (v : value) : bool :=
  match v with VUndefined | VNull => true | _ => false end.

(** [String(v)]: the string, or [None] when [String] throws a
    [TypeError]. *)
Definition String_ (v : value) : option string :=
  match v with
  | VUndefined => Some "undefined"
  | VNull => Some "null"
  | VBool true => Some "true"
  | VBool false => Some "false"
  | VNum n => Some (pretty (integer n))
  | VStr s => Some s
  | VObj _ str _ => Some str
  | VOther _ str _ _ => str
  end.

(** [typeof exp === "string" ? exp : String(exp)]. *)
Definition to_text (exp : value) : option string :=
  match exp with VStr s => Some s | _ => String_ exp end.

(** Whether [JSON.stringify(v)] throws a [TypeError]. *)
Definition stringify_throws (v : value) : bool :=
  match v with
  | VOther _ _ json _ => negb json
  | _ => false
  end.

(** [a === b]. *)
Definition strict_equal (a b : value) : bool :=
  match a, b with
  | VUndefined, VUndefined => true
  | VNull, VNull => true
  | VBool x, VBool y => bool_decide (x = y)
  | VNum x, VNum y => bool_decide (integer x = integer y)
  | VStr x, VStr y => bool_decide (x = y)
  | VObj x _ _, VObj y _ _ => bool_decide (x = y)
  | VOther x _ _ _, VOther y _ _ _ => bool_decide (x = y)
  | _, _ => false
  end.

(** The characters of a string as the properties ["0"], ["1"], ... that
    spreading the string copies. *)
Fixpoint string_fields (i : nat) (s : string) : gmap string value :=
  match s with
  | EmptyString => ∅
  | String c s' => <[pretty i := VStr (String c EmptyString)]> (string_fields (S i) s')
  end.

(** The own enumerable properties of [v], what [{...v}] copies: none for
    [undefined], [null], a boolean or a number. *)
Definition own_properties (v : value) : gmap string value :=
  match v with
  | VObj _ _ fields => fields
  | VOther _ _ _ fields => fields
  | VStr s => string_fields 0 s
  | _ => ∅
  end.

(** [{...props, ...more}] where [props] may be [null]: always a fresh
    object, the pairs of [more] overwriting those of [props]. *)
Definition spread (props : option (gmap string value)) (more : gmap string value)
    : option (gmap string value) :=
  Some (more ∪ default ∅ props).

End JS.

(** ** The parse tree

    [ParseElement] and [ParseValue] of the source; a child is one or the
    other ([type: "element"] or [type: "value"]).  [props] is [None] for
    [null]. *)

Inductive ParseChild :=
  | Element (tag : value) (props : option (gmap string value))
      (children : list ParseChild)
  | Value (value : value).

Record ParseElement := mkElement {
  tag : value;
  props : option (gmap string value);
  children : list ParseChild }.

(** An element as a member of a [children] array. *)
Definition as_child (e : ParseElement) : ParseChild :=
  Element (tag e) (props e) (children e).

(** [e.children.push(c)]. *)
Definition push_child (c : ParseChild) (e : ParseElement) : ParseElement :=
  {| tag := tag e; props := props e; children := children e ++ [c] |}.

Definition set_props (p : option (gmap string value)) (e : ParseElement) : ParseElement :=
  {| tag := tag e; props := p; children := children e |}.

(** ** Regular expressions

    A match as [exec] returns it: [index], the matched text [match[0]] and
    the capture groups [match[1]], ... ([None] for [undefined], a group that
    did not take part). *)

Record RegExpMatch := mkMatch {
  index : nat;
  matched : string;
  groups : list (option string) }.

(** [match[k]] for [k >= 1]. *)
Definition group (k : nat) (m : RegExpMatch) : option string :=
  match k with
  | 0 => Some (matched m)
  | S k' => default None (groups m !! k')
  end.

(** Truthiness of a capture group: it took part and is not empty. *)
Definition truthy (g : option string) : bool :=
  match g with Some s => Str.nonempty s | None => false end.

(** The leftmost position of [rest] (the text from [idx] on) where the
    attempt [at_] succeeds; the position after the last character is tried
    as well. *)
Fixpoint search (at_ : string → option (string * list (option string)))
    (rest : string) (idx : nat) : option RegExpMatch :=
  match at_ rest with
  | Some (m, gs) => Some (mkMatch idx m gs)
  | None =>
      match rest with
      | String _ rest' => search at_ rest' (S idx)
      | EmptyString => None
      end
  end.

(** [re.lastIndex = i; re.exec(span)]. *)
Definition exec_with (at_ : string → option (string * list (option string)))
    (span : string) (i : nat) : option RegExpMatch :=
  if decide (i ≤ String.length span) then search at_ (Str.drop i span) i else None.

(** [index + match[0].length]. *)
Definition match_end (m : RegExpMatch) : nat := index m + String.length (matched m).

(** *** CHILDREN_RE

    Three alternatives, tried in this order at each position:
    - group 1, a newline: [\r] or [\n], then [\s] greedily;
    - group 2, a comment: [<!--], then lazily any characters up to [-->] or
      the end of the input;
    - group 3, a tag: [<], [\s] greedily, group 4 (at most two [/],
      greedily), [\s] greedily, group 5 (identifier characters, greedily,
      possibly none). *)

(** The lazy body of a comment: the text up to and with the first [-->],
    or up to the end of the input. *)
Fixpoint comment_rest (s : string) : string :=
  if Str.starts_with "-->" s then "-->"
  else match s with
       | String c s' => String c (comment_rest s')
       | EmptyString => EmptyString
       end.

(** At most two [/], greedily. *)
Definition slashes (s : string) : string * string :=
  match s with
  | String c s' =>
      if Ascii.eqb c "/" then
        match s' with
        | String d s'' => if Ascii.eqb d "/" then ("//", s'') else ("/", s')
        | EmptyString => ("/", s')
        end
      else (EmptyString, s)
  | EmptyString => (EmptyString, s)
  end.

Definition children_at (r : string) : option (string * list (option string)) :=
  match r with
  | String c r' =>
      if is_eol c then
        let m := String c (Str.span is_space r').1 in
        Some (m, [Some m; None; None; None; None])
      else if Str.starts_with "<!--" r then
        let m := "<!--" +:+ comment_rest (Str.drop 4 r) in
        Some (m, [None; Some m; None; None; None])
      else if Ascii.eqb c "<" then
        let '(ws1, r1) := Str.span is_space r' in
        let '(slash, r2) := slashes r1 in
        let '(ws2, r3) := Str.span is_space r2 in
        let '(name, _) := Str.span is_ident r3 in
        let m := "<" +:+ ws1 +:+ slash +:+ ws2 +:+ name in
        Some (m, [None; None; Some m; Some slash; Some name])
      else None
  | EmptyString => None
  end.

(** *** PROPS_RE

    [\s] greedily, then one of three alternatives, tried in this order:
    - group 1, the end of the tag: an optional [/], [\s] greedily, [>];
    - group 2, a spread: three dots, then [\s] greedily;
    - a prop: group 3 (one or more identifier characters), [\s], group 4
      (an optional [=]), [\s], and optionally group 5, a string in double
      or in single quotes.
    The sixth group of the source (inside the double-quoted string) is never
    read and is left out of [groups]. *)

(** The lazy body of a string in quotes [q]: a backslash followed by the
    quote is taken as one item, any other character is an item of its own,
    and the first quote met otherwise (or the end of the input) ends the
    string. *)
Fixpoint quoted_rest (q : ascii) (s : string) : string :=
  match s with
  | EmptyString => EmptyString
  | String c s' =>
      if Ascii.eqb c q then String c EmptyString
      else
        match s' with
        | String d s'' =>
            if Ascii.eqb c BACKSLASH && Ascii.eqb d q
            then String c (String d (quoted_rest q s''))
            else String c (quoted_rest q s')
        | EmptyString => String c EmptyString
        end
  end.

(** An optional [/], [\s] greedily, [>]. *)
Definition tag_end_at (r : string) : option string :=
  let try_from (pre r1 : string) :=
    let '(ws, r2) := Str.span is_space r1 in
    match r2 with
    | String c _ => if Ascii.eqb c ">" then Some (pre +:+ ws +:+ ">") else None
    | EmptyString => None
    end in
  match r with
  | String c r1 =>
      if Ascii.eqb c "/" then
        match try_from "/" r1 with
        | Some m => Some m
        | None => try_from EmptyString r
        end
      else try_from EmptyString r
  | EmptyString => None
  end.

(** Three dots, then [\s] greedily. *)
Definition spread_at (r : string) : option string :=
  if Str.starts_with "..." r then Some ("..." +:+ (Str.span is_space (Str.drop 3 r)).1)
  else None.

(** The prop alternative: the matched text and the groups name, equals and
    string. *)
Definition prop_at (r : string)
    : option (string * option string * option string * option string) :=
  let '(name, r1) := Str.span is_ident r in
  if Str.nonempty name then
    let '(ws1, r2) := Str.span is_space r1 in
    let '(equals, r3) :=
      match r2 with
      | String c r3 => if Ascii.eqb c "=" then (Some "=", r3) else (None, r2)
      | EmptyString => (None, r2)
      end in
    let '(ws2, r4) := Str.span is_space r3 in
    let str :=
      match r4 with
      | String q r5 =>
          if Ascii.eqb q DQUOTE || Ascii.eqb q SQUOTE
          then Some (String q (quoted_rest q r5))
          else None
      | EmptyString => None
      end in
    Some (name +:+ ws1 +:+ default EmptyString equals +:+ ws2 +:+ default EmptyString str,
          Some name, equals, str)
  else None.

Definition props_at (r : string) : option (string * list (option string)) :=
  let '(ws, r0) := Str.span is_space r in
  match tag_end_at r0 with
  | Some tagEnd => Some (ws +:+ tagEnd, [Some tagEnd; None; None; None; None])
  | None =>
      match spread_at r0 with
      | Some spread => Some (ws +:+ spread, [None; Some spread; None; None; None])
      | None =>
          match prop_at r0 with
          | Some (m, name, equals, str) => Some (ws +:+ m, [None; None; name; equals; str])
          | None => None
          end
      end
  end.

(** *** CLOSING_TAG_RE, the closing quotes and CLOSING_COMMENT_RE

    CLOSING_TAG_RE is the single character [>] and CLOSING_COMMENT_RE the
    three characters [-->]. *)

Definition closing_tag_at (r : string) : option (string * list (option string)) :=
  if Str.starts_with ">" r then Some (">", []) else None.

(** CLOSING_SINGLE_QUOTE_RE and CLOSING_DOUBLE_QUOTE_RE for the quote [q]:
    greedily one optional character that is not a backslash, then the quote;
    that is, such a character and the quote, or else the quote alone. *)
Definition closing_quote_at (q : ascii) (r : string)
    : option (string * list (option string)) :=
  match r with
  | String c r' =>
      match r' with
      | String d _ =>
          if negb (Ascii.eqb c BACKSLASH) && Ascii.eqb d q
          then Some (String c (String d EmptyString), [])
          else if Ascii.eqb c q then Some (String c EmptyString, []) else None
      | EmptyString =>
          if Ascii.eqb c q then Some (String c EmptyString, []) else None
      end
  | EmptyString => None
  end.

Definition closing_comment_at (r : string) : option (string * list (option string)) :=
  if Str.starts_with "-->" r then Some ("-->", []) else None.

(** The scanner's modes: the regular expression held by [matcher]. *)
Inductive Matcher :=
  | CHILDREN_RE
  | PROPS_RE
  | CLOSING_TAG_RE
  | CLOSING_SINGLE_QUOTE_RE
  | CLOSING_DOUBLE_QUOTE_RE
  | CLOSING_COMMENT_RE.

Definition attempt (re : Matcher) : string → option (string * list (option string)) :=
  match re with
  | CHILDREN_RE => children_at
  | PROPS_RE => props_at
  | CLOSING_TAG_RE => closing_tag_at
  | CLOSING_SINGLE_QUOTE_RE => closing_quote_at SQUOTE
  | CLOSING_DOUBLE_QUOTE_RE => closing_quote_at DQUOTE
  | CLOSING_COMMENT_RE => closing_comment_at
  end.

(** [matcher.lastIndex = i; matcher.exec(span)]. *)
Definition exec (re : Matcher) (span : string) (i : nat) : option RegExpMatch :=
  exec_with (attempt re) span i.

(** ** Completions

    [parse] either returns or throws a [SyntaxError].  The kinds are named as
    in section 7 of the specification, by the message of the source:
    - [Unmatched closing tag ...]: [UnmatchedClosingTag];
    - [Mismatched closing tag ... for opening tag ...]: [MismatchedClosingTag];
    - [Unmatched opening tag ...]: [UnmatchedOpeningTag];
    - [Missing expression after ... while parsing props for ...]:
      [MissingSpreadExpression];
    - [Expression expected]: [ExpressionExpected];
    - [Unexpected text ...]: [UnexpectedText];
    - [Unexpected expression ...]: [UnexpectedExpression];
    - [Missing -->]: [MissingCommentTerminator]. *)

Inductive SyntaxError :=
  | UnmatchedClosingTag
  | MismatchedClosingTag
  | UnmatchedOpeningTag
  | MissingSpreadExpression
  | ExpressionExpected
  | UnexpectedText
  | UnexpectedExpression
  | MissingCommentTerminator.

(** [TypeError] is what [String(exp)] and [JSON.stringify(value)] throw on
    the values on which they throw.  Besides the thrown errors there are
    two abrupt completions that the embedding adds, and that the theorems
    below show never to happen:
    - [UndefinedCurrent]: [stack.pop()] was called on the empty stack, which
      in the source leaves [current] undefined (the source would go on and
      fail on the next use of [current], or return [undefined]);
    - [OutOfFuel]: the inner loop was cut off by the bound on its number of
      iterations. *)
Inductive Abrupt :=
  | Thrown (e : SyntaxError)
  | TypeError
  | UndefinedCurrent
  | OutOfFuel.

Inductive Completion (A : Type) :=
  | Normal (a : A)
  | Abort (x : Abrupt).
Arguments Normal {A} a.
Arguments Abort {A} x.

Abbreviation Throw e := (Abort (Thrown e)).

Global Instance Completion_ret : MRet Completion := @Normal.
Global Instance Completion_bind : MBind Completion := λ A B f c,
  match c with
  | Normal a => f a
  | Abort x => Abort x
  end.

(** ** The locals of [parse]

    [current], [stack], [matcher], [lineStart], [propName], [propValue] and
    [expressing] (which the source declares anew for each span).

    In the source an opened element is pushed into the [children] array of
    its parent at once and filled in afterwards through the alias [current],
    and [stack] holds the parents.  Here an entry of [stack] is the parent as
    it was when the element was opened, without the open element, and the
    element is appended to its parent when it is closed ([close_into]).  The
    parent does not change while it is on the stack, so the open element is
    its last child in the source too, and the two trees agree whenever the
    stack is empty, in particular when [parse] returns. *)

Record Locals := mkLocals {
  current : ParseElement;
  stack : list ParseElement;
  matcher : Matcher;
  lineStart : bool;
  propName : string;
  propValue : string;
  expressing : bool }.

Definition with_current (x : ParseElement) (st : Locals) : Locals :=
  mkLocals x (stack st) (matcher st) (lineStart st) (propName st) (propValue st) (expressing st).
Definition with_stack (x : list ParseElement) (st : Locals) : Locals :=
  mkLocals (current st) x (matcher st) (lineStart st) (propName st) (propValue st) (expressing st).
Definition with_matcher (x : Matcher) (st : Locals) : Locals :=
  mkLocals (current st) (stack st) x (lineStart st) (propName st) (propValue st) (expressing st).
Definition with_lineStart (x : bool) (st : Locals) : Locals :=
  mkLocals (current st) (stack st) (matcher st) x (propName st) (propValue st) (expressing st).
Definition with_propName (x : string) (st : Locals) : Locals :=
  mkLocals (current st) (stack st) (matcher st) (lineStart st) x (propValue st) (expressing st).
Definition with_propValue (x : string) (st : Locals) : Locals :=
  mkLocals (current st) (stack st) (matcher st) (lineStart st) (propName st) x (expressing st).
Definition with_expressing (x : bool) (st : Locals) : Locals :=
  mkLocals (current st) (stack st) (matcher st) (lineStart st) (propName st) (propValue st) x.

(** [current.children.push({type: "value", value: v})]. *)
Definition push_value (v : value) (st : Locals) : Locals :=
  with_current (push_child (Value v) (current st)) st.

(** [current.props = {...current.props, ...more}]. *)
Definition assign_props (more : gmap string value) (st : Locals) : Locals :=
  with_current (set_props (JS.spread (props (current st)) more) (current st)) st.

(** The parent once its open child [cur] is complete. *)
Definition close_into (parent cur : ParseElement) : ParseElement :=
  push_child (as_child cur) parent.

(** [current = stack.pop()!]. *)
Definition pop (st : Locals) : Completion Locals :=
  match stack st with
  | parent :: rest => Normal (with_stack rest (with_current (close_into parent (current st)) st))
  | [] => Abort UndefinedCurrent
  end.

(** [stack.push(current); const next = {...}; current.children.push(next);
    current = next]. *)
Definition open_element (t : value) (st : Locals) : Locals :=
  with_current (mkElement t None []) (with_stack (current st :: stack st) st).

(** ** [formatString] *)

(** [.replace(/\\(.?)/g, "$1")]: a backslash is dropped, and the character
    after it, unless a line terminator, is kept as it is. *)
Fixpoint unescape (s : string) : string :=
  match s with
  | EmptyString => EmptyString
  | String c s' =>
      if Ascii.eqb c BACKSLASH then
        match s' with
        | String d s'' =>
            if is_line_terminator d then unescape s' else String d (unescape s'')
        | EmptyString => EmptyString
        end
      else String c (unescape s')
  end.

Definition formatString (str : string) : string :=
  unescape (Str.slice_to_last str 1).

(** ** [parse] *)

(** [propValue += typeof exp === "string" ? exp : String(exp)]: a
    [TypeError] when [String] throws. *)
Definition append_text (exp : value) (st : Locals) : Completion Locals :=
  match JS.to_text exp with
  | Some text => mret (with_propValue (propValue st +:+ text) st)
  | None => Abort TypeError
  end.

(** [if (typeof exp !== "boolean" && exp != null) propValue += ...]. *)
Definition append_unless_boolean_or_nullish (exp : value) (st : Locals)
    : Completion Locals :=
  if negb (JS.is_boolean exp) && negb (JS.is_nullish exp)
  then append_text exp st
  else mret st.

(** [if (exp != null) propValue += ...]. *)
Definition append_unless_nullish (exp : value) (st : Locals) : Completion Locals :=
  if negb (JS.is_nullish exp)
  then append_text exp st
  else mret st.

(** Lines 112-130: several expressions in a row. *)
Definition consecutive_expressions (span : string) (exp : value) (st : Locals)
    : Completion Locals :=
  if expressing st && bool_decide (span = EmptyString) then
    match matcher st with
    | CHILDREN_RE => mret (with_expressing false (push_value exp st))
    | CLOSING_SINGLE_QUOTE_RE | CLOSING_DOUBLE_QUOTE_RE =>
        st ← append_unless_boolean_or_nullish exp st;
        mret (with_expressing false st)
    | _ => mret st
    end
  else mret st.

Section iteration.
(** One iteration of the inner loop on [span = spans[s]], with
    [exp = expressions[s]], at position [i], after [exec] returned
    [match_] and [end_] was computed. *)
Context (span : string) (exp : value) (i : nat).
Context (match_ : option RegExpMatch) (end_ : nat).

(** [expressing && end === span.length]. *)
Definition pending_at_end (st : Locals) : bool :=
  expressing st && bool_decide (end_ = String.length span).

(** Lines 141-156: the text before the match, trimmed. *)
Definition text_before (m : RegExpMatch) (st : Locals) : string :=
  let before := Str.slice span i (index m) in
  let before := if lineStart st then trim_leading before else before in
  if truthy (group 1 m) then
    if bool_decide (String.get (Nat.max 0 (index m - 1)) span = Some BACKSLASH)
    then Str.slice_to_last before 0
    else trim_trailing before
  else before.

(** Lines 140-160. *)
Definition push_text_before (m : RegExpMatch) (st : Locals) : Locals :=
  if bool_decide (i < index m) then
    let before := text_before m st in
    if Str.nonempty before then push_value (VStr before) st else st
  else st.

(** Lines 173-177: the tag of the marker, the captured name or the
    expression that follows it. *)
Definition marker_tag (m : RegExpMatch) (st : Locals) : value :=
  if pending_at_end st then exp
  else match group 5 m with Some tagName => VStr tagName | None => VUndefined end.

(** Lines 172-206. *)
Definition tag_case (m : RegExpMatch) (st : Locals) : Completion Locals :=
  let t := marker_tag m st in
  let st := if pending_at_end st then with_expressing false st else st in
  if truthy (group 4 m) then
    if bool_decide (stack st = []) then Throw UnmatchedClosingTag
    else if negb (bool_decide (group 4 m = Some "//"))
            && negb (JS.strict_equal (tag (current st)) t)
    then Throw MismatchedClosingTag
    else st ← pop st; mret (with_matcher CLOSING_TAG_RE st)
  else mret (with_matcher PROPS_RE (open_element t st)).

(** Lines 163-171. *)
Definition comment_case (st : Locals) : Locals :=
  if bool_decide (end_ = String.length span) then
    let st := with_matcher CLOSING_COMMENT_RE st in
    if pending_at_end st then with_expressing false st else st
  else st.

(** Lines 208-217: the text after the last match of the span. *)
Definition push_text_after (st : Locals) : Locals :=
  if bool_decide (i < String.length span) then
    let after := Str.slice_from span i in
    let after := if negb (expressing st) then trim_trailing after else after in
    if Str.nonempty after then push_value (VStr after) st else st
  else st.

(** Lines 220-224. *)
Definition push_pending_child (st : Locals) : Locals :=
  if pending_at_end st
  then with_expressing false (with_lineStart false (push_value exp st))
  else st.

(** Lines 137-226, [case CHILDREN_RE]. *)
Definition children_case (st : Locals) : Completion Locals :=
  st ← match match_ with
       | Some m =>
           let st := push_text_before m st in
           let st := with_lineStart (truthy (group 1 m)) st in
           if truthy (group 2 m) then mret (comment_case st)
           else if truthy (group 3 m) then tag_case m st
           else mret st
       | None => mret (push_text_after st)
       end;
  mret (push_pending_child st).

(** Lines 260-295: the value of the prop [name], or the switch to a
    closing quote when the string runs into an expression. *)
Definition prop_case (m : RegExpMatch) (name : string) (st : Locals)
    : Completion Locals :=
  let assign (v : value) (st : Locals) :=
    assign_props {[ name := v ]} st in
  match group 5 m with
  | None =>
      if negb (truthy (group 4 m)) then mret (assign (VBool true) st)
      else if bool_decide (end_ < String.length span) then Throw UnexpectedText
      else if negb (expressing st) then Throw ExpressionExpected
      else mret (assign exp (with_expressing false st))
  | Some str =>
      if pending_at_end st then
        let st := with_propValue str (with_propName name st) in
        st ← append_unless_boolean_or_nullish exp st;
        let st :=
          with_matcher
            (if bool_decide (String.get 0 str = Some SQUOTE)
             then CLOSING_SINGLE_QUOTE_RE else CLOSING_DOUBLE_QUOTE_RE) st in
        mret (with_expressing false st)
      else mret (assign (VStr (formatString str)) st)
  end.

(** Lines 236-247. *)
Definition tag_end_case (tagEnd : string) (st : Locals) : Completion Locals :=
  st ← (if bool_decide (String.get 0 tagEnd = Some "/"%char) then pop st else mret st);
  let st := with_matcher CHILDREN_RE st in
  mret (if pending_at_end st then with_expressing false (push_value exp st) else st).

(** Lines 248-258. *)
Definition spread_case (st : Locals) : Completion Locals :=
  if negb (pending_at_end st) then Throw MissingSpreadExpression
  else mret (with_expressing false (assign_props (JS.own_properties exp) st)).

(** Lines 227-306, [case PROPS_RE]. *)
Definition props_case (st : Locals) : Completion Locals :=
  match match_ with
  | Some m =>
      if bool_decide (i < index m) then Throw UnexpectedText
      else if truthy (group 1 m) then tag_end_case (default EmptyString (group 1 m)) st
      else if truthy (group 2 m) then spread_case st
      else if truthy (group 3 m) then prop_case m (default EmptyString (group 3 m)) st
      else mret st
  | None => if negb (expressing st) then Throw UnexpectedText else mret st
  end.

(** Lines 307-323, [case CLOSING_TAG_RE]. *)
Definition closing_tag_case (st : Locals) : Completion Locals :=
  match match_ with
  | Some m =>
      if bool_decide (i < index m) then Throw UnexpectedText
      else mret (with_matcher CHILDREN_RE st)
  | None => if negb (expressing st) then Throw UnexpectedText else mret st
  end.

(** Lines 324-344, [case CLOSING_SINGLE_QUOTE_RE] and
    [case CLOSING_DOUBLE_QUOTE_RE]. *)
Definition closing_quote_case (st : Locals) : Completion Locals :=
  let st :=
    match match_ with
    | Some _ =>
        with_matcher PROPS_RE
          (with_propValue (propValue st +:+ Str.slice span i end_) st)
    | None => with_propValue (propValue st +:+ Str.slice_from span i) st
    end in
  st ← (if pending_at_end st
        then st ← append_unless_nullish exp st; mret (with_expressing false st)
        else mret st);
  mret (assign_props {[ propName st := VStr (formatString (propValue st)) ]} st).

(** Lines 345-355, [case CLOSING_COMMENT_RE]. *)
Definition closing_comment_case (st : Locals) : Completion Locals :=
  match match_ with
  | Some _ => mret (with_matcher CHILDREN_RE st)
  | None =>
      if negb (expressing st) then Throw MissingCommentTerminator
      else mret (with_expressing false st)
  end.

(** Lines 136-356: the [switch (matcher)]. *)
Definition switch_matcher (st : Locals) : Completion Locals :=
  match matcher st with
  | CHILDREN_RE => children_case st
  | PROPS_RE => props_case st
  | CLOSING_TAG_RE => closing_tag_case st
  | CLOSING_SINGLE_QUOTE_RE | CLOSING_DOUBLE_QUOTE_RE => closing_quote_case st
  | CLOSING_COMMENT_RE => closing_comment_case st
  end.
End iteration.

(** Lines 133-135: [end] as computed from the match. *)
Definition end_of (span : string) (match_ : option RegExpMatch) : nat :=
  match match_ with
  | Some m => match_end m
  | None => String.length span
  end.

(** Lines 133-356: the body of the inner loop, which gives the next [i] and
    the completion of the [switch]. *)
Definition iteration (span : string) (exp : value) (i : nat) (st : Locals)
    : nat * Completion Locals :=
  let match_ := exec (matcher st) span i in
  let end_ := end_of span match_ in
  (end_, switch_matcher span exp i match_ end_ st).

(** Lines 132-357: [for (let i = 0, end = i; i < span.length; i = end)],
    cut off after [fuel] iterations. *)
Fixpoint span_loop (fuel : nat) (span : string) (exp : value) (i : nat)
    (st : Locals) : Completion Locals :=
  if bool_decide (i < String.length span) then
    match fuel with
    | 0 => Abort OutOfFuel
    | S fuel' =>
        let '(end_, c) := iteration span exp i st in
        st ← c; span_loop fuel' span exp end_ st
    end
  else mret st.

(** [expressions[s]]. *)
Definition expression_at (expressions : list value) (s : nat) : value :=
  default VUndefined (expressions !! s).

(** The locals at the top of the inner loop of a span: [expressing] is set
    (line 111) and lines 112-130 are run.  [n] is [spans.length]. *)
Definition enter_span (n s : nat) (span : string) (exp : value) (st : Locals)
    : Completion Locals :=
  consecutive_expressions span exp (with_expressing (bool_decide (s < n - 1)) st).

(** Lines 359-364: the message of the error is computed first, and
    [JSON.stringify(value)] can throw. *)
Definition leave_span (exp : value) (st : Locals) : Completion Locals :=
  if expressing st then
    if JS.stringify_throws exp then Abort TypeError else Throw UnexpectedExpression
  else mret st.

(** Lines 108-364: the body of the outer loop.  Every iteration of the inner
    loop moves [i] forward, so [span.length] iterations are enough. *)
Definition process_span (n s : nat) (span : string) (exp : value) (st : Locals)
    : Completion Locals :=
  st ← enter_span n s span exp st;
  st ← span_loop (String.length span) span exp 0 st;
  leave_span exp st.

(** Lines 107-365: [for (let s = 0; s < spans.length; s++)], on the spans
    from index [s] on. *)
Fixpoint spans_loop (n : nat) (expressions : list value) (s : nat)
    (rest : list string) (st : Locals) : Completion Locals :=
  match rest with
  | [] => mret st
  | span :: rest' =>
      st ← process_span n s span (expression_at expressions s) st;
      spans_loop n expressions (S s) rest' st
  end.

(** Lines 93-106. *)
Definition initial : Locals :=
  {| current := mkElement (VStr EmptyString) None [];
     stack := [];
     matcher := CHILDREN_RE;
     lineStart := true;
     propName := EmptyString;
     propValue := EmptyString;
     expressing := false |}.

(** Lines 367-373. *)
Definition finish (st : Locals) : Completion ParseElement :=
  if bool_decide (stack st ≠ []) then Throw UnmatchedOpeningTag
  else mret (current st).

Definition parse (spans : list string) (expressions : list value)
    : Completion ParseElement :=
  st ← spans_loop (length spans) expressions 0 spans initial;
  finish st.

(** ** [template] *)

Module Crank.
(** [c] is [createElement] of crank.js, which [template] imports and which
    is not among the sources at hand.  A call of [c] is kept as it is made:
    the tag, the props argument ([Absent] when the call gives none, as in
    [c("")]) and the children arguments, in order. *)
Inductive PropsArgument :=
  | Absent
  | Given (props : option (gmap string value)).

Inductive Element :=
  | c (tag : value) (props : PropsArgument) (children : list Child)
with Child :=
  | ChildElement (e : Element)
  | ChildValue (v : value).
End Crank.

(** The argument that [createElementsFromParse] passes to [c] for one child:
    [child.type === "element" ? createElementsFromParse(child) : child.value]. *)
Fixpoint child_argument (child : ParseChild) : Crank.Child :=
  match child with
  | Element t p cs =>
      Crank.ChildElement (Crank.c t (Crank.Given p) (List.map child_argument cs))
  | Value v => Crank.ChildValue v
  end.

Definition createElementsFromParse (parsed : ParseElement) : Crank.Element :=
  Crank.c (tag parsed) (Crank.Given (props parsed))
    (List.map child_argument (children parsed)).

(** [template(spans, ...expressions)], on [spans.raw]. *)
Definition template (raw : list string) (expressions : list value)
    : Completion Crank.Element :=
  parsed ← parse raw expressions;
  match children parsed with
  | [] => mret (Crank.c (VStr EmptyString) Crank.Absent [])
  | [Element t p cs] => mret (createElementsFromParse (mkElement t p cs))
  | _ => mret (createElementsFromParse parsed)
  end.

(** * The vocabulary of the properties *)

(** ** The points that a run of [parse] reaches *)

Inductive Point :=
  | AtSpan (s : nat)          (** the test of the outer loop *)
  | AtIndex (s i : nat).      (** the test of the inner loop, in span [s] *)

Section run.
Context (spans : list string) (expressions : list value).

Local Abbreviation exp_at s := (expression_at expressions s).

(** [Reaches pt st]: the run of [parse spans expressions] comes to the
    point [pt] with the locals [st]. *)
Inductive Reaches : Point → Locals → Prop :=
  | reaches_first :
      Reaches (AtSpan 0) initial
  | reaches_enter s span st st' :
      spans !! s = Some span →
      Reaches (AtSpan s) st →
      enter_span (length spans) s span (exp_at s) st = Normal st' →
      Reaches (AtIndex s 0) st'
  | reaches_iteration s span i st st' :
      spans !! s = Some span →
      Reaches (AtIndex s i) st →
      i < String.length span →
      (iteration span (exp_at s) i st).2 = Normal st' →
      Reaches (AtIndex s (iteration span (exp_at s) i st).1) st'
  | reaches_leave s span i st :
      spans !! s = Some span →
      Reaches (AtIndex s i) st →
      String.length span ≤ i →
      expressing st = false →
      Reaches (AtSpan (S s)) st.

(** [Runs s span i st]: the body of the inner loop is run on [span], the
    span of index [s], at position [i] with the locals [st]. *)
Definition Runs (s : nat) (span : string) (i : nat) (st : Locals) : Prop :=
  spans !! s = Some span ∧ Reaches (AtIndex s i) st ∧ i < String.length span.

(** What is left of [parse] from a point on. *)
Definition resume_spans (s : nat) (st : Locals) : Completion ParseElement :=
  st ← spans_loop (length spans) expressions s (drop s spans) st; finish st.

Definition resume (pt : Point) (st : Locals) : Completion ParseElement :=
  match pt with
  | AtSpan s => resume_spans s st
  | AtIndex s i =>
      match spans !! s with
      | Some span =>
          st ← span_loop (String.length span) span (exp_at s) i st;
          st ← leave_span (exp_at s) st;
          resume_spans (S s) st
      | None => mret (current st)
      end
  end.

(** Where an abrupt completion of [parse] comes from: the lines before the
    inner loop, the body of the inner loop, the check after the inner loop
    or the check after the outer loop. *)
Inductive Origin (x : Abrupt) : Prop :=
  | from_enter s span st :
      spans !! s = Some span →
      Reaches (AtSpan s) st →
      enter_span (length spans) s span (exp_at s) st = Abort x →
      Origin x
  | from_iteration s span i st :
      Runs s span i st →
      (iteration span (exp_at s) i st).2 = Abort x →
      Origin x
  | from_leave s span i st :
      spans !! s = Some span →
      Reaches (AtIndex s i) st →
      String.length span ≤ i →
      expressing st = true →
      leave_span (exp_at s) st = Abort x →
      Origin x
  | from_finish st :
      Reaches (AtSpan (length spans)) st →
      stack st ≠ [] →
      x = Thrown UnmatchedOpeningTag →
      Origin x.

End run.

(** ** Running the inner loop a given number of times *)

(** The position and the locals after [k] iterations of the inner loop, when
    the loop makes that many and none of them throws. *)
Fixpoint iterate (k : nat) (span : string) (exp : value) (i : nat) (st : Locals)
    : option (nat * Locals) :=
  match k with
  | 0 => Some (i, st)
  | S k' =>
      if bool_decide (i < String.length span) then
        match iteration span exp i st with
        | (end_, Normal st') => iterate k' span exp end_ st'
        | (_, Abort _) => None
        end
      else None
  end.

(** ** Invariants *)

(** The modes in which the scanner is inside an opening tag: the props and,
    within them, a string that an expression has interrupted. *)
Definition inside_tag (re : Matcher) : bool :=
  match re with
  | PROPS_RE | CLOSING_SINGLE_QUOTE_RE | CLOSING_DOUBLE_QUOTE_RE => true
  | CHILDREN_RE | CLOSING_TAG_RE | CLOSING_COMMENT_RE => false
  end.

Definition stack_invariant (st : Locals) : Prop :=
  inside_tag (matcher st) = true → stack st ≠ [].

(** A step that leaves [matcher] and [stack] as they are. *)
Definition same_frame (st st' : Locals) : Prop :=
  matcher st' = matcher st ∧ stack st' = stack st.

(** The element at the bottom of the stack, or the current element when the
    stack is empty: the element that [parse] created first and returns. *)
Definition root_of (st : Locals) : ParseElement :=
  default (current st) (last (stack st)).

(** The wrapper that [parse] starts from has the empty tag and no props. *)
Definition is_wrapper (e : ParseElement) : Prop :=
  tag e = VStr EmptyString ∧ props e = None.

Definition root_invariant (st : Locals) : Prop := is_wrapper (root_of st).

(** ** The vocabulary of the further properties *)

(** The errors that the [switch] can throw in each mode. *)
Definition may_throw (re : Matcher) (e : SyntaxError) : bool :=
  match re, e with
  | CHILDREN_RE, (UnmatchedClosingTag | MismatchedClosingTag) => true
  | PROPS_RE, (UnexpectedText | MissingSpreadExpression | ExpressionExpected) => true
  | CLOSING_TAG_RE, UnexpectedText => true
  | CLOSING_COMMENT_RE, MissingCommentTerminator => true
  | _, _ => false
  end.

(** A character that CHILDREN_RE matches nothing at: no line end and no
    [<]. *)
Definition is_plain (c : ascii) : bool := negb (is_eol c) && negb (Ascii.eqb c "<").

(** The children that a span without markers gives: its text, if any, then
    the expression that follows it, if any.  [n] is [spans.length]. *)
Definition plain_span_children (n s : nat) (span : string) (exp : value)
    : list ParseChild :=
  let pending := bool_decide (s < n - 1) in
  let text := if pending then span else trim_trailing span in
  (if Str.nonempty text then [Value (VStr text)] else [])
  ++ (if pending then [Value exp] else []).

Fixpoint plain_children (n : nat) (expressions : list value) (s : nat)
    (spans : list string) : list ParseChild :=
  match spans with
  | [] => []
  | span :: rest =>
      plain_span_children n s span (expression_at expressions s)
      ++ plain_children n expressions (S s) rest
  end.

(** [current.children.push(...cs)]. *)
Definition push_children (cs : list ParseChild) (st : Locals) : Locals :=
  with_current (mkElement (tag (current st)) (props (current st))
                  (children (current st) ++ cs)) st.

(** The text of a string literal for [s]: a backslash is written before
    every backslash and every quote. *)
Fixpoint escape (s : string) : string :=
  match s with
  | EmptyString => EmptyString
  | String c s' =>
      if Ascii.eqb c BACKSLASH || Ascii.eqb c DQUOTE || Ascii.eqb c SQUOTE
      then String BACKSLASH (String c (escape s'))
      else String c (escape s')
  end.

(** [s.includes(p)]. *)
Fixpoint contains (p s : string) : bool :=
  Str.starts_with p s
  || match s with
     | String _ s' => contains p s'
     | EmptyString => false
     end.

(** The text of a span as a child: a list with the text when it is not
    empty. *)
Definition text_child (text : string) : list ParseChild :=
  if Str.nonempty text then [Value (VStr text)] else [].

(** [Steps span exp i st j st']: from position [i] with the locals [st], the
    inner loop on [span] runs some iterations, none of which throws, and
    comes to position [j] with the locals [st']. *)
Inductive Steps (span : string) (exp : value) : nat → Locals → nat → Locals → Prop :=
  | steps_done i st : Steps span exp i st i st
  | steps_next i st j st' k st'' :
      i < String.length span →
      iteration span exp i st = (j, Normal st') →
      Steps span exp j st' k st'' →
      Steps span exp i st k st''.

(** The text before a match, pushed when it is not empty. *)
Definition push_text (t : string) (st : Locals) : Locals :=
  if Str.nonempty t then push_value (VStr t) st else st.

(** Whether the last character of [s] is a backslash. *)
Fixpoint ends_with_backslash (s : string) : bool :=
  match s with
  | EmptyString => false
  | String c EmptyString => Ascii.eqb c BACKSLASH
  | String _ s' => ends_with_backslash s'
  end.

(** A quote character. *)
Definition is_quote (q : ascii) : bool := Ascii.eqb q DQUOTE || Ascii.eqb q SQUOTE.

(** Markup without expressions: an element with its props and its content,
    a self-closing element with its props, or a text. *)
Inductive Markup :=
  | Node (name : string) (attrs : list (string * string)) (content : list Markup)
  | Leaf (name : string) (attrs : list (string * string))
  | Text (text : string).

Definition join (l : list string) : string := foldr String.append EmptyString l.

(** A prop as it is written: a space, the name, [=] and the escaped value
    in double quotes. *)
Definition render_attr (a : string * string) : string :=
  String " " (a.1 +:+ String "=" (String DQUOTE (escape a.2 +:+ String DQUOTE EmptyString))).

Fixpoint render (m : Markup) : string :=
  match m with
  | Node x attrs content =>
      "<" +:+ x +:+ join (List.map render_attr attrs) +:+ ">"
      +:+ join (List.map render content) +:+ "</" +:+ x +:+ ">"
  | Leaf x attrs => "<" +:+ x +:+ join (List.map render_attr attrs) +:+ "/>"
  | Text t => t
  end.

(** The props that a list of written props gives: [null] when there is
    none, and else an object in which a later prop overwrites an earlier one
    of the same name. *)
Definition attrs_props (attrs : list (string * string)) : option (gmap string value) :=
  match attrs with
  | [] => None
  | _ => Some (foldl (λ m a, <[a.1 := VStr a.2]> m) ∅ attrs)
  end.

(** The parse tree of a markup. *)
Fixpoint tree (m : Markup) : ParseChild :=
  match m with
  | Node x attrs content => Element (VStr x) (attrs_props attrs) (List.map tree content)
  | Leaf x attrs => Element (VStr x) (attrs_props attrs) []
  | Text t => Value (VStr t)
  end.

Definition is_name (x : string) : bool := Str.nonempty x && Str.all is_ident x.

Definition is_attr (a : string * string) : bool :=
  is_name a.1 && negb (ends_with_backslash a.2).

Definition is_Text (m : Markup) : bool :=
  match m with Text _ => true | _ => false end.

(** No two texts in a row: the scanner reads them as one. *)
Fixpoint separated (content : list Markup) : bool :=
  match content with
  | a :: (b :: _) as rest => negb (is_Text a && is_Text b) && separated rest
  | _ => true
  end.

(** The markup that is read back as it is: names are identifiers, a prop
    value does not end with a backslash, a text is not empty and has no [<]
    and no line end, and no two texts are in a row. *)
Fixpoint well_formed (m : Markup) : bool :=
  match m with
  | Node x attrs content =>
      is_name x && forallb is_attr attrs && separated content
      && forallb well_formed content
  | Leaf x attrs => is_name x && forallb is_attr attrs
  | Text t => Str.nonempty t && Str.all is_plain t
  end.

Fixpoint size (m : Markup) : nat :=
  match m with
  | Node _ _ content => S (list_sum (List.map size content))
  | _ => 1
  end.

(** The props after the props [attrs] are read, from the props [p]. *)
Definition fold_attrs (p : option (gmap string value)) (attrs : list (string * string))
    : option (gmap string value) :=
  foldl (λ p a, JS.spread p {[ a.1 := VStr a.2 ]}) p attrs.

Definition head_is_text (content : list Markup) : bool :=
  match content with
  | m :: _ => is_Text m
  | [] => false
  end.

(** A text with no quote [q] and no backslash. *)
Definition quote_free (q : ascii) (s : string) : bool :=
  Str.all (λ c, negb (Ascii.eqb c q) && negb (Ascii.eqb c BACKSLASH)) s.

(** What an expression adds to a quoted prop value that it interrupts:
    nothing for a boolean, [null] and [undefined], and else its text;
    [None] when [String] throws. *)
Definition interpolated (v : value) : option string :=
  if JS.is_boolean v || JS.is_nullish v then Some EmptyString else JS.to_text v.

(** The closing-quote mode of a quote character. *)
Definition closing_quote_of (q : ascii) : Matcher :=
  if Ascii.eqb q SQUOTE then CLOSING_SINGLE_QUOTE_RE else CLOSING_DOUBLE_QUOTE_RE.

(** * Lemmas *)

(** ** Tactics *)

Global Arguments iteration : simpl never.
Global Arguments group : simpl never.
Global Arguments truthy : simpl never.

(** Runs the binds of a completion whose head is known. *)
Ltac run_binds_in H := cbn [mbind mret Completion_ret Completion_bind] in H.
Ltac run_binds := cbn [mbind mret Completion_ret Completion_bind].

(** Uses [H : Normal a = Normal st'] to replace [st'] by [a]. *)
Ltac normal_in H := run_binds_in H; injection H as <-.

Ltac frame :=
  unfold same_frame; intros;
  repeat first [ done | split | case_match; simpl ].

(** ** Strings *)

Lemma string_app_cons c a b : String c a +:+ b = String c (a +:+ b).
Proof. reflexivity. Qed.

Lemma string_length_app a b :
  String.length (a +:+ b) = String.length a + String.length b.
Proof.
  induction a as [|c a IH]; [done|]. rewrite string_app_cons. simpl. by rewrite IH.
Qed.

Lemma string_drop_app_length a b : Str.drop (String.length a) (a +:+ b) = b.
Proof.
  induction a as [|c a IH]; [by destruct b|]. by rewrite string_app_cons.
Qed.

(** Scanning an all-[p] string followed by a character outside [p]. *)
Lemma string_span_all_stop p a c b :
  Str.all p a = true → p c = false →
  Str.span p (a +:+ String c b) = (a, String c b).
Proof.
  intros Ha Hc. induction a as [|d a IH].
  - simpl. by rewrite Hc.
  - rewrite string_app_cons. simpl in *.
    apply andb_prop in Ha as [-> Ha]. by rewrite (IH Ha).
Qed.

(** ** Matches: where they start and that they are not empty *)

Lemma drop_drop a b s : Str.drop a (Str.drop b s) = Str.drop (b + a) s.
Proof.
  revert s; induction b as [|b IH]; intros s; [done|].
  destruct s as [|c s]; simpl; [by destruct a | apply IH].
Qed.

Lemma search_spec at_ rest idx m :
  search at_ rest idx = Some m →
  idx ≤ index m ∧ at_ (Str.drop (index m - idx) rest) = Some (matched m, groups m).
Proof.
  revert idx; induction rest as [|c rest IH]; intros idx; simpl.
  - destruct (at_ EmptyString) as [[m0 gs]|] eqn:Hat; [|done].
    intros [= <-]; simpl. by rewrite Nat.sub_diag.
  - destruct (at_ (String c rest)) as [[m0 gs]|] eqn:Hat.
    + intros [= <-]; simpl. by rewrite Nat.sub_diag.
    + intros [Hle Hm]%IH. split; [lia|].
      replace (index m - idx) with (S (index m - S idx)) by lia. done.
Qed.

Lemma exec_spec re span i m :
  exec re span i = Some m →
  i ≤ index m ∧ attempt re (Str.drop (index m) span) = Some (matched m, groups m).
Proof.
  unfold exec, exec_with. case_decide; [|done].
  intros [Hle Hm]%search_spec. split; [done|].
  rewrite drop_drop in Hm. by replace (i + (index m - i)) with (index m) in Hm by lia.
Qed.

Lemma tag_end_at_nonempty r m : tag_end_at r = Some m → 1 ≤ String.length m.
Proof.
  unfold tag_end_at. intros H.
  assert (∀ pre r1 m,
    (let '(ws, r2) := Str.span is_space r1 in
     match r2 with
     | String c _ => if Ascii.eqb c ">" then Some (pre +:+ ws +:+ ">") else None
     | EmptyString => None
     end) = Some m → 1 ≤ String.length m) as Htry.
  { intros pre r1 m0. destruct (Str.span is_space r1) as [ws r2].
    destruct r2 as [|c r2]; [done|]. destruct (Ascii.eqb c ">"); [|done].
    intros [= <-]. rewrite !string_length_app. simpl. lia. }
  destruct r as [|c r1]; [done|].
  destruct (Ascii.eqb c "/"); [|by eapply Htry].
  match type of H with
  | match ?t with _ => _ end = _ => destruct t eqn:Ht
  end; [injection H as <-|]; by eapply Htry.
Qed.

Lemma attempt_nonempty re r m gs :
  attempt re r = Some (m, gs) → 1 ≤ String.length m.
Proof.
  destruct re; simpl.
  - unfold children_at. destruct r as [|c r']; [done|].
    destruct (is_eol c); [intros [= <- _]; simpl; lia|].
    destruct (Str.starts_with _ _); [intros [= <- _]; rewrite string_length_app; simpl; lia|].
    destruct (Ascii.eqb c "<"); [|done].
    destruct (Str.span is_space r') as [ws1 r1], (slashes r1) as [sl r2].
    destruct (Str.span is_space r2) as [ws2 r3], (Str.span is_ident r3) as [name r4].
    intros [= <- _]. rewrite string_length_app. simpl. lia.
  - unfold props_at. destruct (Str.span is_space r) as [ws r0].
    destruct (tag_end_at r0) as [te|] eqn:Hte.
    { intros [= <- _]. apply tag_end_at_nonempty in Hte.
      rewrite string_length_app. lia. }
    unfold spread_at. destruct (Str.starts_with "..." r0).
    { intros [= <- _]. rewrite !string_length_app. simpl. lia. }
    unfold prop_at. destruct (Str.span is_ident r0) as [name r1].
    destruct name as [|c name]; simpl; [done|].
    destruct (Str.span is_space r1) as [ws1 r2].
    destruct (match r2 with String c0 r3 => _ | EmptyString => _ end) as [equals r3].
    destruct (Str.span is_space r3) as [ws2 r4].
    intros [= <- _]. rewrite string_length_app, string_app_cons. simpl. lia.
  - unfold closing_tag_at. destruct (Str.starts_with _ _); [|done].
    intros [= <- _]. simpl. lia.
  - unfold closing_quote_at. destruct r as [|c [|d r']]; [done|..];
      repeat case_match; intros [= <- _]; simpl; lia.
  - unfold closing_quote_at. destruct r as [|c [|d r']]; [done|..];
      repeat case_match; intros [= <- _]; simpl; lia.
  - unfold closing_comment_at. destruct (Str.starts_with _ _); [|done].
    intros [= <- _]. simpl. lia.
Qed.

(** Every match ends after the position where the search began. *)
Lemma exec_progress re span i m : exec re span i = Some m → i < match_end m.
Proof.
  intros H. destruct (exec_spec _ _ _ _ H) as [Hle Hat].
  apply attempt_nonempty in Hat. unfold match_end. lia.
Qed.

Lemma iteration_progress span exp i st :
  i < String.length span → i < (iteration span exp i st).1.
Proof.
  intros Hi. unfold iteration; simpl. unfold end_of.
  destruct (exec _ _ _) as [m|] eqn:Hm; [by eapply exec_progress | done].
Qed.

(** ** The inner loop does not depend on its bound *)

Lemma bind_normal {A B} (a : A) (f : A → Completion B) : Normal a ≫= f = f a.
Proof. reflexivity. Qed.

Lemma bind_abort {A B} (x : Abrupt) (f : A → Completion B) :
  @Abort A x ≫= f = Abort x.
Proof. reflexivity. Qed.

Lemma span_loop_done fuel span exp i st :
  String.length span ≤ i → span_loop fuel span exp i st = Normal st.
Proof.
  intros Hi. destruct fuel; simpl; by rewrite bool_decide_eq_false_2 by lia.
Qed.

Lemma span_loop_S fuel span exp i st :
  span_loop (S fuel) span exp i st =
    if bool_decide (i < String.length span) then
      let '(end_, c) := iteration span exp i st in
      st ← c; span_loop fuel span exp end_ st
    else mret st.
Proof. reflexivity. Qed.

Lemma span_loop_fuel span exp f1 f2 i st :
  String.length span - i ≤ f1 → String.length span - i ≤ f2 →
  span_loop f1 span exp i st = span_loop f2 span exp i st.
Proof.
  revert f2 i st. induction f1 as [|f1 IH]; intros f2 i st H1 H2.
  - by rewrite !span_loop_done by lia.
  - destruct f2 as [|f2]; [by rewrite !span_loop_done by lia|].
    cbn [span_loop]. case_bool_decide as Hi; [|done].
    pose proof (iteration_progress span exp i st Hi) as Hend.
    destruct (iteration span exp i st) as [end_ c]; simpl in Hend.
    destruct c as [st'|x]; [|done]. rewrite !bind_normal. apply IH; lia.
Qed.

(** With a bound that is large enough the inner loop is the [for] loop of
    the source: it runs the body and goes on from [end]. *)
Lemma span_loop_unfold fuel span exp i st :
  i < String.length span → String.length span - i ≤ fuel →
  span_loop fuel span exp i st =
    (st' ← (iteration span exp i st).2;
     span_loop fuel span exp (iteration span exp i st).1 st').
Proof.
  intros Hi Hfuel. destruct fuel as [|fuel]; [lia|].
  pose proof (iteration_progress span exp i st Hi) as Hend.
  rewrite span_loop_S, bool_decide_eq_true_2 by done.
  destruct (iteration span exp i st) as [end_ c]; simpl in Hend; cbn [fst snd].
  destruct c as [st'|x]; [|done]. rewrite !bind_normal. apply span_loop_fuel; lia.
Qed.

(** ** A run is [parse] *)

Section run_facts.
Context (spans : list string) (expressions : list value).

Local Abbreviation exp_at s := (expression_at expressions s).

Lemma resume_spans_unfold s span st :
  spans !! s = Some span →
  resume_spans spans expressions s st =
    (st' ← enter_span (length spans) s span (exp_at s) st;
     resume spans expressions (AtIndex s 0) st').
Proof.
  intros Hs. unfold resume, resume_spans. rewrite Hs.
  rewrite (drop_S _ _ _ Hs). simpl. unfold process_span.
  destruct (enter_span _ _ _ _ _) as [st0|]; simpl; [|done].
  destruct (span_loop _ _ _ _ _) as [st1|]; simpl; [|done].
  by destruct (leave_span _ st1).
Qed.

Lemma resume_iteration s span i st :
  spans !! s = Some span → i < String.length span →
  resume spans expressions (AtIndex s i) st =
    match (iteration span (exp_at s) i st).2 with
    | Normal st' => resume spans expressions (AtIndex s (iteration span (exp_at s) i st).1) st'
    | Abort x => Abort x
    end.
Proof.
  intros Hs Hi. unfold resume. rewrite Hs.
  rewrite span_loop_unfold by (done || lia).
  by destruct ((iteration span (exp_at s) i st).2).
Qed.

Lemma resume_leave s span i st :
  spans !! s = Some span → String.length span ≤ i →
  resume spans expressions (AtIndex s i) st =
    if expressing st then
      if JS.stringify_throws (exp_at s) then Abort TypeError
      else Throw UnexpectedExpression
    else resume_spans spans expressions (S s) st.
Proof.
  intros Hs Hi. unfold resume. rewrite Hs, span_loop_done by done.
  simpl. unfold leave_span. destruct (expressing st); [|done].
  by destruct (JS.stringify_throws _).
Qed.

(** A run is [parse]: from each point it reaches, what is left to do gives
    the completion of [parse]. *)
Lemma reaches_resume pt st :
  Reaches spans expressions pt st → parse spans expressions = resume spans expressions pt st.
Proof.
  induction 1 as [|s span st st' Hs _ IH Henter|s span i st st' Hs _ IH Hi Hit
                  |s span i st Hs _ IH Hi Hex].
  - unfold resume, resume_spans, parse. by rewrite drop_0.
  - rewrite IH. cbn [resume]. by rewrite (resume_spans_unfold _ _ _ Hs), Henter.
  - by rewrite IH, (resume_iteration _ _ _ _ Hs Hi), Hit.
  - by rewrite IH, (resume_leave _ _ _ _ Hs Hi), Hex.
Qed.

(** An abrupt completion of a body that is run is the completion of
    [parse]: nothing catches it. *)
Lemma runs_abort s span i st x :
  Runs spans expressions s span i st →
  (iteration span (exp_at s) i st).2 = Abort x →
  parse spans expressions = Abort x.
Proof.
  intros (Hs & Hreach & Hi) Hit.
  by rewrite (reaches_resume _ _ Hreach), (resume_iteration _ _ _ _ Hs Hi), Hit.
Qed.

Lemma resume_index_origin x s span :
  spans !! s = Some span →
  (∀ st, Reaches spans expressions (AtSpan (S s)) st → resume_spans spans expressions (S s) st = Abort x → Origin spans expressions x) →
  ∀ k i st,
    String.length span - i ≤ k →
    Reaches spans expressions (AtIndex s i) st →
    resume spans expressions (AtIndex s i) st = Abort x → Origin spans expressions x.
Proof.
  intros Hs Hnext.
  assert (∀ i st,
    String.length span ≤ i →
    Reaches spans expressions (AtIndex s i) st →
    resume spans expressions (AtIndex s i) st = Abort x → Origin spans expressions x)
    as Hleave.
  { intros i st Hi Hreach Hres. rewrite (resume_leave _ _ _ _ Hs) in Hres by lia.
    destruct (expressing st) eqn:Hex.
    - eapply (from_leave _ _ _ s span i st); [done..|].
      unfold leave_span. rewrite Hex.
      destruct (JS.stringify_throws _); by injection Hres as <-.
    - eapply Hnext; [|done]. eapply reaches_leave; eauto; lia. }
  induction k as [|k IH]; intros i st Hk Hreach Hres.
  - apply (Hleave i st); [lia|done..].
  - destruct (decide (i < String.length span)) as [Hi|Hi].
    + rewrite (resume_iteration _ _ _ _ Hs Hi) in Hres.
      pose proof (iteration_progress span (exp_at s) i st Hi) as Hend.
      destruct ((iteration span (exp_at s) i st).2) as [st'|y] eqn:Hit.
      * eapply (IH (iteration span (exp_at s) i st).1 st'); [lia| |exact Hres].
        by eapply reaches_iteration.
      * injection Hres as <-. by eapply (from_iteration _ _ _ s span i st).
    + apply (Hleave i st); [lia|done..].
Qed.

Lemma resume_spans_origin x k :
  ∀ s st,
    length spans - s ≤ k →
    Reaches spans expressions (AtSpan s) st →
    resume_spans spans expressions s st = Abort x → Origin spans expressions x.
Proof.
  induction k as [|k IH]; intros s st Hk Hreach Hres.
  - unfold resume_spans in Hres. rewrite drop_ge in Hres by lia.
    simpl in Hres. unfold finish in Hres. case_bool_decide; [|done].
    injection Hres as <-. eapply from_finish; [|done..].
    destruct (decide (s = length spans)) as [->|Hne]; [done|].
    exfalso. clear -Hreach Hk Hne.
    assert (∀ pt st, Reaches spans expressions pt st →
      match pt with AtSpan s => s ≤ length spans | AtIndex s _ => s < length spans end)
      as Hbound.
    { induction 1; simpl in *; try lia; by eapply lookup_lt_Some. }
    apply Hbound in Hreach. lia.
  - destruct (spans !! s) as [span|] eqn:Hs.
    + rewrite (resume_spans_unfold _ _ _ Hs) in Hres.
      destruct (enter_span _ _ _ _ st) as [st0|y] eqn:Henter.
      2:{ injection Hres as <-. by eapply (from_enter _ _ _ s span st). }
      run_binds_in Hres.
      eapply (resume_index_origin x s span Hs); [| |by eapply reaches_enter|done].
      * intros st' Hreach' Hres'. eapply IH; [|done..].
        apply lookup_lt_Some in Hs. lia.
      * done.
    + apply lookup_ge_None in Hs. eapply (IH s); [lia|done..].
Qed.

Lemma parse_abort_origin x :
  parse spans expressions = Abort x → Origin spans expressions x.
Proof.
  intros Hp. eapply (resume_spans_origin x (length spans) 0 initial); [lia|constructor|].
  by rewrite (reaches_resume (AtSpan 0) initial (reaches_first _ _)) in Hp.
Qed.
End run_facts.

(** ** Inside a tag the stack is not empty *)

Lemma push_value_frame v st : same_frame st (push_value v st).
Proof. done. Qed.

Lemma assign_props_frame more st : same_frame st (assign_props more st).
Proof. done. Qed.

(** What [propValue += ...] changes is [propValue], and what it throws is a
    [TypeError]. *)
Lemma append_text_normal exp st st' :
  append_text exp st = Normal st' →
  ∃ text, JS.to_text exp = Some text
          ∧ st' = with_propValue (propValue st +:+ text) st.
Proof.
  unfold append_text. destruct (JS.to_text exp) as [text|]; [|done].
  intros [= <-]. by exists text.
Qed.

Lemma with_propValue_same st : with_propValue (propValue st) st = st.
Proof. by destruct st. Qed.

Lemma append_unless_nullish_normal exp st st' :
  append_unless_nullish exp st = Normal st' → ∃ value, st' = with_propValue value st.
Proof.
  unfold append_unless_nullish. destruct (negb _).
  - intros (text & _ & ->)%append_text_normal. by eexists.
  - intros [= <-]. exists (propValue st). by rewrite with_propValue_same.
Qed.

Lemma append_unless_boolean_or_nullish_normal exp st st' :
  append_unless_boolean_or_nullish exp st = Normal st' →
  ∃ value, st' = with_propValue value st.
Proof.
  unfold append_unless_boolean_or_nullish. destruct (_ && _).
  - intros (text & _ & ->)%append_text_normal. by eexists.
  - intros [= <-]. exists (propValue st). by rewrite with_propValue_same.
Qed.

Lemma append_text_abort exp st x : append_text exp st = Abort x → x = TypeError.
Proof. unfold append_text. destruct (JS.to_text exp); [done|]. by intros [= <-]. Qed.

Lemma append_unless_nullish_abort exp st x :
  append_unless_nullish exp st = Abort x → x = TypeError.
Proof.
  unfold append_unless_nullish. destruct (negb _); [apply append_text_abort|done].
Qed.

Lemma append_unless_boolean_or_nullish_abort exp st x :
  append_unless_boolean_or_nullish exp st = Abort x → x = TypeError.
Proof.
  unfold append_unless_boolean_or_nullish.
  destruct (_ && _); [apply append_text_abort|done].
Qed.

Lemma append_unless_nullish_frame exp st st' :
  append_unless_nullish exp st = Normal st' → same_frame st st'.
Proof. by intros (value & ->)%append_unless_nullish_normal. Qed.

Lemma append_unless_boolean_or_nullish_frame exp st st' :
  append_unless_boolean_or_nullish exp st = Normal st' → same_frame st st'.
Proof. by intros (value & ->)%append_unless_boolean_or_nullish_normal. Qed.

Lemma push_text_before_frame span i m st :
  same_frame st (push_text_before span i m st).
Proof. unfold push_text_before. frame. Qed.

Lemma push_text_after_frame span i st : same_frame st (push_text_after span i st).
Proof. unfold push_text_after. frame. Qed.

Lemma push_pending_child_frame span exp end_ st :
  same_frame st (push_pending_child span exp end_ st).
Proof. unfold push_pending_child. frame. Qed.

Lemma consecutive_expressions_frame span exp st st' :
  consecutive_expressions span exp st = Normal st' → same_frame st st'.
Proof.
  unfold consecutive_expressions.
  destruct (expressing st && _); [|by intros [= <-]].
  destruct (matcher st) eqn:Hm; try (by intros [= <-]).
  all: destruct (append_unless_boolean_or_nullish exp st) as [st1|] eqn:Happend;
    [|done]; intros [= <-];
    by apply append_unless_boolean_or_nullish_normal in Happend as [value ->].
Qed.

Lemma enter_span_invariant n s span exp st st' :
  enter_span n s span exp st = Normal st' →
  stack_invariant st → stack_invariant st'.
Proof.
  unfold stack_invariant, enter_span.
  intros [-> ->]%consecutive_expressions_frame. done.
Qed.

(** The lines before the inner loop throw nothing but the [TypeError] of
    [String]. *)
Lemma enter_span_abort n s span exp st x :
  enter_span n s span exp st = Abort x → x = TypeError.
Proof.
  unfold enter_span, consecutive_expressions.
  destruct (_ && _); [|done].
  destruct (matcher _); try done.
  all: destruct (append_unless_boolean_or_nullish _ _) as [st1|y] eqn:Happend;
    [done|]; intros [= <-]; by eapply append_unless_boolean_or_nullish_abort.
Qed.

(** After the [switch], in whatever mode it began: inside a tag the stack is
    not empty. *)
Lemma children_case_invariant span exp i match_ end_ st st' :
  children_case span exp i match_ end_ st = Normal st' →
  matcher st = CHILDREN_RE →
  stack_invariant st'.
Proof.
  unfold children_case, stack_invariant. intros Hcase Hre.
  destruct match_ as [m|].
  - destruct (push_text_before_frame span i m st) as [Hm Hs].
    set (st1 := with_lineStart _ _) in Hcase.
    assert (matcher st1 = CHILDREN_RE) as Hm1 by (by rewrite <-Hre, <-Hm).
    clearbody st1. destruct (truthy (group 2 m)).
    + run_binds_in Hcase. injection Hcase as <-.
      destruct (push_pending_child_frame span exp end_ (comment_case span end_ st1))
        as [-> _].
      unfold comment_case. repeat case_match; simpl; by rewrite ?Hm1.
    + destruct (truthy (group 3 m)).
      * unfold tag_case in Hcase.
        set (st2 := if pending_at_end span end_ st1 then _ else _) in Hcase.
        destruct (truthy (group 4 m)).
        { destruct (bool_decide (stack st2 = [])); [done|].
          destruct (_ && _); [done|]. unfold pop in Hcase.
          destruct (stack st2) as [|parent rest]; [done|].
          run_binds_in Hcase. injection Hcase as <-.
          by destruct (push_pending_child_frame span exp end_
            (with_matcher CLOSING_TAG_RE
               (with_stack rest (with_current (close_into parent (current st2)) st2))))
            as [-> _]. }
        run_binds_in Hcase. injection Hcase as <-.
        by destruct (push_pending_child_frame span exp end_
          (with_matcher PROPS_RE (open_element (marker_tag span exp end_ m st1) st2)))
          as [_ ->].
      * run_binds_in Hcase. injection Hcase as <-.
        destruct (push_pending_child_frame span exp end_ st1) as [-> _].
        by rewrite Hm1.
  - run_binds_in Hcase. injection Hcase as <-.
    destruct (push_pending_child_frame span exp end_ (push_text_after span i st))
      as [-> _].
    destruct (push_text_after_frame span i st) as [-> _]. by rewrite Hre.
Qed.

Lemma pop_stack st st' : pop st = Normal st' → stack st ≠ [].
Proof. unfold pop. by destruct (stack st). Qed.

Lemma props_case_invariant span exp i match_ end_ st st' :
  props_case span exp i match_ end_ st = Normal st' →
  stack_invariant st → matcher st = PROPS_RE →
  stack_invariant st'.
Proof.
  unfold props_case, stack_invariant. intros Hcase Hinv Hre.
  rewrite Hre in Hinv. specialize (Hinv eq_refl).
  destruct match_ as [m|]; [|destruct (negb _); [done|by normal_in Hcase]].
  destruct (bool_decide (i < index m)); [done|].
  destruct (truthy (group 1 m)).
  { unfold tag_end_case in Hcase.
    destruct (if bool_decide _ then pop st else mret st) as [st1|]; [|done].
    normal_in Hcase. by case_match. }
  destruct (truthy (group 2 m)).
  { unfold spread_case in Hcase. destruct (negb _); [done|]. by normal_in Hcase. }
  destruct (truthy (group 3 m)); [|by normal_in Hcase].
  unfold prop_case in Hcase. destruct (group 5 m) as [str|].
  - destruct (pending_at_end span end_ st).
    + destruct (append_unless_boolean_or_nullish _ _) as [st1|] eqn:Happend;
        [|done].
      apply append_unless_boolean_or_nullish_frame in Happend as [_ Hs1].
      normal_in Hcase. simpl. by rewrite Hs1.
    + by normal_in Hcase.
  - destruct (negb (truthy (group 4 m))); [by normal_in Hcase|].
    destruct (bool_decide _); [done|]. destruct (negb (expressing st)); [done|].
    by normal_in Hcase.
Qed.

Lemma closing_quote_case_invariant span exp i match_ end_ st st' :
  closing_quote_case span exp i match_ end_ st = Normal st' →
  stack_invariant st → inside_tag (matcher st) = true →
  stack_invariant st'.
Proof.
  unfold closing_quote_case, stack_invariant. intros Hcase Hinv Hre.
  specialize (Hinv Hre). intros _.
  set (st1 := match match_ with Some _ => _ | None => _ end) in Hcase.
  assert (stack st1 = stack st) as Hs1 by (unfold st1; by destruct match_).
  clearbody st1. destruct (pending_at_end span end_ st1).
  - destruct (append_unless_nullish exp st1) as [st2|] eqn:Happend; [|done].
    apply append_unless_nullish_frame in Happend as [_ Hs2].
    normal_in Hcase. simpl. by rewrite Hs2, Hs1.
  - normal_in Hcase. simpl. by rewrite Hs1.
Qed.

Lemma closing_quote_case_stack span exp i match_ end_ st st' :
  closing_quote_case span exp i match_ end_ st = Normal st' → stack st' = stack st.
Proof.
  unfold closing_quote_case. intros Hcase.
  set (st1 := match match_ with Some _ => _ | None => _ end) in Hcase.
  assert (stack st1 = stack st) as Hs1 by (unfold st1; by destruct match_).
  clearbody st1. destruct (pending_at_end span end_ st1).
  - destruct (append_unless_nullish exp st1) as [st2|] eqn:Happend; [|done].
    apply append_unless_nullish_frame in Happend as [_ Hs2].
    normal_in Hcase. simpl. by rewrite Hs2, Hs1.
  - normal_in Hcase. simpl. by rewrite Hs1.
Qed.

Lemma switch_matcher_invariant span exp i match_ end_ st st' :
  stack_invariant st →
  switch_matcher span exp i match_ end_ st = Normal st' →
  stack_invariant st'.
Proof.
  intros Hinv. unfold switch_matcher. destruct (matcher st) eqn:Hre.
  - intros H. by eapply children_case_invariant.
  - intros H. by eapply props_case_invariant.
  - unfold closing_tag_case, stack_invariant.
    repeat case_match; try done; intros Hcase; normal_in Hcase; simpl; try done;
      by rewrite Hre.
  - intros H. eapply closing_quote_case_invariant; [done..|by rewrite Hre].
  - intros H. eapply closing_quote_case_invariant; [done..|by rewrite Hre].
  - unfold closing_comment_case, stack_invariant.
    repeat case_match; try done; intros Hcase; normal_in Hcase; simpl; try done;
      by rewrite Hre.
Qed.

(** What a prop and a closing quote throw. *)
Lemma prop_case_abort span exp end_ m name st x :
  prop_case span exp end_ m name st = Abort x →
  x = TypeError ∨ ∃ e, x = Thrown e.
Proof.
  unfold prop_case. destruct (group 5 m) as [str|].
  - destruct (pending_at_end span end_ st); [|done].
    destruct (append_unless_boolean_or_nullish _ _) as [st1|y] eqn:Happend;
      [done|].
    intros [= <-]. left. by eapply append_unless_boolean_or_nullish_abort.
  - repeat case_match; try done; intros [= <-]; right; by eexists.
Qed.

Lemma prop_case_throws span exp end_ m name st e :
  prop_case span exp end_ m name st = Throw e →
  e = UnexpectedText ∨ e = ExpressionExpected.
Proof.
  unfold prop_case. destruct (group 5 m) as [str|].
  - destruct (pending_at_end span end_ st); [|done].
    destruct (append_unless_boolean_or_nullish _ _) as [st1|y] eqn:Happend;
      [done|].
    intros [= ->]. by apply append_unless_boolean_or_nullish_abort in Happend.
  - repeat case_match; try done; intros [= <-]; by eauto.
Qed.

Lemma closing_quote_case_abort span exp i match_ end_ st x :
  closing_quote_case span exp i match_ end_ st = Abort x → x = TypeError.
Proof.
  unfold closing_quote_case.
  set (st1 := match match_ with Some _ => _ | None => _ end). clearbody st1.
  destruct (pending_at_end span end_ st1); [|done].
  destruct (append_unless_nullish exp st1) as [st2|y] eqn:Happend; [done|].
  intros [= <-]. by eapply append_unless_nullish_abort.
Qed.

(** The unguarded [stack.pop()] of line 240 finds an element on the stack. *)
Lemma switch_matcher_defined span exp i match_ end_ st :
  stack_invariant st →
  switch_matcher span exp i match_ end_ st ≠ Abort UndefinedCurrent.
Proof.
  unfold stack_invariant, switch_matcher. intros Hinv.
  destruct (matcher st) eqn:Hre.
  - unfold children_case. destruct match_ as [m|]; simpl; [|done].
    set (st1 := with_lineStart _ _). clearbody st1.
    destruct (truthy (group 2 m)); [done|].
    destruct (truthy (group 3 m)); [|done].
    unfold tag_case. set (st2 := if pending_at_end span end_ st1 then _ else _).
    clearbody st2. destruct (truthy (group 4 m)); [|done].
    case_bool_decide as Hst; [done|]. destruct (_ && _); [done|].
    unfold pop. by destruct (stack st2).
  - unfold props_case. destruct match_ as [m|]; [|by destruct (negb _)].
    destruct (bool_decide _); [done|].
    destruct (truthy (group 1 m)).
    { unfold tag_end_case, pop. destruct (bool_decide _); [|done].
      specialize (Hinv eq_refl). by destruct (stack st). }
    destruct (truthy (group 2 m)); [unfold spread_case; by destruct (negb _)|].
    destruct (truthy (group 3 m)); [|done].
    by intros [|[e ?]]%prop_case_abort.
  - unfold closing_tag_case. repeat case_match; done.
  - by intros ?%closing_quote_case_abort.
  - by intros ?%closing_quote_case_abort.
  - unfold closing_comment_case. repeat case_match; done.
Qed.

(** The body of the inner loop has no loop of its own. *)
Lemma switch_matcher_fuel span exp i match_ end_ st :
  switch_matcher span exp i match_ end_ st ≠ Abort OutOfFuel.
Proof.
  unfold switch_matcher. destruct (matcher st).
  - unfold children_case. destruct match_ as [m|]; simpl; [|done].
    set (st1 := with_lineStart _ _). clearbody st1.
    destruct (truthy (group 2 m)); [done|].
    destruct (truthy (group 3 m)); [|done].
    unfold tag_case. set (st2 := if pending_at_end span end_ st1 then _ else _).
    clearbody st2. destruct (truthy (group 4 m)); [|done].
    case_bool_decide as Hst; [done|]. destruct (_ && _); [done|].
    unfold pop. by destruct (stack st2).
  - unfold props_case. destruct match_ as [m|]; [|by destruct (negb _)].
    destruct (bool_decide _); [done|].
    destruct (truthy (group 1 m)).
    { unfold tag_end_case, pop. destruct (bool_decide _); [|done].
      by destruct (stack st). }
    destruct (truthy (group 2 m)); [unfold spread_case; by destruct (negb _)|].
    destruct (truthy (group 3 m)); [|done].
    by intros [|[e ?]]%prop_case_abort.
  - unfold closing_tag_case. repeat case_match; done.
  - by intros ?%closing_quote_case_abort.
  - by intros ?%closing_quote_case_abort.
  - unfold closing_comment_case. repeat case_match; done.
Qed.

Lemma reaches_invariant spans expressions pt st :
  Reaches spans expressions pt st → stack_invariant st.
Proof.
  induction 1 as [|s span st st' Hs _ IH Henter|s span i st st' Hs _ IH Hi Hit
                  |s span i st Hs _ IH Hi Hex]; [done| | |done].
  - by eapply enter_span_invariant.
  - unfold iteration in Hit. by eapply switch_matcher_invariant.
Qed.

(** How the scanner comes to be in Props mode after an iteration: from
    Children mode by opening a tag, which pushes the enclosing element on the
    stack, or else it was inside the tag already (in Props mode, or coming
    back from a closing quote) and the stack is as it was. *)
Lemma switch_matcher_enters_props span exp i match_ end_ st st' :
  switch_matcher span exp i match_ end_ st = Normal st' →
  matcher st' = PROPS_RE →
  (matcher st = CHILDREN_RE ∧ ∃ parent, stack st' = parent :: stack st)
  ∨ (inside_tag (matcher st) = true ∧ stack st' = stack st).
Proof.
  unfold switch_matcher. destruct (matcher st) eqn:Hre; intros Hcase Hre'.
  - left. split; [done|]. unfold children_case in Hcase.
    destruct match_ as [m|].
    + destruct (push_text_before_frame span i m st) as [Hm Hs].
      set (st1 := with_lineStart _ _) in Hcase.
      assert (matcher st1 = CHILDREN_RE) as Hm1 by (by rewrite <-Hre, <-Hm).
      assert (stack st1 = stack st) as Hs1 by done.
      clearbody st1. destruct (truthy (group 2 m)).
      { normal_in Hcase. exfalso. revert Hre'.
        destruct (push_pending_child_frame span exp end_ (comment_case span end_ st1))
          as [-> _].
        unfold comment_case. repeat case_match; simpl; by rewrite ?Hm1. }
      destruct (truthy (group 3 m)).
      * unfold tag_case in Hcase.
        set (st2 := if pending_at_end span end_ st1 then _ else _) in Hcase.
        assert (stack st2 = stack st) as Hs2.
        { unfold st2. by destruct (pending_at_end span end_ st1). }
        destruct (truthy (group 4 m)).
        { destruct (bool_decide (stack st2 = [])); [done|].
          destruct (_ && _); [done|]. unfold pop in Hcase.
          destruct (stack st2) as [|parent rest]; [done|].
          normal_in Hcase. exfalso. revert Hre'.
          by destruct (push_pending_child_frame span exp end_
            (with_matcher CLOSING_TAG_RE
               (with_stack rest (with_current (close_into parent (current st2)) st2))))
            as [-> _]. }
        normal_in Hcase.
        destruct (push_pending_child_frame span exp end_
          (with_matcher PROPS_RE (open_element (marker_tag span exp end_ m st1) st2)))
          as [_ ->].
        simpl. rewrite Hs2. by eexists.
      * normal_in Hcase. exfalso. revert Hre'.
        destruct (push_pending_child_frame span exp end_ st1) as [-> _].
        by rewrite Hm1.
    + normal_in Hcase. exfalso. revert Hre'.
      destruct (push_pending_child_frame span exp end_ (push_text_after span i st))
        as [-> _].
      destruct (push_text_after_frame span i st) as [-> _]. by rewrite Hre.
  - right. split; [done|]. unfold props_case in Hcase.
    destruct match_ as [m|]; [|destruct (negb _); [done|by normal_in Hcase]].
    destruct (bool_decide (i < index m)); [done|].
    destruct (truthy (group 1 m)).
    { unfold tag_end_case in Hcase.
      destruct (if bool_decide _ then pop st else mret st) as [st1|]; [|done].
      normal_in Hcase. exfalso. revert Hre'. by case_match. }
    destruct (truthy (group 2 m)).
    { unfold spread_case in Hcase. destruct (negb _); [done|]. by normal_in Hcase. }
    destruct (truthy (group 3 m)); [|by normal_in Hcase].
    unfold prop_case in Hcase. destruct (group 5 m) as [str|].
    + destruct (pending_at_end span end_ st).
      * destruct (append_unless_boolean_or_nullish _ _) as [st1|] eqn:Happend;
          [|done].
        apply append_unless_boolean_or_nullish_frame in Happend as [_ Hs1].
        normal_in Hcase. simpl. by rewrite Hs1.
      * by normal_in Hcase.
    + destruct (negb (truthy (group 4 m))); [by normal_in Hcase|].
      destruct (bool_decide _); [done|]. destruct (negb (expressing st)); [done|].
      by normal_in Hcase.
  - exfalso. unfold closing_tag_case in Hcase. revert Hcase Hre'.
    repeat case_match; try done; intros Hcase; normal_in Hcase; simpl; try done;
      by rewrite Hre.
  - right. split; [done|]. by eapply closing_quote_case_stack.
  - right. split; [done|]. by eapply closing_quote_case_stack.
  - exfalso. unfold closing_comment_case in Hcase. revert Hcase Hre'.
    repeat case_match; try done; intros Hcase; normal_in Hcase; simpl; try done;
      by rewrite Hre.
Qed.

(** [parse] returns, throws a [SyntaxError], or lets through the [TypeError]
    of [String] or [JSON.stringify]: the inner loop is never cut off and
    [current] is never undefined. *)
Lemma parse_returns_or_throws spans expressions :
  (∃ root, parse spans expressions = Normal root)
  ∨ (∃ e, parse spans expressions = Throw e)
  ∨ parse spans expressions = Abort TypeError.
Proof.
  destruct (parse spans expressions) as [root|x] eqn:Hp; [by eauto|].
  right. destruct x as [e| | |]; [by eauto|by right|exfalso..].
  all: destruct (parse_abort_origin _ _ _ Hp)
    as [s span st Hs Hreach Henter
       |s span i st (Hs & Hreach & Hi) Hit
       |s span i st _ _ _ _ Hleave
       |st _ _ [=]].
  all: try (by apply enter_span_abort in Henter).
  all: try (unfold leave_span in Hleave; by repeat case_match).
  - eapply switch_matcher_defined; [|exact Hit]. by eapply reaches_invariant.
  - exact (switch_matcher_fuel _ _ _ _ _ _ Hit).
Qed.

(** ** The groups of a match *)

(** The three alternatives of CHILDREN_RE exclude each other: a match is a
    newline, a comment or a tag marker, and only a tag marker has the groups
    of the slash and of the name. *)
Lemma children_at_groups r m gs :
  children_at r = Some (m, gs) →
  (gs = [Some m; None; None; None; None])
  ∨ (gs = [None; Some m; None; None; None])
  ∨ (∃ slash name, gs = [None; None; Some m; Some slash; Some name]).
Proof.
  unfold children_at. destruct r as [|c r']; [done|].
  destruct (is_eol c); [intros [= <- <-]; by left|].
  destruct (Str.starts_with _ _); [intros [= <- <-]; right; by left|].
  destruct (Ascii.eqb c "<"); [|done].
  destruct (Str.span is_space r') as [ws1 r1], (slashes r1) as [sl r2].
  destruct (Str.span is_space r2) as [ws2 r3], (Str.span is_ident r3) as [name r4].
  intros [= <- <-]. right; right. by eauto.
Qed.

Lemma exec_children_groups span i m :
  exec CHILDREN_RE span i = Some m →
  (groups m = [Some (matched m); None; None; None; None])
  ∨ (groups m = [None; Some (matched m); None; None; None])
  ∨ (∃ slash name, groups m = [None; None; Some (matched m); Some slash; Some name]).
Proof. intros [_ Hat]%exec_spec. by apply children_at_groups in Hat. Qed.

Lemma truthy_matched re span i m :
  exec re span i = Some m → truthy (Some (matched m)) = true.
Proof.
  intros [_ Hat]%exec_spec. apply attempt_nonempty in Hat.
  unfold truthy. destruct (matched m); simpl in *; [lia|done].
Qed.

(** The three alternatives of PROPS_RE exclude each other too: the end of
    the tag, a spread or a prop with its name. *)
Lemma props_at_groups r m gs :
  props_at r = Some (m, gs) →
  (∃ tagEnd, gs = [Some tagEnd; None; None; None; None] ∧ truthy (Some tagEnd) = true)
  ∨ (∃ spread, gs = [None; Some spread; None; None; None] ∧ truthy (Some spread) = true)
  ∨ (∃ name equals str, gs = [None; None; Some name; equals; str]
       ∧ truthy (Some name) = true).
Proof.
  unfold props_at. destruct (Str.span is_space r) as [ws r0].
  destruct (tag_end_at r0) as [te|] eqn:Hte.
  { intros [= <- <-]. left. exists te. split; [done|].
    apply tag_end_at_nonempty in Hte. destruct te; simpl in *; [lia|done]. }
  unfold spread_at. destruct (Str.starts_with "..." r0).
  { intros [= <- <-]. right; left. by eexists. }
  unfold prop_at. destruct (Str.span is_ident r0) as [name r1].
  destruct (Str.nonempty name) eqn:Hname; [|done].
  destruct (Str.span is_space r1) as [ws1 r2].
  destruct (match r2 with String c0 r3 => _ | EmptyString => _ end) as [equals r3].
  destruct (Str.span is_space r3) as [ws2 r4].
  intros [= <- <-]. right; right. by eauto.
Qed.

Lemma exec_props_groups span i m :
  exec PROPS_RE span i = Some m →
  (∃ tagEnd, groups m = [Some tagEnd; None; None; None; None]
       ∧ truthy (Some tagEnd) = true)
  ∨ (∃ spread, groups m = [None; Some spread; None; None; None]
       ∧ truthy (Some spread) = true)
  ∨ (∃ name equals str, groups m = [None; None; Some name; equals; str]
       ∧ truthy (Some name) = true).
Proof. intros [_ Hat]%exec_spec. by apply props_at_groups in Hat. Qed.

(** ** The text before a marker leaves the rest of the locals alone *)

Lemma push_text_before_cases span i m st :
  push_text_before span i m st = st
  ∨ push_text_before span i m st = push_value (VStr (text_before span i m st)) st.
Proof. unfold push_text_before. repeat case_match; auto. Qed.

Lemma push_text_before_expressing span i m st :
  expressing (push_text_before span i m st) = expressing st.
Proof. by destruct (push_text_before_cases span i m st) as [-> | ->]. Qed.

Lemma push_text_before_tag span i m st :
  tag (current (push_text_before span i m st)) = tag (current st).
Proof. by destruct (push_text_before_cases span i m st) as [-> | ->]. Qed.

Lemma push_text_before_props span i m st :
  props (current (push_text_before span i m st)) = props (current st).
Proof. by destruct (push_text_before_cases span i m st) as [-> | ->]. Qed.

Lemma push_text_before_stack span i m st :
  stack (push_text_before span i m st) = stack st.
Proof. by destruct (push_text_before_cases span i m st) as [-> | ->]. Qed.

(** ** Closing markers *)

Section closing_marker.
Context (span : string) (exp : value) (i : nat) (m : RegExpMatch) (st : Locals).
Context (slash : string).
Hypothesis Hre : matcher st = CHILDREN_RE.
Hypothesis Hexec : exec CHILDREN_RE span i = Some m.
Hypothesis Hslash : group 4 m = Some slash.

Local Abbreviation end_ := (match_end m).
Local Abbreviation st1 := (with_lineStart false (push_text_before span i m st)).

(** A match with a slash group is a tag marker. *)
Lemma slash_groups :
  ∃ name, groups m = [None; None; Some (matched m); Some slash; Some name].
Proof using Hexec Hslash.
  destruct (exec_children_groups _ _ _ Hexec) as [Hg|[Hg|(sl & name & Hg)]];
    unfold group in Hslash; rewrite Hg in Hslash; simplify_eq/=. by eexists.
Qed.

Lemma tag_marker_step :
  (iteration span exp i st).2 =
    (st' ← tag_case span exp end_ m st1; mret (push_pending_child span exp end_ st')).
Proof using Hre Hexec Hslash.
  destruct slash_groups as [name Hg].
  unfold iteration; cbn [snd]. rewrite Hre, Hexec. unfold switch_matcher.
  rewrite Hre. unfold children_case, end_of.
  assert (group 1 m = None) as -> by (unfold group; by rewrite Hg).
  assert (group 2 m = None) as -> by (unfold group; by rewrite Hg).
  assert (group 3 m = Some (matched m)) as -> by (unfold group; by rewrite Hg).
  by rewrite (truthy_matched _ _ _ _ Hexec).
Qed.

Lemma marker_tag_before : marker_tag span exp end_ m st1 = marker_tag span exp end_ m st.
Proof.
  unfold marker_tag, pending_at_end; simpl.
  by rewrite push_text_before_expressing.
Qed.

Hypothesis Hclosing : Str.nonempty slash = true.

Lemma closing_marker_unmatched :
  stack st = [] → (iteration span exp i st).2 = Throw UnmatchedClosingTag.
Proof using Hre Hexec Hslash Hclosing.
  intros Hstack. rewrite tag_marker_step. unfold tag_case.
  rewrite Hslash. unfold truthy at 1. rewrite Hclosing.
  rewrite bool_decide_eq_true_2; [done|].
  destruct (pending_at_end span end_ st1); simpl;
    by rewrite push_text_before_stack.
Qed.

Lemma closing_marker_mismatched :
  stack st ≠ [] → slash ≠ "//" →
  JS.strict_equal (tag (current st)) (marker_tag span exp end_ m st) = false →
  (iteration span exp i st).2 = Throw MismatchedClosingTag.
Proof using Hre Hexec Hslash Hclosing.
  intros Hstack Hsingle Hneq. rewrite tag_marker_step. unfold tag_case.
  rewrite Hslash. unfold truthy at 1. rewrite Hclosing.
  rewrite marker_tag_before.
  set (st2 := if pending_at_end span end_ st1 then _ else _).
  assert (stack st2 = stack st) as Hs2.
  { unfold st2. destruct (pending_at_end span end_ st1); simpl;
      by rewrite push_text_before_stack. }
  assert (tag (current st2) = tag (current st)) as Ht2.
  { unfold st2. destruct (pending_at_end span end_ st1); simpl;
      by rewrite push_text_before_tag. }
  rewrite bool_decide_eq_false_2 by (by rewrite Hs2).
  rewrite (bool_decide_eq_false_2 (Some slash = Some "//")) by congruence.
  by rewrite Ht2, Hneq.
Qed.

Lemma closing_marker_closes parent rest :
  stack st = parent :: rest →
  slash = "//"
  ∨ JS.strict_equal (tag (current st)) (marker_tag span exp end_ m st) = true →
  ∃ st',
    (iteration span exp i st).2 = Normal st'
    ∧ stack st' = rest
    ∧ matcher st' = CLOSING_TAG_RE
    ∧ current st' = close_into parent (current (push_text_before span i m st)).
Proof using Hre Hexec Hslash Hclosing.
  intros Hstack Hok. rewrite tag_marker_step. unfold tag_case.
  rewrite Hslash. unfold truthy at 1. rewrite Hclosing.
  rewrite marker_tag_before.
  set (st2 := if pending_at_end span end_ st1 then _ else _).
  assert (stack st2 = stack st) as Hs2.
  { unfold st2. destruct (pending_at_end span end_ st1); simpl;
      by rewrite push_text_before_stack. }
  assert (tag (current st2) = tag (current st)) as Ht2.
  { unfold st2. destruct (pending_at_end span end_ st1); simpl;
      by rewrite push_text_before_tag. }
  assert (current st2 = current (push_text_before span i m st)) as Hc2.
  { unfold st2. by destruct (pending_at_end span end_ st1). }
  assert (pending_at_end span end_ st2 = false) as Hp2.
  { unfold st2. destruct (pending_at_end span end_ st1) eqn:Hp; [|done].
    unfold pending_at_end. done. }
  rewrite bool_decide_eq_false_2 by (by rewrite Hs2, Hstack).
  assert (negb (bool_decide (Some slash = Some "//"))
          && negb (JS.strict_equal (tag (current st2))
                     (marker_tag span exp end_ m st)) = false) as ->.
  { destruct Hok as [-> | Heq].
    - by rewrite bool_decide_eq_true_2.
    - rewrite Ht2, Heq. by rewrite andb_false_r. }
  unfold pop. rewrite Hs2, Hstack. run_binds.
  unfold push_pending_child.
  assert (pending_at_end span end_
            (with_matcher CLOSING_TAG_RE
               (with_stack rest
                  (with_current (close_into parent (current st2)) st2))) = false)
    as -> by exact Hp2.
  eexists. split; [done|]. simpl. by rewrite Hc2.
Qed.
End closing_marker.

(** ** The iterations of a span are reached *)

Lemma iterate_reaches spans expressions s span k :
  spans !! s = Some span →
  ∀ i st i' st',
    Reaches spans expressions (AtIndex s i) st →
    iterate k span (expression_at expressions s) i st = Some (i', st') →
    Reaches spans expressions (AtIndex s i') st'.
Proof.
  intros Hs. induction k as [|k IH]; intros i st i' st' Hreach Hit;
    cbn [iterate] in Hit.
  - by simplify_eq.
  - destruct (bool_decide (i < String.length span)) eqn:Hi; [|done].
    apply bool_decide_eq_true_1 in Hi.
    destruct (iteration span (expression_at expressions s) i st) as [end_ c] eqn:Hbody.
    destruct c as [st1|]; [|done]. eapply IH; [|done].
    replace end_ with (iteration span (expression_at expressions s) i st).1
      by (by rewrite Hbody).
    eapply reaches_iteration; [done..|by rewrite Hbody].
Qed.

(** The first span, after [k] iterations. *)
Lemma iterate_reaches_first spans expressions span k i st st0 :
  spans !! 0 = Some span →
  enter_span (length spans) 0 span (expression_at expressions 0) initial
    = Normal st0 →
  iterate k span (expression_at expressions 0) 0 st0 = Some (i, st) →
  Reaches spans expressions (AtIndex 0 i) st.
Proof.
  intros Hs Henter Hit. eapply iterate_reaches; [done| |done].
  eapply reaches_enter; [done|constructor|done].
Qed.

(** ** A self-closed element *)

(** An identifier character is no white space, no slash and no exclamation
    mark. *)
Lemma is_ident_not_space c : is_ident c = true → is_space c = false.
Proof. by destruct c as [[] [] [] [] [] [] [] []]. Qed.

Lemma is_ident_not_slash c : is_ident c = true → Ascii.eqb c "/" = false.
Proof. by destruct c as [[] [] [] [] [] [] [] []]. Qed.

Lemma is_ident_not_bang c : is_ident c = true → Ascii.eqb "!" c = false.
Proof. by destruct c as [[] [] [] [] [] [] [] []]. Qed.

Lemma app_empty_l s : EmptyString +:+ s = s.
Proof. reflexivity. Qed.

Lemma search_here at_ rest idx m gs :
  at_ rest = Some (m, gs) → search at_ rest idx = Some (mkMatch idx m gs).
Proof. intros H. destruct rest; simpl; by rewrite H. Qed.

(** What CHILDREN_RE finds at the start of [<x...], for an identifier [x]
    that a character outside identifiers follows: the opening marker [<x]. *)
Lemma children_at_open x d rest :
  Str.nonempty x = true → Str.all is_ident x = true → is_ident d = false →
  children_at (String "<" (x +:+ String d rest)) =
    Some (String "<" x,
          [None; None; Some (String "<" x); Some EmptyString; Some x]).
Proof.
  intros Hne Hx Hd. destruct x as [|c x']; [done|].
  pose proof Hx as Hcx. simpl in Hcx. apply andb_prop in Hcx as [Hc Hx'].
  unfold children_at. change (is_eol "<") with false. cbv iota.
  rewrite string_app_cons. cbn [Str.starts_with].
  change (Ascii.eqb "<" "<") with true. rewrite (is_ident_not_bang c Hc).
  cbn [andb]. cbn [Str.span].
  rewrite (is_ident_not_space c Hc). cbn [slashes].
  rewrite (is_ident_not_slash c Hc). cbn [Str.span].
  rewrite (is_ident_not_space c Hc).
  rewrite <-string_app_cons.
  rewrite (string_span_all_stop is_ident (String c x') d rest Hx Hd).
  by rewrite !app_empty_l, !string_app_cons, !app_empty_l.
Qed.

Lemma exec_children_open x d rest :
  Str.nonempty x = true → Str.all is_ident x = true → is_ident d = false →
  exec CHILDREN_RE ("<" +:+ x +:+ String d rest) 0 =
    Some (mkMatch 0 (String "<" x)
            [None; None; Some (String "<" x); Some EmptyString; Some x]).
Proof.
  intros Hne Hx Hd. unfold exec, exec_with. rewrite decide_True by lia.
  rewrite !string_app_cons, !app_empty_l. cbn [Str.drop attempt].
  apply search_here. by apply children_at_open.
Qed.

(** What PROPS_RE finds in [<x/>] after the marker: the end of the tag. *)
Lemma exec_props_self_close x :
  exec PROPS_RE ("<" +:+ x +:+ "/>") (S (String.length x)) =
    Some (mkMatch (S (String.length x)) "/>" [Some "/>"; None; None; None; None]).
Proof.
  unfold exec, exec_with. rewrite !string_app_cons, !app_empty_l.
  rewrite decide_True by (simpl; rewrite string_length_app; simpl; lia).
  cbn [Str.drop]. rewrite string_drop_app_length. by apply search_here.
Qed.

Lemma self_closed_length x :
  String.length ("<" +:+ x +:+ "/>") = S (String.length x + 2).
Proof. rewrite !string_app_cons, !app_empty_l. simpl. by rewrite string_length_app. Qed.

(** The iteration that reads [<x]: the element [x] is opened. *)
Lemma iteration_open x d rest exp st :
  Str.nonempty x = true → Str.all is_ident x = true → is_ident d = false →
  matcher st = CHILDREN_RE → expressing st = false →
  iteration ("<" +:+ x +:+ String d rest) exp 0 st =
    (S (String.length x),
     Normal (with_matcher PROPS_RE (open_element (VStr x) (with_lineStart false st)))).
Proof.
  intros Hne Hx Hd Hre Hex. unfold iteration. rewrite Hre.
  rewrite (exec_children_open x d rest Hne Hx Hd).
  set (m := mkMatch _ _ _). set (span := "<" +:+ x +:+ String d rest).
  f_equal. unfold switch_matcher. rewrite Hre. unfold children_case.
  unfold push_text_before. cbn [index m end_of match_end matched String.length Nat.add]. rewrite bool_decide_eq_false_2 by lia.
  change (truthy (group 1 m)) with false. change (truthy (group 2 m)) with false.
  change (truthy (group 3 m)) with true. cbv iota.
  unfold tag_case, marker_tag, pending_at_end. cbn [expressing with_lineStart].
  rewrite Hex. cbn [andb]. change (truthy (group 4 m)) with false.
  change (group 5 m) with (Some x). run_binds.
  unfold push_pending_child, pending_at_end. cbn. by rewrite Hex.
Qed.

(** The iteration that reads the [/>] of [<x/>]: the element is closed into
    its parent and the scanner is back in Children mode. *)
Lemma iteration_self_close x exp st parent rest :
  matcher st = PROPS_RE → expressing st = false → stack st = parent :: rest →
  iteration ("<" +:+ x +:+ "/>") exp (S (String.length x)) st =
    (S (String.length x + 2),
     Normal (with_matcher CHILDREN_RE
               (with_stack rest (with_current (close_into parent (current st)) st)))).
Proof.
  intros Hre Hex Hstack. unfold iteration. rewrite Hre, exec_props_self_close.
  set (m := mkMatch _ _ _). set (span := "<" +:+ x +:+ "/>").
  assert (end_of span (Some m) = S (String.length x + 2)) as ->
    by (unfold end_of, match_end; simpl; lia).
  f_equal. unfold switch_matcher. rewrite Hre. unfold props_case.
  cbn [index m]. rewrite bool_decide_eq_false_2 by lia.
  change (truthy (group 1 m)) with true. cbv iota.
  unfold tag_end_case. change (group 1 m) with (Some "/>").
  cbn [default String.get]. rewrite bool_decide_eq_true_2 by done.
  unfold pop. rewrite Hstack. run_binds.
  unfold pending_at_end. cbn. by rewrite Hex.
Qed.

Lemma parse_self_closed x :
  Str.nonempty x = true → Str.all is_ident x = true →
  parse ["<" +:+ x +:+ "/>"] [] =
    Normal (mkElement (VStr EmptyString) None [Element (VStr x) None []]).
Proof.
  intros Hne Hx.
  pose proof (self_closed_length x) as Hlen.
  pose proof (iteration_open x "/" ">" VUndefined initial Hne Hx
                eq_refl eq_refl eq_refl) as Hopen.
  pose proof (λ st, iteration_self_close x VUndefined st (current initial) [])
    as Hclose.
  set (span := "<" +:+ x +:+ "/>") in *.
  unfold parse. cbn [spans_loop length]. unfold process_span.
  change (enter_span 1 0 span (expression_at [] 0) initial) with (Normal initial).
  change (expression_at [] 0) with VUndefined. run_binds.
  rewrite span_loop_unfold by lia. rewrite Hopen. cbn [fst snd]. run_binds.
  rewrite span_loop_unfold by lia.
  rewrite Hclose by done. cbn [fst snd]. run_binds.
  rewrite span_loop_done by lia.
  reflexivity.
Qed.

(** The iteration that reads the end of a tag with a slash, wherever it is
    met in the props. *)
Lemma self_closing_step span exp i m st tagEnd parent rest :
  matcher st = PROPS_RE →
  exec PROPS_RE span i = Some m →
  index m = i →
  group 1 m = Some tagEnd →
  String.get 0 tagEnd = Some "/"%char →
  stack st = parent :: rest →
  (iteration span exp i st).2 =
    Normal
      (let st1 :=
         with_matcher CHILDREN_RE
           (with_stack rest (with_current (close_into parent (current st)) st)) in
       if pending_at_end span (match_end m) st
       then with_expressing false (push_value exp st1)
       else st1).
Proof.
  intros Hre Hexec Hindex Htag Hslash Hstack.
  unfold iteration; cbn [snd]. rewrite Hre, Hexec. unfold switch_matcher.
  rewrite Hre. unfold props_case, end_of.
  rewrite bool_decide_eq_false_2 by lia. rewrite Htag.
  destruct tagEnd as [|c tagEnd']; [done|]. change (truthy (Some _)) with true.
  cbv iota. unfold tag_end_case. cbn [default].
  rewrite bool_decide_eq_true_2 by done. unfold pop. rewrite Hstack. by run_binds.
Qed.

(** ** Spreads *)

(** The iteration that reads a spread marker, when the marker is the next
    thing in the props. *)
Lemma spread_step span exp i m st spread :
  matcher st = PROPS_RE →
  exec PROPS_RE span i = Some m →
  index m = i →
  group 2 m = Some spread →
  (iteration span exp i st).2 = spread_case span exp (match_end m) st.
Proof.
  intros Hre Hexec Hindex Hspread.
  unfold iteration; cbn [snd]. rewrite Hre, Hexec. unfold switch_matcher.
  rewrite Hre. unfold props_case, end_of.
  rewrite bool_decide_eq_false_2 by lia.
  destruct (exec_props_groups _ _ _ Hexec)
    as [(te & Hg & _)|[(sp & Hg & Hsp)|(name & equals & str & Hg & _)]];
    unfold group in Hspread |- *; rewrite Hg in Hspread |- *; simplify_eq/=.
  by rewrite Hsp.
Qed.

(** ** The root is the synthetic wrapper *)

Lemma root_push_value v st : root_invariant st → root_invariant (push_value v st).
Proof.
  unfold root_invariant, root_of; simpl. by destruct (last (stack st)).
Qed.

Lemma root_assign_props more st :
  stack st ≠ [] → root_invariant st → root_invariant (assign_props more st).
Proof.
  unfold root_invariant, root_of; simpl. intros Hstack.
  destruct (last (stack st)) eqn:Hlast; [done|].
  by apply last_None in Hlast.
Qed.

Lemma root_pop st st' : pop st = Normal st' → root_invariant st → root_invariant st'.
Proof.
  unfold pop, root_invariant, root_of.
  destruct (stack st) as [|parent rest] eqn:Hstack; [done|].
  intros [= <-]; simpl. destruct rest as [|e rest]; simpl; [done|].
  destruct (last (e :: rest)) eqn:Hlast; [done|by apply last_None in Hlast].
Qed.

Lemma root_open t st : root_invariant st → root_invariant (open_element t st).
Proof.
  unfold root_invariant, root_of; simpl.
  destruct (stack st) as [|e rest]; simpl; [done|].
  destruct (last (e :: rest)) eqn:Hlast; [done|by apply last_None in Hlast].
Qed.

Lemma root_append_unless_nullish exp st st' :
  append_unless_nullish exp st = Normal st' →
  root_invariant st → root_invariant st'.
Proof. by intros [value ->]%append_unless_nullish_normal. Qed.

Lemma root_append_unless_boolean_or_nullish exp st st' :
  append_unless_boolean_or_nullish exp st = Normal st' →
  root_invariant st → root_invariant st'.
Proof. by intros [value ->]%append_unless_boolean_or_nullish_normal. Qed.

Lemma root_push_text_before span i m st :
  root_invariant st → root_invariant (push_text_before span i m st).
Proof.
  intros H. destruct (push_text_before_cases span i m st) as [-> | ->];
    [done|by apply root_push_value].
Qed.

Lemma root_push_text_after span i st :
  root_invariant st → root_invariant (push_text_after span i st).
Proof.
  intros H. unfold push_text_after. repeat case_match; try done;
    by apply root_push_value.
Qed.

Lemma root_push_pending_child span exp end_ st :
  root_invariant st → root_invariant (push_pending_child span exp end_ st).
Proof.
  intros H. unfold push_pending_child. case_match; [|done].
  by apply (root_push_value exp st).
Qed.

Lemma root_enter_span n s span exp st st' :
  enter_span n s span exp st = Normal st' →
  root_invariant st → root_invariant st'.
Proof.
  unfold enter_span, consecutive_expressions. intros Henter H.
  destruct (_ && _); [|by injection Henter as <-].
  destruct (matcher _); try (by injection Henter as <-).
  - injection Henter as <-.
    by apply (root_push_value exp (with_expressing _ st)).
  - destruct (append_unless_boolean_or_nullish _ _) as [st1|] eqn:Happend;
      [|done].
    normal_in Henter.
    by apply (root_append_unless_boolean_or_nullish _ _ _ Happend).
  - destruct (append_unless_boolean_or_nullish _ _) as [st1|] eqn:Happend;
      [|done].
    normal_in Henter.
    by apply (root_append_unless_boolean_or_nullish _ _ _ Happend).
Qed.

Lemma root_switch_matcher span exp i match_ end_ st st' :
  stack_invariant st → root_invariant st →
  switch_matcher span exp i match_ end_ st = Normal st' →
  root_invariant st'.
Proof.
  intros Hinv Hroot. unfold switch_matcher. destruct (matcher st) eqn:Hre.
  - unfold children_case. destruct match_ as [m|].
    + pose proof (root_push_text_before span i m st Hroot) as H1.
      set (st1 := with_lineStart _ _).
      assert (root_invariant st1) as Hroot1 by exact H1. clearbody st1.
      destruct (truthy (group 2 m)).
      { intros Hcase. normal_in Hcase. apply root_push_pending_child.
        unfold comment_case. by repeat case_match. }
      destruct (truthy (group 3 m)).
      * unfold tag_case.
        set (st2 := if pending_at_end span end_ st1 then _ else _).
        assert (root_invariant st2) as Hroot2
          by (unfold st2; by destruct (pending_at_end span end_ st1)).
        clearbody st2. destruct (truthy (group 4 m)).
        { destruct (bool_decide (stack st2 = [])); [done|].
          destruct (_ && _); [done|].
          destruct (pop st2) as [st3|] eqn:Hpop; [|done].
          intros Hcase. normal_in Hcase. apply root_push_pending_child.
          by apply (root_pop st2 st3). }
        intros Hcase. normal_in Hcase. apply root_push_pending_child.
        by apply (root_open _ st2).
      * intros Hcase. normal_in Hcase. by apply root_push_pending_child.
    + intros Hcase. normal_in Hcase. apply root_push_pending_child.
      by apply root_push_text_after.
  - unfold stack_invariant in Hinv. rewrite Hre in Hinv. specialize (Hinv eq_refl).
    unfold props_case.
    destruct match_ as [m|];
      [|destruct (negb _); [done|by intros Hcase; normal_in Hcase]].
    destruct (bool_decide (i < index m)); [done|].
    destruct (truthy (group 1 m)).
    { unfold tag_end_case.
      destruct (if bool_decide _ then pop st else mret st) as [st1|] eqn:Hpop;
        [|done].
      assert (root_invariant st1) as Hroot1.
      { destruct (bool_decide _); [by eapply root_pop|].
        run_binds_in Hpop. by injection Hpop as <-. }
      clear Hpop. intros Hcase. normal_in Hcase.
      destruct (pending_at_end _ _ _); [|exact Hroot1].
      by apply (root_push_value exp (with_matcher CHILDREN_RE st1)). }
    destruct (truthy (group 2 m)).
    { unfold spread_case. destruct (negb _); [done|].
      intros Hcase. normal_in Hcase. by apply (root_assign_props _ st). }
    destruct (truthy (group 3 m)); [|by intros Hcase; normal_in Hcase].
    unfold prop_case. destruct (group 5 m) as [str|].
    + destruct (pending_at_end span end_ st).
      * destruct (append_unless_boolean_or_nullish _ _) as [st1|] eqn:Happend;
          [|done].
        intros Hcase. normal_in Hcase.
        by apply (root_append_unless_boolean_or_nullish _ _ _ Happend).
      * intros Hcase. normal_in Hcase. by apply (root_assign_props _ st).
    + destruct (negb (truthy (group 4 m))).
      { intros Hcase. normal_in Hcase. by apply (root_assign_props _ st). }
      destruct (bool_decide _); [done|]. destruct (negb (expressing st)); [done|].
      intros Hcase. normal_in Hcase.
      by apply (root_assign_props _ (with_expressing false st)).
  - unfold closing_tag_case. repeat case_match; try done;
      by intros Hcase; normal_in Hcase.
  - unfold stack_invariant in Hinv. rewrite Hre in Hinv. specialize (Hinv eq_refl).
    unfold closing_quote_case. intros Hcase.
    set (st1 := match match_ with Some _ => _ | None => _ end) in Hcase.
    assert (root_invariant st1 ∧ stack st1 = stack st) as [Hroot1 Hs1]
      by (unfold st1; by destruct match_).
    clearbody st1. destruct (pending_at_end span end_ st1).
    + destruct (append_unless_nullish exp st1) as [st2|] eqn:Happend; [|done].
      normal_in Hcase. apply (root_assign_props _ (with_expressing false st2)).
      * simpl. apply append_unless_nullish_frame in Happend as [_ ->].
        by rewrite Hs1.
      * by apply (root_append_unless_nullish _ _ _ Happend).
    + normal_in Hcase. apply root_assign_props; [by rewrite Hs1|done].
  - unfold stack_invariant in Hinv. rewrite Hre in Hinv. specialize (Hinv eq_refl).
    unfold closing_quote_case. intros Hcase.
    set (st1 := match match_ with Some _ => _ | None => _ end) in Hcase.
    assert (root_invariant st1 ∧ stack st1 = stack st) as [Hroot1 Hs1]
      by (unfold st1; by destruct match_).
    clearbody st1. destruct (pending_at_end span end_ st1).
    + destruct (append_unless_nullish exp st1) as [st2|] eqn:Happend; [|done].
      normal_in Hcase. apply (root_assign_props _ (with_expressing false st2)).
      * simpl. apply append_unless_nullish_frame in Happend as [_ ->].
        by rewrite Hs1.
      * by apply (root_append_unless_nullish _ _ _ Happend).
    + normal_in Hcase. apply root_assign_props; [by rewrite Hs1|done].
  - unfold closing_comment_case. repeat case_match; try done;
      by intros Hcase; normal_in Hcase.
Qed.

Lemma reaches_root spans expressions pt st :
  Reaches spans expressions pt st → root_invariant st.
Proof.
  induction 1 as [|s span st st' Hs Hreach IH Henter
                  |s span i st st' Hs Hreach IH Hi Hit
                  |s span i st Hs _ IH Hi Hex]; [done| | |done].
  - by eapply root_enter_span.
  - eapply (root_switch_matcher _ _ _ _ _ st); [|done|exact Hit].
    by eapply reaches_invariant.
Qed.

(** When [parse] returns, the outer loop has come to its end with the stack
    empty. *)
Lemma reaches_bound spans expressions pt st :
  Reaches spans expressions pt st →
  match pt with
  | AtSpan s => s ≤ length spans
  | AtIndex s _ => s < length spans
  end.
Proof. induction 1; simpl in *; try lia; by eapply lookup_lt_Some. Qed.

Lemma resume_index_normal spans expressions root s span :
  spans !! s = Some span →
  (∀ st, Reaches spans expressions (AtSpan (S s)) st →
         resume_spans spans expressions (S s) st = Normal root →
         ∃ st', Reaches spans expressions (AtSpan (length spans)) st'
                ∧ finish st' = Normal root) →
  ∀ k i st,
    String.length span - i ≤ k →
    Reaches spans expressions (AtIndex s i) st →
    resume spans expressions (AtIndex s i) st = Normal root →
    ∃ st', Reaches spans expressions (AtSpan (length spans)) st'
           ∧ finish st' = Normal root.
Proof.
  intros Hs Hnext. induction k as [|k IH]; intros i st Hk Hreach Hres.
  - rewrite (resume_leave _ _ _ _ _ _ Hs) in Hres by lia.
    destruct (expressing st) eqn:Hex; [by destruct (JS.stringify_throws _)|].
    eapply Hnext; [|done]. eapply reaches_leave; eauto; lia.
  - destruct (decide (i < String.length span)) as [Hi|Hi].
    + rewrite (resume_iteration _ _ _ _ _ _ Hs Hi) in Hres.
      pose proof (iteration_progress span (expression_at expressions s) i st Hi)
        as Hend.
      destruct ((iteration span (expression_at expressions s) i st).2)
        as [st'|] eqn:Hit; [|done].
      eapply (IH (iteration span (expression_at expressions s) i st).1 st');
        [lia| |exact Hres].
      by eapply reaches_iteration.
    + rewrite (resume_leave _ _ _ _ _ _ Hs) in Hres by lia.
      destruct (expressing st) eqn:Hex; [by destruct (JS.stringify_throws _)|].
      eapply Hnext; [|done]. eapply reaches_leave; eauto; lia.
Qed.

Lemma resume_spans_normal spans expressions root k :
  ∀ s st,
    length spans - s ≤ k →
    Reaches spans expressions (AtSpan s) st →
    resume_spans spans expressions s st = Normal root →
    ∃ st', Reaches spans expressions (AtSpan (length spans)) st'
           ∧ finish st' = Normal root.
Proof.
  induction k as [|k IH]; intros s st Hk Hreach Hres.
  - pose proof (reaches_bound _ _ _ _ Hreach) as Hle. simpl in Hle.
    replace s with (length spans) in * by lia.
    exists st. split; [done|]. unfold resume_spans in Hres.
    by rewrite drop_ge in Hres by lia.
  - destruct (spans !! s) as [span|] eqn:Hs.
    + rewrite (resume_spans_unfold _ _ _ _ _ Hs) in Hres.
      destruct (enter_span _ _ _ _ st) as [st0|] eqn:Henter; [|done].
      run_binds_in Hres.
      eapply (resume_index_normal spans expressions root s span Hs);
        [| |by eapply reaches_enter|exact Hres].
      * intros st' Hreach' Hres'. eapply IH; [|done..].
        apply lookup_lt_Some in Hs. lia.
      * done.
    + apply lookup_ge_None in Hs. eapply (IH s); [lia|done..].
Qed.

Lemma parse_normal_origin spans expressions root :
  parse spans expressions = Normal root →
  ∃ st, Reaches spans expressions (AtSpan (length spans)) st
        ∧ stack st = [] ∧ current st = root.
Proof.
  intros Hp.
  rewrite (reaches_resume _ _ (AtSpan 0) initial (reaches_first _ _)) in Hp.
  destruct (resume_spans_normal spans expressions root (length spans) 0 initial)
    as (st & Hreach & Hfin); [lia|constructor|done|].
  exists st. split; [done|]. unfold finish in Hfin.
  case_bool_decide as Hstack; [done|]. injection Hfin as <-.
  split; [|done]. destruct (stack st) as [|e l]; [done|]. by destruct Hstack.
Qed.

(** What [parse] returns is the wrapper, with the children it was given. *)
Lemma parse_returns_wrapper spans expressions root :
  parse spans expressions = Normal root → is_wrapper root.
Proof.
  intros (st & Hreach & Hstack & <-)%parse_normal_origin.
  pose proof (reaches_root _ _ _ _ Hreach) as Hroot.
  unfold root_invariant, root_of in Hroot. by rewrite Hstack in Hroot.
Qed.

(** ** Comments *)

(** The only place that throws [MissingCommentTerminator] is the closing
    comment case, when there is no match and no expression is pending. *)
Lemma switch_matcher_missing_terminator span exp i match_ end_ st :
  switch_matcher span exp i match_ end_ st = Throw MissingCommentTerminator ↔
  matcher st = CLOSING_COMMENT_RE ∧ match_ = None ∧ expressing st = false.
Proof.
  split.
  - unfold switch_matcher. destruct (matcher st).
    + unfold children_case. destruct match_ as [m|]; [|done].
      set (st1 := with_lineStart _ _). clearbody st1.
      destruct (truthy (group 2 m)); [done|].
      destruct (truthy (group 3 m)); [|done].
      unfold tag_case. set (st2 := if pending_at_end span end_ st1 then _ else _).
      clearbody st2. destruct (truthy (group 4 m)); [|done].
      case_bool_decide as Hst; [done|]. destruct (_ && _); [done|].
      unfold pop. by destruct (stack st2).
    + unfold props_case. destruct match_ as [m|]; [|by destruct (negb _)].
      destruct (bool_decide _); [done|].
      destruct (truthy (group 1 m)).
      { unfold tag_end_case, pop. destruct (bool_decide _); [|done].
        by destruct (stack st). }
      destruct (truthy (group 2 m)); [unfold spread_case; by destruct (negb _)|].
      destruct (truthy (group 3 m)); [|done].
      by intros [|]%prop_case_throws.
    + unfold closing_tag_case. repeat case_match; done.
    + by intros ?%closing_quote_case_abort.
    + by intros ?%closing_quote_case_abort.
    + unfold closing_comment_case. destruct match_; [done|].
      by destruct (expressing st).
  - intros (Hre & -> & Hex). unfold switch_matcher, closing_comment_case.
    by rewrite Hre, Hex.
Qed.

(** The iteration that reads a comment opener never throws.  When the
    comment runs to the end of the span (closed there or not), the scanner
    turns to ClosingComment mode and the pending expression, if any, is
    consumed; otherwise the scanner stays in Children mode. *)
Lemma comment_step span exp i m st comment :
  matcher st = CHILDREN_RE →
  exec CHILDREN_RE span i = Some m →
  group 2 m = Some comment →
  ∃ st',
    (iteration span exp i st).2 = Normal st'
    ∧ stack st' = stack st
    ∧ (match_end m = String.length span →
       matcher st' = CLOSING_COMMENT_RE ∧ expressing st' = false)
    ∧ (match_end m ≠ String.length span → matcher st' = CHILDREN_RE).
Proof.
  intros Hre Hexec Hcomment.
  unfold iteration; cbn [snd]. rewrite Hre, Hexec. unfold switch_matcher.
  rewrite Hre. unfold children_case, end_of.
  destruct (exec_children_groups _ _ _ Hexec) as [Hg|[Hg|(sl & name & Hg)]];
    unfold group in Hcomment; rewrite Hg in Hcomment; simplify_eq/=.
  assert (group 1 m = None) as -> by (unfold group; by rewrite Hg).
  assert (group 2 m = Some (matched m)) as -> by (unfold group; by rewrite Hg).
  rewrite (truthy_matched _ _ _ _ Hexec). run_binds.
  set (st1 := with_lineStart _ _).
  assert (stack st1 = stack st ∧ matcher st1 = CHILDREN_RE) as [Hs1 Hm1].
  { destruct (push_text_before_frame span i m st) as [Hm Hs]. split; [done|].
    simpl. by rewrite Hm. }
  clearbody st1. eexists. split; [done|].
  unfold push_pending_child, comment_case, pending_at_end.
  destruct (decide (match_end m = String.length span)) as [Hend|Hend].
  - rewrite !bool_decide_eq_true_2 by done.
    destruct (expressing st1) eqn:Hex; simpl; rewrite ?Hex; simpl;
      repeat split; rewrite ?Hex; simpl; try done; intros Hne; by destruct Hne.
  - rewrite !bool_decide_eq_false_2 by done. rewrite !andb_false_r.
    by repeat split.
Qed.

(** What CHILDREN_RE finds at the start of a span that begins with a comment
    opener. *)
Lemma exec_children_comment text :
  exec CHILDREN_RE ("<!--" +:+ text) 0 =
    Some (mkMatch 0 ("<!--" +:+ comment_rest text)
            [None; Some ("<!--" +:+ comment_rest text); None; None; None]).
Proof.
  unfold exec, exec_with. rewrite decide_True by lia.
  by apply search_here.
Qed.

(** The iteration that reads a comment which runs to the end of its span,
    from the start of the span. *)
Lemma iteration_comment_to_end text exp st :
  matcher st = CHILDREN_RE →
  comment_rest text = text →
  iteration ("<!--" +:+ text) exp 0 st =
    (String.length ("<!--" +:+ text),
     Normal (let st1 := with_matcher CLOSING_COMMENT_RE (with_lineStart false st) in
             if expressing st then with_expressing false st1 else st1)).
Proof.
  intros Hre Htext. unfold iteration. rewrite Hre, exec_children_comment, Htext.
  set (span := "<!--" +:+ text). set (m := mkMatch _ _ _).
  assert (end_of span (Some m) = String.length span) as -> by done.
  f_equal. unfold switch_matcher. rewrite Hre. unfold children_case.
  unfold push_text_before. cbn [index m]. rewrite bool_decide_eq_false_2 by lia.
  change (truthy (group 1 m)) with false. change (truthy (group 2 m)) with true.
  cbv iota. run_binds. unfold push_pending_child, comment_case, pending_at_end.
  rewrite !bool_decide_eq_true_2 by done. cbn [expressing with_matcher with_lineStart].
  destruct (expressing st) eqn:Hex; simpl; by rewrite ?Hex.
Qed.

Lemma contains_cons p c s :
  contains p (String c s) = false →
  Str.starts_with p (String c s) = false ∧ contains p s = false.
Proof. cbn [contains]. by intros [? ?]%orb_false_elim. Qed.

(** A comment that is not closed runs to the end of the span. *)
Lemma comment_rest_open body :
  contains "-->" body = false → comment_rest body = body.
Proof.
  induction body as [|c body IH]; [done|].
  intros [Hhere Hno]%contains_cons. cbn [comment_rest].
  by rewrite Hhere, IH.
Qed.

Lemma search_no_terminator rest idx :
  contains "-->" rest = false → search closing_comment_at rest idx = None.
Proof.
  revert idx; induction rest as [|c r IH]; intros idx H.
  - done.
  - apply contains_cons in H as [Hhere H].
    cbn [search]. unfold closing_comment_at at 1. rewrite Hhere. by apply IH.
Qed.

Lemma exec_no_terminator span :
  contains "-->" span = false → exec CLOSING_COMMENT_RE span 0 = None.
Proof.
  intros H. unfold exec, exec_with. case_decide; [|done].
  by apply search_no_terminator.
Qed.

(** ** Trimming *)

Lemma span_snd_head p s c r : (Str.span p s).2 = String c r → p c = false.
Proof.
  induction s as [|d s IH]; simpl; [done|].
  destruct (p d) eqn:Hd.
  - destruct (Str.span p s) as [a b]; simpl in *. apply IH.
  - by intros [= <- _].
Qed.

Lemma span_snd_snoc p a c :
  p c = false → ∃ t, (Str.span p (a +:+ String c EmptyString)).2 = t +:+ String c EmptyString.
Proof.
  intros Hc. induction a as [|d a [t IH]].
  - exists EmptyString. simpl. by rewrite Hc.
  - rewrite string_app_cons. simpl. destruct (p d).
    + destruct (Str.span p (a +:+ String c EmptyString)) as [x y]; simpl in *.
      by exists t.
    + by exists (String d a).
Qed.

Lemma drop_trailing_empty p s : Str.drop_trailing p s = EmptyString → Str.all p s = true.
Proof.
  destruct s as [|c s]; [done|]. cbn [Str.drop_trailing].
  by destruct (Str.all p (String c s)).
Qed.

Lemma drop_trailing_head p c r :
  p c = false →
  Str.drop_trailing p (String c r) = String c (Str.drop_trailing p r).
Proof. intros Hc. simpl. by rewrite Hc. Qed.

(** What is left after the trailing [p] characters are removed does not end
    with a [p] character. *)
Lemma drop_trailing_last p s a c :
  Str.drop_trailing p s = a +:+ String c EmptyString → p c = false.
Proof.
  revert a. induction s as [|d s IH]; intros a.
  - by destruct a.
  - cbn [Str.drop_trailing]. destruct (Str.all p (String d s)) eqn:Hall.
    { by destruct a. }
    destruct a as [|e a].
    + intros [= <- Hrest]. apply drop_trailing_empty in Hrest.
      simpl in Hall. rewrite Hrest in Hall. by destruct (p d).
    + rewrite string_app_cons. intros [= _ Hrest]. by eapply IH.
Qed.

Lemma get_drop i k s : String.get (i + k) s = String.get k (Str.drop i s).
Proof.
  revert s. induction i as [|i IH]; intros s; [done|].
  destruct s as [|c s]; simpl; [by destruct k|apply IH].
Qed.

Lemma take_snoc k s c :
  String.get k s = Some c → Str.take (S k) s = Str.take k s +:+ String c EmptyString.
Proof.
  revert s. induction k as [|k IH]; intros s; destruct s as [|d s]; try done.
  - by intros [= ->].
  - intros Hget. cbn [Str.take]. rewrite string_app_cons. f_equal. by apply IH.
Qed.

Lemma take_app_length a b : Str.take (String.length a) (a +:+ b) = a.
Proof.
  induction a as [|c a IH]; [by destruct b|].
  rewrite string_app_cons. simpl. by rewrite IH.
Qed.

(** A slice that ends after the character [c]. *)
Lemma slice_snoc s i j c :
  i < j → String.get (j - 1) s = Some c →
  Str.slice s i j = Str.slice s i (j - 1) +:+ String c EmptyString.
Proof.
  intros Hij Hget. unfold Str.slice.
  replace (j - i) with (S (j - 1 - i)) by lia. apply take_snoc.
  rewrite <-get_drop. by replace (i + (j - 1 - i)) with (j - 1) by lia.
Qed.

Lemma slice_to_last_snoc t c :
  Str.slice_to_last (t +:+ String c EmptyString) 0 = t.
Proof.
  unfold Str.slice_to_last, Str.slice. rewrite string_length_app. simpl.
  replace (String.length t + 1 - 1 - 0) with (String.length t) by lia.
  apply take_app_length.
Qed.

Lemma take_head n s c r : Str.take n s = String c r → ∃ r', s = String c r'.
Proof. destruct n, s; try done. intros [= <- _]. by eexists. Qed.

(** ** The iteration that reads a newline *)

Lemma newline_step span exp i m st newline :
  matcher st = CHILDREN_RE →
  exec CHILDREN_RE span i = Some m →
  group 1 m = Some newline →
  (iteration span exp i st).2 =
    Normal (push_pending_child span exp (match_end m)
              (with_lineStart true (push_text_before span i m st))).
Proof.
  intros Hre Hexec Hnewline.
  unfold iteration; cbn [snd]. rewrite Hre, Hexec. unfold switch_matcher.
  rewrite Hre. unfold children_case, end_of.
  destruct (exec_children_groups _ _ _ Hexec) as [Hg|[Hg|(sl & name & Hg)]];
    unfold group in Hnewline; rewrite Hg in Hnewline; simplify_eq/=.
  assert (group 1 m = Some (matched m)) as -> by (unfold group; by rewrite Hg).
  assert (group 2 m = None) as -> by (unfold group; by rewrite Hg).
  assert (group 3 m = None) as -> by (unfold group; by rewrite Hg).
  by rewrite (truthy_matched _ _ _ _ Hexec).
Qed.

(** ** The text before a marker *)

Section text_before.
Context (span : string) (i : nat) (m : RegExpMatch) (st : Locals).
Hypothesis Hi : i < index m.

Local Abbreviation raw := (Str.slice span i (index m)).
Local Abbreviation lead := (if lineStart st then trim_leading raw else raw).
Local Abbreviation run := (text_before span i m st).

Lemma push_text_before_run :
  push_text_before span i m st =
    if Str.nonempty run then push_value (VStr run) st else st.
Proof using Hi. unfold push_text_before. by rewrite bool_decide_eq_true_2. Qed.

Lemma run_without_newline : truthy (group 1 m) = false → run = lead.
Proof. intros H. unfold text_before. by rewrite H. Qed.

Lemma run_before_newline :
  truthy (group 1 m) = true →
  String.get (index m - 1) span ≠ Some BACKSLASH →
  run = trim_trailing lead.
Proof.
  intros H Hget. unfold text_before. rewrite H, Nat.max_0_l.
  by rewrite bool_decide_eq_false_2.
Qed.

Lemma run_before_escaped_newline :
  truthy (group 1 m) = true →
  String.get (index m - 1) span = Some BACKSLASH →
  lead = run +:+ String BACKSLASH EmptyString.
Proof using Hi.
  intros H Hget. unfold text_before. rewrite H, Nat.max_0_l.
  rewrite bool_decide_eq_true_2 by done.
  rewrite (slice_snoc span i (index m) BACKSLASH Hi Hget).
  destruct (lineStart st).
  - unfold trim_leading.
    destruct (span_snd_snoc is_space (Str.slice span i (index m - 1)) BACKSLASH
                eq_refl) as [t ->].
    by rewrite slice_to_last_snoc.
  - by rewrite slice_to_last_snoc.
Qed.

Lemma lead_head c r : lineStart st = true → lead = String c r → is_space c = false.
Proof. intros ->. apply span_snd_head. Qed.

Lemma run_head c r :
  lineStart st = true → run = String c r → is_space c = false.
Proof.
  intros Hline. unfold text_before. destruct (truthy (group 1 m)).
  - case_bool_decide.
    + unfold Str.slice_to_last, Str.slice. cbn [Str.drop].
      intros [r' Hlead]%take_head. by eapply lead_head.
    + unfold trim_trailing. destruct lead as [|d lead'] eqn:Hlead; [done|].
      pose proof (lead_head d lead' Hline Hlead) as Hd.
      rewrite (drop_trailing_head _ _ _ Hd). by intros [= <- _].
  - by apply lead_head.
Qed.

(** The current element once the run is emitted. *)
Lemma push_text_before_current :
  current (push_text_before span i m st) =
    mkElement (tag (current st)) (props (current st))
      (children (current st)
         ++ (if Str.nonempty run then [Value (VStr run)] else [])).
Proof using Hi.
  rewrite push_text_before_run. destruct (Str.nonempty run); [done|].
  destruct (current st); simpl. by rewrite app_nil_r.
Qed.
End text_before.

(** ** The iterations that read a comment and an opening tag *)

(** A comment leaves the current element as the text before it made it. *)
Lemma comment_marker_step span exp i m st comment :
  matcher st = CHILDREN_RE →
  exec CHILDREN_RE span i = Some m →
  group 2 m = Some comment →
  ∃ st',
    (iteration span exp i st).2 = Normal st'
    ∧ current st' = current (push_text_before span i m st)
    ∧ stack st' = stack st.
Proof.
  intros Hre Hexec Hcomment.
  unfold iteration; cbn [snd]. rewrite Hre, Hexec. unfold switch_matcher.
  rewrite Hre. unfold children_case, end_of.
  destruct (exec_children_groups _ _ _ Hexec) as [Hg|[Hg|(sl & name & Hg)]];
    unfold group in Hcomment; rewrite Hg in Hcomment; simplify_eq/=.
  assert (group 1 m = None) as -> by (unfold group; by rewrite Hg).
  assert (group 2 m = Some (matched m)) as -> by (unfold group; by rewrite Hg).
  rewrite (truthy_matched _ _ _ _ Hexec). run_binds.
  eexists. split; [done|].
  unfold push_pending_child, comment_case, pending_at_end.
  cbn [expressing with_lineStart with_matcher].
  rewrite push_text_before_expressing.
  destruct (bool_decide (match_end m = String.length span)) eqn:Hend;
    destruct (expressing st) eqn:Hex; simpl;
    rewrite ?push_text_before_expressing, ?Hex, ?andb_false_r; simpl;
    by rewrite ?push_text_before_stack.
Qed.

(** A tag marker without a slash opens an element, with no children yet,
    above the current element as the text before the marker made it. *)
Lemma opening_marker_step span exp i m st :
  matcher st = CHILDREN_RE →
  exec CHILDREN_RE span i = Some m →
  group 4 m = Some EmptyString →
  ∃ st',
    (iteration span exp i st).2 = Normal st'
    ∧ stack st' = current (push_text_before span i m st) :: stack st
    ∧ tag (current st') = marker_tag span exp (match_end m) m st
    ∧ props (current st') = None
    ∧ children (current st') = []
    ∧ matcher st' = PROPS_RE.
Proof.
  intros Hre Hexec Hslash.
  rewrite (tag_marker_step span exp i m st EmptyString Hre Hexec Hslash).
  unfold tag_case. rewrite Hslash. unfold truthy at 1. cbn [default Str.nonempty].
  cbv iota. run_binds. eexists. split; [done|].
  rewrite marker_tag_before.
  unfold push_pending_child, pending_at_end.
  cbn [expressing with_lineStart with_matcher open_element with_current with_stack].
  rewrite push_text_before_expressing.
  destruct (expressing st && bool_decide (match_end m = String.length span))
    eqn:Hpending; simpl; rewrite ?push_text_before_expressing, ?Hpending; simpl;
    by rewrite ?push_text_before_stack.
Qed.

(** ** What does hold of props without a string, of quoted values and of
    the tail of a closing tag *)

(** A prop that is the next thing in the props and has no string: without
    [=] its value is [true]; with [=] its value is the pending expression,
    and [parse] throws when text follows the [=] or no expression is
    pending. *)
Lemma prop_without_string span exp i m st name :
  matcher st = PROPS_RE →
  exec PROPS_RE span i = Some m →
  index m = i →
  group 3 m = Some name →
  group 5 m = None →
  (iteration span exp i st).2 =
    if negb (truthy (group 4 m))
    then Normal (assign_props {[ name := VBool true ]} st)
    else if bool_decide (match_end m < String.length span) then Throw UnexpectedText
    else if negb (expressing st) then Throw ExpressionExpected
    else Normal (assign_props {[ name := exp ]} (with_expressing false st)).
Proof.
  intros Hre Hexec Hindex Hname Hstring.
  unfold iteration; cbn [snd]. rewrite Hre, Hexec. unfold switch_matcher.
  rewrite Hre. unfold props_case, end_of.
  rewrite bool_decide_eq_false_2 by lia.
  destruct (exec_props_groups _ _ _ Hexec)
    as [(te & Hg & _)|[(sp & Hg & _)|(name' & equals & str & Hg & Hn)]];
    unfold group in Hname; rewrite Hg in Hname; simplify_eq/=.
  assert (group 1 m = None) as -> by (unfold group; by rewrite Hg).
  assert (group 2 m = None) as -> by (unfold group; by rewrite Hg).
  assert (group 3 m = Some name) as -> by (unfold group; by rewrite Hg).
  rewrite Hn. change (truthy None) with false. cbv iota.
  unfold prop_case. rewrite Hstring. cbn [default].
  by repeat case_match.
Qed.

(** The prop of the claim's second part: [a=] with the expression pending,
    and the two errors. *)
Lemma prop_with_expression_examples :
  parse ["<p a"; "/>"] [VNum 3] = Throw UnexpectedExpression
  ∧ parse ["<p a="; "/>"] [VNum 3] =
    Normal (mkElement (VStr EmptyString) None
              [Element (VStr "p") (Some {[ "a" := VNum 3 ]}) []])
  ∧ parse ["<p a="] [] = Throw ExpressionExpected
  ∧ parse ["<p a=b/>"] [] = Throw UnexpectedText.
Proof. by vm_compute. Qed.

Lemma app_empty_r s : s +:+ EmptyString = s.
Proof. induction s as [|c s IH]; [done|]. by rewrite string_app_cons, IH. Qed.

Lemma app_assoc_string a b c : (a +:+ b) +:+ c = a +:+ b +:+ c.
Proof. induction a as [|d a IH]; [done|]. by rewrite !string_app_cons, IH. Qed.

(** In a closing quote mode the text up to the match (or to the end of the
    span) is appended to [propValue], then the pending expression unless it
    is [null] or [undefined], and the prop is assigned what [formatString]
    makes of [propValue]; when [String] throws on the expression, so does
    the iteration. *)
Lemma closing_quote_step span exp i st :
  matcher st = CLOSING_SINGLE_QUOTE_RE ∨ matcher st = CLOSING_DOUBLE_QUOTE_RE →
  let match_ := exec (matcher st) span i in
  let end_ := end_of span match_ in
  let text :=
    match match_ with
    | Some _ => Str.slice span i end_
    | None => Str.slice_from span i
    end in
  let pending := expressing st && bool_decide (end_ = String.length span) in
  match (if pending && negb (JS.is_nullish exp)
         then JS.to_text exp else Some EmptyString) with
  | None => (iteration span exp i st).2 = Abort TypeError
  | Some appended =>
      let value := propValue st +:+ text +:+ appended in
      ∃ st',
        (iteration span exp i st).2 = Normal st'
        ∧ propValue st' = value
        ∧ props (current st') =
            JS.spread (props (current st))
              {[ propName st := VStr (formatString value) ]}
        ∧ matcher st' = match match_ with Some _ => PROPS_RE | None => matcher st end
        ∧ expressing st' = (expressing st && negb pending)
  end.
Proof.
  intros Hre.
  assert ((iteration span exp i st).2 =
          closing_quote_case span exp i (exec (matcher st) span i)
            (end_of span (exec (matcher st) span i)) st) as ->.
  { unfold iteration; cbn [snd]. unfold switch_matcher. by destruct Hre as [-> | ->]. }
  intros match_ end_ text pending.
  unfold closing_quote_case.
  unfold pending, text, pending_at_end, append_unless_nullish, append_text.
  fold match_. fold end_.
  destruct match_ as [m|]; cbn [expressing with_matcher with_propValue];
    destruct (expressing st) eqn:Hex; cbn [andb];
    destruct (bool_decide (end_ = String.length span)); cbn [andb negb];
    try destruct (JS.is_nullish exp); cbn [negb];
    try destruct (JS.to_text exp) as [appended|]; try done;
    run_binds; eexists; (split; [done|]);
    simpl; rewrite ?Hex, ?app_empty_r, ?app_assoc_string; done.
Qed.

(** [CLOSING_TAG_RE] matches where the scanner stands exactly when the
    character there is [>]. *)
Lemma exec_closing_tag_here span i :
  i < String.length span →
  String.get i span = Some ">"%char →
  exec CLOSING_TAG_RE span i = Some (mkMatch i ">" []).
Proof.
  intros Hi Hget. unfold exec, exec_with. rewrite decide_True by lia.
  apply search_here. cbn [attempt]. unfold closing_tag_at.
  replace i with (i + 0) in Hget by lia. rewrite get_drop in Hget.
  destruct (Str.drop i span) as [|c r]; [done|]. cbn [String.get] in Hget.
  by injection Hget as ->.
Qed.

Lemma exec_closing_tag_later span i m :
  String.get i span ≠ Some ">"%char →
  exec CLOSING_TAG_RE span i = Some m → i < index m.
Proof.
  intros Hget Hexec. destruct (exec_spec _ _ _ _ Hexec) as [Hle Hat].
  destruct (decide (index m = i)) as [Heq|]; [|lia]. exfalso. apply Hget.
  cbn [attempt] in Hat. unfold closing_tag_at in Hat. rewrite Heq in Hat.
  replace i with (i + 0) at 1 by lia. rewrite get_drop.
  destruct (Str.drop i span) as [|c r]; [done|].
  cbn [Str.starts_with String.get] in Hat |- *.
  destruct (Ascii.eqb_spec ">" c) as [<-|]; done.
Qed.

(** In the tail of a closing tag only [>] is accepted where the scanner
    stands: with it the scanner is back in Children mode; with any other
    character there, white space or not, [parse] throws ([JSON.stringify]
    throws first when it cannot print the expression left pending). *)
Lemma closing_tag_tail spans expressions s span i st :
  Runs spans expressions s span i st →
  matcher st = CLOSING_TAG_RE →
  (String.get i span = Some ">"%char →
   iteration span (expression_at expressions s) i st =
     (S i, Normal (with_matcher CHILDREN_RE st)))
  ∧ (String.get i span ≠ Some ">"%char →
     parse spans expressions = Throw UnexpectedText
     ∨ parse spans expressions = Throw UnexpectedExpression
     ∨ parse spans expressions = Abort TypeError).
Proof.
  intros (Hs & Hreach & Hi) Hre. split.
  - intros Hget. unfold iteration. rewrite Hre, (exec_closing_tag_here span i Hi Hget).
    f_equal; [unfold end_of, match_end; simpl; lia|].
    unfold switch_matcher. rewrite Hre. unfold closing_tag_case. simpl.
    by rewrite bool_decide_eq_false_2 by lia.
  - intros Hget.
    rewrite (reaches_resume _ _ _ _ Hreach), (resume_iteration _ _ _ _ _ _ Hs Hi).
    unfold iteration; cbn [fst snd]. rewrite Hre. unfold switch_matcher.
    rewrite Hre. unfold closing_tag_case.
    destruct (exec CLOSING_TAG_RE span i) as [m|] eqn:Hexec.
    + left. by rewrite bool_decide_eq_true_2
        by (by eapply exec_closing_tag_later).
    + destruct (expressing st) eqn:Hex; cbn [negb]; [|by left]. right.
      run_binds. rewrite (resume_leave _ _ _ _ _ _ Hs) by (unfold end_of; lia).
      rewrite Hex. destruct (JS.stringify_throws _); by eauto.
Qed.

(** * The claims *)

(** ** C1 *)




(** ** C2 *)

(** C2.  For every identifier [x], [parse] of the single span [<x/>] returns
    the root with one child, the element of tag [x], with props [null] and
    no children, and [template] returns [c(x, null)], that element alone.
    In general, in Props mode, when the end of the tag is the next thing in
    the props and begins with a slash, the iteration pops the stack (the
    current element becomes the last child of its parent, which is current
    again, followed by the pending expression if the span ends there) and
    the scanner is in Children mode. *)
Theorem self_closed_element :
  (∀ x,
     Str.nonempty x = true → Str.all is_ident x = true →
     parse ["<" +:+ x +:+ "/>"] [] =
       Normal (mkElement (VStr EmptyString) None [Element (VStr x) None []])
     ∧ template ["<" +:+ x +:+ "/>"] [] =
       Normal (Crank.c (VStr x) (Crank.Given None) []))
  ∧ (∀ spans expressions s span i st m tagEnd,
       Runs spans expressions s span i st →
       matcher st = PROPS_RE →
       exec PROPS_RE span i = Some m →
       index m = i →
       group 1 m = Some tagEnd →
       String.get 0 tagEnd = Some "/"%char →
       let exp := expression_at expressions s in
       ∃ parent rest st',
         stack st = parent :: rest
         ∧ (iteration span exp i st).2 = Normal st'
         ∧ stack st' = rest
         ∧ matcher st' = CHILDREN_RE
         ∧ tag (current st') = tag parent
         ∧ props (current st') = props parent
         ∧ children (current st') =
             children parent ++ as_child (current st)
               :: (if pending_at_end span (match_end m) st then [Value exp] else [])).
Proof.
  split.
  - intros x Hne Hx. pose proof (parse_self_closed x Hne Hx) as Hparse.
    split; [done|]. unfold template. by rewrite Hparse.
  - intros spans expressions s span i st m tagEnd Hruns Hre Hexec Hindex Htag
      Hslash exp.
    destruct Hruns as (Hs & Hreach & Hi).
    pose proof (reaches_invariant _ _ _ _ Hreach) as Hinv.
    unfold stack_invariant in Hinv. rewrite Hre in Hinv. specialize (Hinv eq_refl).
    destruct (stack st) as [|parent rest] eqn:Hstack; [done|].
    exists parent, rest. eexists. split; [done|]. split.
    { by eapply self_closing_step. }
    cbv zeta. destruct (pending_at_end span (match_end m) st); simpl;
      repeat split; by rewrite <-?app_assoc.
Qed.

(** The element [x], through the theorem. *)
Lemma self_closed_element_witness :
  parse ["<x/>"] [] =
    Normal (mkElement (VStr EmptyString) None [Element (VStr "x") None []])
  ∧ template ["<x/>"] [] = Normal (Crank.c (VStr "x") (Crank.Given None) []).
Proof. exact (proj1 self_closed_element "x" eq_refl eq_refl). Defined.

(** ** C3 *)

(** C3, as stated, fails: the white space after an escaped newline is not
    preserved.  In [<p>x\], a newline, [ y</p>] the space before [y] is
    dropped, as it is after a newline that is not escaped: it belongs to the
    newline match. *)
Lemma escaped_newline_drops_following_space :
  parse ["<p>x\" +:+ String LF " y</p>"] [] =
    Normal (mkElement (VStr EmptyString) None
              [Element (VStr "p") None [Value (VStr "x"); Value (VStr "y")]])
  ∧ parse ["<p>x" +:+ String LF " y</p>"] [] =
    Normal (mkElement (VStr EmptyString) None
              [Element (VStr "p") None [Value (VStr "x"); Value (VStr "y")]]).
Proof. by vm_compute. Qed.

(** C3, amended.  At every iteration that a run of [parse] reaches in
    Children mode and that finds a marker (a newline, a comment or a tag)
    after the position [i], the text between [i] and the marker is emitted
    as a text run, unless it is empty once trimmed.  With [lead] that text,
    without its leading white space when [lineStart] is set, the run is as
    follows:
    - when [lineStart] is set the run does not begin with white space;
    - before a marker that is not a newline the run is [lead];
    - before a newline that no backslash precedes, the run is [lead]
      without its trailing white space, and does not end with white space;
    - before a newline that a backslash precedes, the run is [lead] without
      that backslash: the white space before the backslash is preserved.
    And the run is the next child of the current element, before what the
    marker does ([after] is the current element with the run as one more
    child):
    - at a newline the current element is [after], with the pending
      expression as a further child when the newline ends the span, and
      [lineStart] is set unless that expression is pushed; the white space
      after the newline belongs to the newline match and is dropped;
    - at a comment the current element is [after];
    - at an opening tag, [after] is pushed on the stack, below the new
      element;
    - at a closing tag, unless [parse] throws [UnmatchedClosingTag] or
      [MismatchedClosingTag], [after] is closed into its parent.
    The input [<p>], newline, [  text], newline, [</p>] yields the single
    run [text], and [<p> \], newline, [ text</p>] yields the space before
    the backslash and then [text]. *)
Theorem text_run_before_marker :
  (∀ spans expressions s span i st m,
     Runs spans expressions s span i st →
     matcher st = CHILDREN_RE →
     exec CHILDREN_RE span i = Some m →
     i < index m →
     let exp := expression_at expressions s in
     let raw := Str.slice span i (index m) in
     let lead := if lineStart st then trim_leading raw else raw in
     let run := text_before span i m st in
     let after :=
       mkElement (tag (current st)) (props (current st))
         (children (current st)
            ++ (if Str.nonempty run then [Value (VStr run)] else [])) in
     let pending :=
       expressing st && bool_decide (match_end m = String.length span) in
     (lineStart st = true → ∀ c rest, run = String c rest → is_space c = false)
     ∧ (truthy (group 1 m) = false → run = lead)
     ∧ (truthy (group 1 m) = true →
        String.get (index m - 1) span ≠ Some BACKSLASH →
        run = trim_trailing lead
        ∧ ∀ a c, run = a +:+ String c EmptyString → is_space c = false)
     ∧ (truthy (group 1 m) = true →
        String.get (index m - 1) span = Some BACKSLASH →
        lead = run +:+ String BACKSLASH EmptyString)
     ∧ (∀ newline, group 1 m = Some newline →
        ∃ st',
          (iteration span exp i st).2 = Normal st'
          ∧ current st' =
              mkElement (tag after) (props after)
                (children after ++ (if pending then [Value exp] else []))
          ∧ stack st' = stack st
          ∧ lineStart st' = negb pending)
     ∧ (∀ comment, group 2 m = Some comment →
        ∃ st',
          (iteration span exp i st).2 = Normal st'
          ∧ current st' = after
          ∧ stack st' = stack st)
     ∧ (group 4 m = Some EmptyString →
        ∃ st',
          (iteration span exp i st).2 = Normal st'
          ∧ stack st' = after :: stack st
          ∧ children (current st') = [])
     ∧ (∀ slash, group 4 m = Some slash → Str.nonempty slash = true →
        (iteration span exp i st).2 = Throw UnmatchedClosingTag
        ∨ (iteration span exp i st).2 = Throw MismatchedClosingTag
        ∨ ∃ st' parent rest,
            (iteration span exp i st).2 = Normal st'
            ∧ stack st = parent :: rest
            ∧ current st' = close_into parent after
            ∧ stack st' = rest))
  ∧ parse ["<p>" +:+ String LF "  text" +:+ String LF "</p>"] [] =
    Normal (mkElement (VStr EmptyString) None
              [Element (VStr "p") None [Value (VStr "text")]])
  ∧ parse ["<p> \" +:+ String LF " text</p>"] [] =
    Normal (mkElement (VStr EmptyString) None
              [Element (VStr "p") None [Value (VStr " "); Value (VStr "text")]]).
Proof.
  split; [|by vm_compute].
  intros spans expressions s span i st m _ Hre Hexec Hi exp raw lead run after
    pending.
  pose proof (push_text_before_current span i m st Hi) as Hcurrent.
  fold run in Hcurrent. fold after in Hcurrent.
  split; [intros Hline c rest; by apply run_head|].
  split; [apply run_without_newline|].
  split.
  { intros Hnewline Hget. split; [by apply run_before_newline|].
    intros a c Hrun. unfold run in Hrun.
    rewrite (run_before_newline span i m st) in Hrun by done.
    by eapply drop_trailing_last. }
  split; [by apply run_before_escaped_newline|].
  split; [|split; [|split]].
  - intros newline Hnewline. eexists. split; [by eapply newline_step|].
    unfold push_pending_child, pending_at_end. cbn [expressing with_lineStart].
    rewrite push_text_before_expressing. fold pending.
    destruct pending; simpl; rewrite Hcurrent, ?push_text_before_stack;
      [done|]. by rewrite app_nil_r.
  - intros comment Hcomment.
    destruct (comment_marker_step span exp i m st comment Hre Hexec Hcomment)
      as (st' & Hit & Hc & Hs).
    exists st'. by rewrite Hc, Hcurrent.
  - intros Hslash.
    destruct (opening_marker_step span exp i m st Hre Hexec Hslash)
      as (st' & Hit & Hs & _ & _ & Hchildren & _).
    exists st'. by rewrite Hs, Hcurrent.
  - intros slash Hslash Hclosing.
    destruct (stack st) as [|parent rest] eqn:Hstack.
    { left. by eapply closing_marker_unmatched. }
    destruct (decide (slash = "//")) as [Hdouble|Hsingle].
    { right; right.
      destruct (closing_marker_closes span exp i m st slash Hre Hexec Hslash
                  Hclosing parent rest Hstack (or_introl Hdouble))
        as (st' & Hit & Hs & _ & Hc).
      exists st', parent, rest. by rewrite Hc, Hcurrent. }
    destruct (JS.strict_equal (tag (current st))
                (marker_tag span exp (match_end m) m st)) eqn:Hequal.
    + right; right.
      destruct (closing_marker_closes span exp i m st slash Hre Hexec Hslash
                  Hclosing parent rest Hstack (or_intror Hequal))
        as (st' & Hit & Hs & _ & Hc).
      exists st', parent, rest. by rewrite Hc, Hcurrent.
    + right; left.
      apply (closing_marker_mismatched span exp i m st slash Hre Hexec Hslash
               Hclosing); [by rewrite Hstack|done..].
Qed.

(** The run [a] between two newlines, through the theorem: in [  a ] and a
    newline, with [lineStart] set, the match is the newline at position 4,
    and the run is the child that the iteration adds. *)
Lemma text_run_before_marker_witness :
  text_before ("  a " +:+ String LF EmptyString) 0
    (mkMatch 4 (String LF EmptyString)
       [Some (String LF EmptyString); None; None; None; None]) initial = "a"
  ∧ ∃ st',
      (iteration ("  a " +:+ String LF EmptyString) VUndefined 0 initial).2
        = Normal st'
      ∧ children (current st') = [Value (VStr "a")].
Proof.
  pose (span := "  a " +:+ String LF EmptyString).
  pose (m := mkMatch 4 (String LF EmptyString)
               [Some (String LF EmptyString); None; None; None; None]).
  assert (Runs [span] [] 0 span 0 initial) as Hruns.
  { split; [done|]. split; [|simpl; lia].
    by eapply (iterate_reaches_first [span] [] span 0). }
  assert (0 < index m) as Hi by (simpl; lia).
  destruct (proj1 text_run_before_marker [span] [] 0 span 0 initial m Hruns
              eq_refl eq_refl Hi)
    as (_ & _ & Hnewline & _ & Hstep & _).
  destruct (Hnewline eq_refl) as [Hrun _]; [by vm_compute|].
  destruct (Hstep (String LF EmptyString) eq_refl) as (st' & Hit & Hc & _).
  split; [exact Hrun|]. exists st'. split; [exact Hit|]. by rewrite Hc.
Defined.

(** C3, on the code.  The flag [lineStart] is set when [parse] begins, and
    yet the text run [  hello], which no marker follows, is emitted with its
    leading white space: the branch for the text after the last match only
    trims the end of the run.  The same text before a marker is emitted as
    [hello]. *)
Theorem text_after_last_match_keeps_leading_space :
  lineStart initial = true
  ∧ parse ["  hello"] [] =
    Normal (mkElement (VStr EmptyString) None [Value (VStr "  hello")])
  ∧ parse ["  hello<br/>"] [] =
    Normal (mkElement (VStr EmptyString) None
              [Value (VStr "hello"); Element (VStr "br") None []]).
Proof. by vm_compute. Qed.

(** ** C4 *)

(** C4, on the code.  In [<p a 'x'/>] the name [a] has no [=] after it, and
    its value is the string [x], not [true]: PROPS_RE takes a quoted string
    after a name whether or not [=] stands between them, against the
    grammar in the source, where a prop is a name and, optionally, [=] and a
    value. *)
Theorem name_then_string_without_equals :
  exec PROPS_RE "<p a 'x'/>" 2 =
    Some (mkMatch 2 " a 'x'" [None; None; Some "a"; None; Some "'x'"])
  ∧ parse ["<p a 'x'/>"] [] =
    Normal (mkElement (VStr EmptyString) None
              [Element (VStr "p") (Some {[ "a" := VStr "x" ]}) []])
  ∧ parse ["<p a/>"] [] =
    Normal (mkElement (VStr EmptyString) None
              [Element (VStr "p") (Some {[ "a" := VBool true ]}) []]).
Proof. by vm_compute. Qed.

(** ** C5 *)

(** C5.  In Props mode, when a spread marker (three dots and the white
    space after them) is the next thing in the props:
    - unless an expression is pending and the marker ends the span, [parse]
      throws [MissingSpreadExpression];
    - otherwise the iteration consumes the expression and the props of the
      current element become a map that holds every own property of the
      expression, with its value, and, for the other keys, what the props
      held before: a shallow merge in which the pairs of the expression
      overwrite the earlier ones. *)
Theorem spread_marker :
  ∀ spans expressions s span i st m spread,
    Runs spans expressions s span i st →
    matcher st = PROPS_RE →
    exec PROPS_RE span i = Some m →
    index m = i →
    group 2 m = Some spread →
    let exp := expression_at expressions s in
    let before := default ∅ (props (current st)) in
    (pending_at_end span (match_end m) st = false →
     parse spans expressions = Throw MissingSpreadExpression)
    ∧ (pending_at_end span (match_end m) st = true →
       ∃ st' merged,
         (iteration span exp i st).2 = Normal st'
         ∧ props (current st') = Some merged
         ∧ (∀ k v, JS.own_properties exp !! k = Some v → merged !! k = Some v)
         ∧ (∀ k, JS.own_properties exp !! k = None → merged !! k = before !! k)
         ∧ tag (current st') = tag (current st)
         ∧ children (current st') = children (current st)
         ∧ stack st' = stack st
         ∧ matcher st' = PROPS_RE
         ∧ expressing st' = false).
Proof.
  intros spans expressions s span i st m spread Hruns Hre Hexec Hindex Hspread
    exp before.
  pose proof (spread_step span exp i m st spread Hre Hexec Hindex Hspread) as Hstep.
  unfold spread_case in Hstep. split; intros Hpending; rewrite Hpending in Hstep.
  - by eapply runs_abort.
  - eexists _, _. split; [exact Hstep|]. simpl. split; [done|].
    repeat split; try done.
    + intros k v Hk. by apply lookup_union_Some_l.
    + intros k Hk. by apply lookup_union_r.
Qed.

(** In [<p k='0' ...${o}/>] the spread is met at position 9 with [o]
    pending, and the [k] of [o] overwrites the [k] of the tag. *)
Lemma spread_marker_witness :
  let o := VObj 1 "[object Object]" {[ "k" := VNum 1 ]} in
  ∃ st st' merged,
    Runs ["<p k='0' ..."; "/>"] [o] 0 "<p k='0' ..." 8 st
    ∧ props (current st) = Some {[ "k" := VStr "0" ]}
    ∧ (iteration "<p k='0' ..." o 8 st).2 = Normal st'
    ∧ props (current st') = Some merged
    ∧ merged !! "k" = Some (VNum 1).
Proof.
  intros o.
  pose (spans := ["<p k='0' ..."; "/>"]).
  pose (span := "<p k='0' ...").
  pose (st := mkLocals (mkElement (VStr "p") (Some {[ "k" := VStr "0" ]}) [])
                [mkElement (VStr EmptyString) None []]
                PROPS_RE false EmptyString EmptyString true).
  pose (m := mkMatch 8 " ..." [None; Some "..."; None; None; None]).
  assert (Runs spans [o] 0 span 8 st) as Hruns.
  { split; [done|]. split; [|simpl; lia].
    eapply (iterate_reaches_first spans [o] span 2); [done|done|]. by vm_compute. }
  destruct (proj2 (spread_marker spans [o] 0 span 8 st m "..." Hruns
              eq_refl eq_refl eq_refl eq_refl) eq_refl)
    as (st' & merged & Hit & Hprops & Hown & _).
  exists st, st', merged.
  split; [exact Hruns|]. split; [done|]. split; [exact Hit|].
  split; [exact Hprops|]. by apply Hown.
Defined.

(** ** C6 *)

(** C6, on the code.  Inside a quoted attribute value the boolean [true]
    contributes nothing when it is met at the end of the span that opens the
    string, or alone between two expressions, but when it is met at the end
    of a later span of the string it is stringified: there the source only
    tests [exp != null]. *)
Theorem boolean_in_quoted_value :
  parse ["<p a='b"; "'/>"] [VBool true] =
    Normal (mkElement (VStr EmptyString) None
              [Element (VStr "p") (Some {[ "a" := VStr "b" ]}) []])
  ∧ parse ["<p a='"; ""; "b'/>"] [VNull; VBool true] =
    Normal (mkElement (VStr EmptyString) None
              [Element (VStr "p") (Some {[ "a" := VStr "b" ]}) []])
  ∧ parse ["<p a='"; "b"; "'/>"] [VNull; VBool true] =
    Normal (mkElement (VStr EmptyString) None
              [Element (VStr "p") (Some {[ "a" := VStr "btrue" ]}) []]).
Proof. by vm_compute. Qed.

(** ** C7 *)

(** C7, as stated, fails: when the whole input is one expression, the only
    child of the parse result is that value, and [template] returns the
    call [c("", null, 7)]: the synthetic wrapper, with the value as its only
    child argument, and not the value itself. *)
Lemma template_single_value_is_wrapped :
  parse [""; ""] [VNum 7] =
    Normal (mkElement (VStr EmptyString) None [Value (VNum 7)])
  ∧ template [""; ""] [VNum 7] =
    Normal (Crank.c (VStr EmptyString) (Crank.Given None) [Crank.ChildValue (VNum 7)]).
Proof. by vm_compute. Qed.

(** C7, amended.  When [parse] returns a root:
    - with no children, [template] returns [c("")];
    - with exactly one child that is an element, [template] returns what
      [createElementsFromParse] builds from that element: the wrapper is
      discarded;
    - with exactly one child that is a value, [template] returns
      [c("", null, value)]: the wrapper is kept, and the value is its only
      child argument.
    In particular this is what [template] returns when the whole input is
    one expression. *)
Theorem template_collapse :
  (∀ spans expressions root,
     parse spans expressions = Normal root →
     (children root = [] →
      template spans expressions =
        Normal (Crank.c (VStr EmptyString) Crank.Absent []))
     ∧ (∀ t p cs,
          children root = [Element t p cs] →
          template spans expressions =
            Normal (Crank.c t (Crank.Given p) (List.map child_argument cs)))
     ∧ (∀ v,
          children root = [Value v] →
          template spans expressions =
            Normal (Crank.c (VStr EmptyString) (Crank.Given None)
                      [Crank.ChildValue v])))
  ∧ (∀ v,
       template [""; ""] [v] =
         Normal (Crank.c (VStr EmptyString) (Crank.Given None) [Crank.ChildValue v])).
Proof.
  split; [|done].
  intros spans expressions root Hparse.
  destruct (parse_returns_wrapper _ _ _ Hparse) as [Htag Hprops].
  unfold template. rewrite Hparse. run_binds. repeat split.
  - by intros ->.
  - by intros t p cs ->.
  - intros v Hchildren. unfold createElementsFromParse.
    by rewrite Htag, Hprops, !Hchildren.
Qed.

(** One root element, through the theorem: the wrapper gives way to [p]. *)
Lemma template_collapse_witness :
  template ["<p>hi</p>"] [] =
    Normal (Crank.c (VStr "p") (Crank.Given None) [Crank.ChildValue (VStr "hi")]).
Proof.
  refine (proj1 (proj2 (proj1 template_collapse ["<p>hi</p>"] []
            (mkElement (VStr EmptyString) None
               [Element (VStr "p") None [Value (VStr "hi")]]) _))
            (VStr "p") None [Value (VStr "hi")] eq_refl).
  by vm_compute.
Defined.

(** ** C8 *)

(** C8, on the code.  A comment that is never closed, with an expression
    in it: whether [parse] throws depends on whether the last span is empty.
    For every body and every last span that do not hold the terminator,
    [parse] of the comment opener with the body, one expression and the
    last span throws [MissingCommentTerminator] when the last span is not
    empty, and returns the bare wrapper when it is empty: the test for the
    terminator sits in the body of the inner loop, which an empty span never
    enters.  (A comment that is opened in the last span and never closed is
    tolerated, as the claim says.)  So [<!-- a ${1} b] throws and
    [<!-- a ${1}] does not; with a second expression in the comment,
    [<!-- a ${1}${2}], [parse] throws [UnexpectedExpression]: the lines for
    expressions in a row have no case for comments; and
    [MissingCommentTerminator] is thrown for [<!--a-->${1} b] too, where the
    comment is closed: a comment that ends its span leaves the scanner in
    ClosingComment mode, closed or not. *)
Theorem unterminated_comment_with_expression :
  (∀ body text v,
     contains "-->" body = false →
     contains "-->" text = false →
     parse ["<!--" +:+ body; text] [v] =
       if Str.nonempty text then Throw MissingCommentTerminator
       else Normal (mkElement (VStr EmptyString) None []))
  ∧ (∀ body,
       contains "-->" body = false →
       parse ["<!--" +:+ body] [] = Normal (mkElement (VStr EmptyString) None []))
  ∧ parse ["<!-- a "; " b"] [VNum 1] = Throw MissingCommentTerminator
  ∧ parse ["<!-- a "; EmptyString] [VNum 1] =
    Normal (mkElement (VStr EmptyString) None [])
  ∧ parse ["<!-- a "; EmptyString; EmptyString] [VNum 1; VNum 2] =
    Throw UnexpectedExpression
  ∧ parse ["<!--a-->"; " b"] [VNum 1] = Throw MissingCommentTerminator.
Proof.
  split; [|split; [|by vm_compute]].
  - intros body text v Hbody Htext.
    pose proof (iteration_comment_to_end body v (with_expressing true initial)
                  eq_refl (comment_rest_open body Hbody)) as Hit.
    set (span := "<!--" +:+ body) in *.
    assert (0 < String.length span) as Hlen by (unfold span; simpl; lia).
    set (st1 := with_expressing false
                  (with_matcher CLOSING_COMMENT_RE
                     (with_lineStart false (with_expressing true initial)))).
    assert (process_span 2 0 span v initial = Normal st1) as Hfirst.
    { unfold process_span.
      change (enter_span 2 0 span v initial)
        with (Normal (with_expressing true initial)).
      run_binds. rewrite (span_loop_unfold (String.length span) span v 0) by lia.
      rewrite Hit. cbn [fst snd]. run_binds.
      by rewrite (span_loop_done (String.length span) span) by lia. }
    unfold parse. cbn [spans_loop length].
    change (expression_at [v] 0) with v. rewrite Hfirst. run_binds.
    set (exp1 := expression_at [v] 1).
    unfold process_span, enter_span, consecutive_expressions.
    change (bool_decide (1 < 2 - 1)) with false.
    cbn [expressing with_expressing andb]. run_binds.
    set (st2 := with_expressing false st1).
    destruct text as [|c text].
    + by vm_compute.
    + set (text' := String c text) in *. cbn [Str.nonempty].
      rewrite (span_loop_unfold (String.length text') text' exp1 0 st2)
        by (simpl; lia).
      unfold iteration. cbn [fst snd]. change (matcher st2) with CLOSING_COMMENT_RE.
      rewrite (exec_no_terminator text' Htext).
      unfold switch_matcher. change (matcher st2) with CLOSING_COMMENT_RE.
      unfold closing_comment_case. change (expressing st2) with false. done.
  - intros body Hbody.
    pose proof (iteration_comment_to_end body VUndefined initial eq_refl
                  (comment_rest_open body Hbody)) as Hit.
    set (span := "<!--" +:+ body) in *.
    unfold parse. cbn [spans_loop length]. unfold process_span.
    change (enter_span 1 0 span (expression_at [] 0) initial) with (Normal initial).
    change (expression_at [] 0) with VUndefined. run_binds.
    assert (0 < String.length span) as Hlen by (unfold span; simpl; lia).
    rewrite span_loop_unfold by lia. rewrite Hit. cbn [fst snd]. run_binds.
    by rewrite span_loop_done by lia.
Qed.

(** The two inputs [<!-- a ${1} b] and [<!-- a ${1}], through the theorem. *)
Lemma unterminated_comment_with_expression_witness :
  parse ["<!--" +:+ " a "; " b"] [VNum 1] = Throw MissingCommentTerminator
  ∧ parse ["<!--" +:+ " a "; EmptyString] [VNum 1] =
    Normal (mkElement (VStr EmptyString) None []).
Proof.
  split.
  - exact (proj1 unterminated_comment_with_expression " a " " b" (VNum 1)
             eq_refl eq_refl).
  - exact (proj1 unterminated_comment_with_expression " a " EmptyString (VNum 1)
             eq_refl eq_refl).
Defined.

(** ** C9 *)

(** C9, on the code.  White space alone between the name of a closing tag
    and its [>] throws [UnexpectedText]: CLOSING_TAG_RE is the bare [>], and
    any text before it, white space or not, is refused.  The same white
    space before the [>] of an opening tag is accepted. *)
Theorem closing_tag_tail_refuses_white_space :
  parse ["<p></p >"] [] = Throw UnexpectedText
  ∧ parse ["<p></p>"] [] =
    Normal (mkElement (VStr EmptyString) None [Element (VStr "p") None []])
  ∧ parse ["<p ></p>"] [] =
    Normal (mkElement (VStr EmptyString) None [Element (VStr "p") None []]).
Proof. by vm_compute. Qed.

(** ** C10 *)

(** C10.  At every point that a run of [parse] reaches in Props mode the
    stack is not empty.  An iteration of the scanner ends in Props mode only
    by opening a tag from Children mode, which pushes the enclosing element
    on the stack, or from inside the same tag (from Props mode itself or
    back from a closing quote), with the stack as it was.  So the
    [stack.pop()] of a self-closing [/>] always finds an element: no
    iteration, and no run of [parse], leaves [current] undefined. *)
Theorem props_mode_stack_not_empty :
  ∀ spans expressions,
    (∀ pt st,
       Reaches spans expressions pt st → matcher st = PROPS_RE → stack st ≠ [])
    ∧ (∀ s span i st st',
         Runs spans expressions s span i st →
         (iteration span (expression_at expressions s) i st).2 = Normal st' →
         matcher st' = PROPS_RE →
         (matcher st = CHILDREN_RE ∧ ∃ parent, stack st' = parent :: stack st)
         ∨ (inside_tag (matcher st) = true ∧ stack st' = stack st))
    ∧ (∀ s span i st,
         Runs spans expressions s span i st →
         (iteration span (expression_at expressions s) i st).2
           ≠ Abort UndefinedCurrent)
    ∧ parse spans expressions ≠ Abort UndefinedCurrent.
Proof.
  intros spans expressions. repeat split.
  - intros pt st Hreach Hre. apply (reaches_invariant _ _ _ _ Hreach).
    by rewrite Hre.
  - intros s span i st st' _ Hit Hre.
    exact (switch_matcher_enters_props _ _ _ _ _ _ _ Hit Hre).
  - intros s span i st (_ & Hreach & _). apply switch_matcher_defined.
    by eapply reaches_invariant.
  - intros Hp.
    destruct (parse_returns_or_throws spans expressions) as [[root H]|[[e H]|H]];
      congruence.
Qed.

(** In [<x/>] the scanner is in Props mode at position 2, after [<x], and
    the element [x] has the root below it on the stack. *)
Lemma props_mode_stack_not_empty_witness :
  ∃ st,
    Reaches ["<x/>"] [] (AtIndex 0 2) st
    ∧ matcher st = PROPS_RE
    ∧ stack st ≠ [].
Proof.
  pose (st := mkLocals (mkElement (VStr "x") None [])
                [mkElement (VStr EmptyString) None []]
                PROPS_RE false EmptyString EmptyString false).
  assert (Reaches ["<x/>"] [] (AtIndex 0 2) st) as Hreach
    by (by eapply (iterate_reaches_first ["<x/>"] [] "<x/>" 1)).
  exists st. split; [exact Hreach|]. split; [done|].
  exact (proj1 (props_mode_stack_not_empty ["<x/>"] []) _ st Hreach eq_refl).
Defined.

(** * Further lemmas *)

(** ** Matches lie within the span; the errors of each mode *)

Lemma span_app p s : (Str.span p s).1 +:+ (Str.span p s).2 = s.
Proof.
  induction s as [|c s IH]; [done|]. simpl.
  destruct (p c); [|done]. destruct (Str.span p s) as [a b]. simpl in *.
  by rewrite string_app_cons, IH.
Qed.

Lemma span_length p s :
  String.length (Str.span p s).1 + String.length (Str.span p s).2 = String.length s.
Proof. by rewrite <- string_length_app, span_app. Qed.

Lemma slashes_app s : (slashes s).1 +:+ (slashes s).2 = s.
Proof.
  destruct s as [|c [|d s]]; simpl; [done| |].
  - destruct (Ascii.eqb c "/") eqn:Hc; [|done]. by apply Ascii.eqb_eq in Hc as ->.
  - destruct (Ascii.eqb c "/") eqn:Hc; [|done]. apply Ascii.eqb_eq in Hc as ->.
    destruct (Ascii.eqb d "/") eqn:Hd; [|done]. by apply Ascii.eqb_eq in Hd as ->.
Qed.

Lemma starts_with_app p s : Str.starts_with p s = true → ∃ t, s = p +:+ t.
Proof.
  revert s; induction p as [|a p IH]; intros s H; [by exists s|].
  destruct s as [|b s]; [done|]. simpl in H.
  apply andb_prop in H as [Hab H]. apply Ascii.eqb_eq in Hab as ->.
  destruct (IH _ H) as [t ->]. by exists t.
Qed.

Lemma comment_rest_prefix s : ∃ t, s = comment_rest s +:+ t.
Proof.
  induction s as [|c s IH].
  - by exists EmptyString.
  - cbn [comment_rest]. destruct (Str.starts_with "-->" (String c s)) eqn:H.
    + by apply starts_with_app.
    + destruct IH as [t Ht]. exists t. rewrite string_app_cons. by rewrite <- Ht.
Qed.

Lemma quoted_rest_prefix q s : ∃ t, s = quoted_rest q s +:+ t.
Proof.
  remember (String.length s) as n eqn:Hn.
  revert s Hn. induction (lt_wf n) as [n _ IH]. intros s ->.
  destruct s as [|c s]; [by exists EmptyString|].
  cbn [quoted_rest]. destruct (Ascii.eqb c q); [by exists s|].
  destruct s as [|d s]; [by exists EmptyString|].
  destruct (Ascii.eqb c BACKSLASH && Ascii.eqb d q).
  - destruct (IH (String.length s) ltac:(simpl; lia) s eq_refl) as [t Ht].
    exists t. rewrite !string_app_cons. by rewrite <- Ht.
  - destruct (IH (String.length (String d s)) ltac:(simpl; lia) _ eq_refl) as [t Ht].
    exists t. rewrite string_app_cons. by rewrite <- Ht.
Qed.

Lemma span_stop p s c r2 :
  (Str.span p s).2 = String c r2 → s = (Str.span p s).1 +:+ String c r2.
Proof. intros H. by rewrite <- H, span_app. Qed.

Lemma tag_end_at_prefix r m : tag_end_at r = Some m → ∃ t, r = m +:+ t.
Proof.
  assert (∀ pre r1 m,
    (let '(ws, r2) := Str.span is_space r1 in
     match r2 with
     | String c _ => if Ascii.eqb c ">" then Some (pre +:+ ws +:+ ">") else None
     | EmptyString => None
     end) = Some m → ∃ t, pre +:+ r1 = m +:+ t) as Htry.
  { intros pre r1 m'. pose proof (span_app is_space r1) as Happ.
    destruct (Str.span is_space r1) as [ws r2]. simpl in Happ.
    destruct r2 as [|c r2]; [done|].
    destruct (Ascii.eqb c ">") eqn:Hc; [|done]. apply Ascii.eqb_eq in Hc as ->.
    intros [= <-]. exists r2. rewrite <- Happ.
    by rewrite !app_assoc_string. }
  unfold tag_end_at. destruct r as [|c r1]; [done|].
  destruct (Ascii.eqb c "/") eqn:Hc.
  - apply Ascii.eqb_eq in Hc as ->.
    match goal with |- context [match ?x with Some _ => _ | None => _ end] =>
      destruct x as [m'|] eqn:H1 end.
    + intros [= <-]. apply (Htry "/" r1 m' H1).
    + intros H2. destruct (Htry EmptyString (String "/" r1) m H2) as [t Ht].
      exists t. by rewrite app_empty_l in Ht.
  - intros H2. destruct (Htry EmptyString (String c r1) m H2) as [t Ht].
    exists t. by rewrite app_empty_l in Ht.
Qed.

Lemma prop_at_prefix r m name equals str :
  prop_at r = Some (m, name, equals, str) → ∃ t, r = m +:+ t.
Proof.
  unfold prop_at.
  pose proof (span_app is_ident r) as H0.
  destruct (Str.span is_ident r) as [nm r1]. simpl in H0.
  destruct (Str.nonempty nm); [|done].
  pose proof (span_app is_space r1) as H1.
  destruct (Str.span is_space r1) as [ws1 r2]. simpl in H1.
  set (eq_r3 := match r2 with
                | String c r3 => if Ascii.eqb c "=" then (Some "=", r3) else (None, r2)
                | EmptyString => (None, r2)
                end).
  assert (default EmptyString eq_r3.1 +:+ eq_r3.2 = r2) as H2.
  { unfold eq_r3. destruct r2 as [|c r3]; [done|].
    destruct (Ascii.eqb c "=") eqn:Hc; [|done]. by apply Ascii.eqb_eq in Hc as ->. }
  destruct eq_r3 as [eq r3]. simpl in H2.
  pose proof (span_app is_space r3) as H3.
  destruct (Str.span is_space r3) as [ws2 r4]. simpl in H3.
  set (str' := match r4 with
               | String q r5 =>
                   if Ascii.eqb q DQUOTE || Ascii.eqb q SQUOTE
                   then Some (String q (quoted_rest q r5)) else None
               | EmptyString => None
               end).
  assert (∃ t, r4 = default EmptyString str' +:+ t) as [t H4].
  { unfold str'. destruct r4 as [|q r5]; [by exists EmptyString|].
    destruct (Ascii.eqb q DQUOTE || Ascii.eqb q SQUOTE); [|by eexists].
    destruct (quoted_rest_prefix q r5) as [t Ht]. exists t. simpl.
    rewrite string_app_cons. by rewrite <- Ht. }
  intros [= <- _ _ _]. exists t.
  rewrite <- H0, <- H1, <- H2, <- H3, H4 at 1.
  by rewrite !app_assoc_string.
Qed.

Lemma length_drop n s : String.length (Str.drop n s) = String.length s - n.
Proof.
  revert s; induction n as [|n IH]; intros [|c s]; simpl; done.
Qed.

Lemma attempt_prefix re r m gs : attempt re r = Some (m, gs) → ∃ t, r = m +:+ t.
Proof.
  destruct re; cbn [attempt].
  - (* CHILDREN_RE *)
    unfold children_at. destruct r as [|c r']; [done|].
    destruct (is_eol c).
    { intros [= <- _]. exists (Str.span is_space r').2.
      rewrite string_app_cons. by rewrite span_app. }
    destruct (Str.starts_with "<!--" (String c r')) eqn:Hcomment.
    { apply starts_with_app in Hcomment as [t Ht].
      rewrite Ht. change (Str.drop 4 ("<!--" +:+ t)) with t. intros [= <- _].
      destruct (comment_rest_prefix t) as [u Hu]. exists u.
      rewrite app_assoc_string. by rewrite <- Hu. }
    destruct (Ascii.eqb c "<") eqn:Hc; [|done]. apply Ascii.eqb_eq in Hc as ->.
    pose proof (span_app is_space r') as H1.
    destruct (Str.span is_space r') as [ws1 r1]. simpl in H1.
    pose proof (slashes_app r1) as H2.
    destruct (slashes r1) as [slash r2]. simpl in H2.
    pose proof (span_app is_space r2) as H3.
    destruct (Str.span is_space r2) as [ws2 r3]. simpl in H3.
    pose proof (span_app is_ident r3) as H4.
    destruct (Str.span is_ident r3) as [name r4]. simpl in H4.
    intros [= <- _]. exists r4.
    rewrite <- H1, <- H2, <- H3, <- H4.
    by rewrite !app_assoc_string.
  - (* PROPS_RE *)
    unfold props_at.
    pose proof (span_app is_space r) as H0.
    destruct (Str.span is_space r) as [ws r0]. simpl in H0.
    destruct (tag_end_at r0) as [tagEnd|] eqn:Hend.
    { intros [= <- _]. apply tag_end_at_prefix in Hend as [t ->].
      exists t. by rewrite <- H0, app_assoc_string. }
    unfold spread_at. destruct (Str.starts_with "..." r0) eqn:Hdots.
    { apply starts_with_app in Hdots as [t Ht].
      rewrite <- H0, Ht. change (Str.drop 3 ("..." +:+ t)) with t. intros [= <- _].
      exists (Str.span is_space t).2.
      rewrite !app_assoc_string. by rewrite span_app. }
    destruct (prop_at r0) as [[[[m' name] equals] str]|] eqn:Hprop; [|done].
    intros [= <- _]. apply prop_at_prefix in Hprop as [t ->].
    exists t. by rewrite <- H0, app_assoc_string.
  - unfold closing_tag_at. destruct (Str.starts_with ">" r) eqn:H; [|done].
    intros [= <- _]. by apply starts_with_app.
  - unfold closing_quote_at. destruct r as [|c [|d r]].
    + done.
    + destruct (Ascii.eqb c SQUOTE); [|done]. intros [= <- _]. by eexists.
    + destruct (negb (Ascii.eqb c BACKSLASH) && Ascii.eqb d SQUOTE) eqn:H1.
      * apply andb_prop in H1 as [_ Hd]. apply Ascii.eqb_eq in Hd as ->.
        intros [= <- _]. by exists r.
      * destruct (Ascii.eqb c SQUOTE); [|done]. intros [= <- _]. by eexists.
  - unfold closing_quote_at. destruct r as [|c [|d r]].
    + done.
    + destruct (Ascii.eqb c DQUOTE); [|done]. intros [= <- _]. by eexists.
    + destruct (negb (Ascii.eqb c BACKSLASH) && Ascii.eqb d DQUOTE) eqn:H1.
      * apply andb_prop in H1 as [_ Hd]. apply Ascii.eqb_eq in Hd as ->.
        intros [= <- _]. by exists r.
      * destruct (Ascii.eqb c DQUOTE); [|done]. intros [= <- _]. by eexists.
  - unfold closing_comment_at. destruct (Str.starts_with "-->" r) eqn:H; [|done].
    intros [= <- _]. by apply starts_with_app.
Qed.

(** A match lies within the span, after the position the search started
    from, and is the text of the span at its index. *)
Lemma exec_within re span i m :
  exec re span i = Some m →
  i ≤ index m ∧ match_end m ≤ String.length span
  ∧ Str.slice span (index m) (match_end m) = matched m.
Proof.
  intros Hex. pose proof (exec_spec _ _ _ _ Hex) as [Hi Hat].
  pose proof (attempt_nonempty _ _ _ _ Hat) as Hne.
  apply attempt_prefix in Hat as [t Ht].
  pose proof (f_equal String.length Ht) as Hlen.
  rewrite length_drop, string_length_app in Hlen.
  unfold match_end. split; [done|]. split; [lia|].
  unfold Str.slice. rewrite Ht.
  replace (index m + String.length (matched m) - index m)
    with (String.length (matched m)) by lia.
  apply take_app_length.
Qed.

Lemma iteration_bounds span exp i st :
  i < String.length span →
  i < (iteration span exp i st).1 ≤ String.length span.
Proof.
  intros Hi. split; [by apply iteration_progress|].
  unfold iteration. cbn [fst]. unfold end_of.
  destruct (exec (matcher st) span i) as [m|] eqn:Hex; [|done].
  by apply exec_within in Hex as (_ & ? & _).
Qed.

Lemma switch_matcher_may_throw span exp i match_ end_ st e :
  switch_matcher span exp i match_ end_ st = Throw e →
  may_throw (matcher st) e = true.
Proof.
  unfold switch_matcher. destruct (matcher st).
  - unfold children_case. destruct match_ as [m|]; simpl; [|done].
    set (st1 := with_lineStart _ _). clearbody st1.
    destruct (truthy (group 2 m)); [done|].
    destruct (truthy (group 3 m)); [|done].
    unfold tag_case. set (st2 := if pending_at_end span end_ st1 then _ else _).
    clearbody st2. destruct (truthy (group 4 m)); [|done].
    case_bool_decide as Hst; [by intros [= <-]|].
    destruct (_ && _); [by intros [= <-]|].
    unfold pop. by destruct (stack st2).
  - unfold props_case. destruct match_ as [m|].
    2:{ destruct (negb _); [by intros [= <-]|done]. }
    destruct (bool_decide _); [by intros [= <-]|].
    destruct (truthy (group 1 m)).
    { unfold tag_end_case, pop. destruct (bool_decide _); [|done].
      by destruct (stack st). }
    destruct (truthy (group 2 m)).
    { unfold spread_case. destruct (negb _); [by intros [= <-]|done]. }
    destruct (truthy (group 3 m)); [|done].
    by intros [-> | ->]%prop_case_throws.
  - unfold closing_tag_case. repeat case_match; first [done | by intros [= <-]].
  - by intros ?%closing_quote_case_abort.
  - by intros ?%closing_quote_case_abort.
  - unfold closing_comment_case. repeat case_match; first [done | by intros [= <-]].
Qed.

(** ** Spans without markers *)

Lemma children_at_plain c r : is_plain c = true → children_at (String c r) = None.
Proof.
  unfold is_plain, children_at. intros [H1 H2]%andb_prop.
  apply negb_true_iff in H1, H2. rewrite H1.
  cbn [Str.starts_with]. rewrite Ascii.eqb_sym, H2. done.
Qed.

Lemma search_plain rest idx :
  Str.all is_plain rest = true → search children_at rest idx = None.
Proof.
  revert idx; induction rest as [|c r IH]; intros idx H; [done|].
  simpl in H. apply andb_prop in H as [Hc Hr].
  cbn [search]. rewrite (children_at_plain _ _ Hc). by apply IH.
Qed.

Lemma all_drop p n s : Str.all p s = true → Str.all p (Str.drop n s) = true.
Proof.
  revert s; induction n as [|n IH]; intros [|c s] H; try done.
  simpl in *. apply andb_prop in H as [_ H]. by apply IH.
Qed.

Lemma exec_children_plain_from span i :
  Str.all is_plain (Str.drop i span) = true → exec CHILDREN_RE span i = None.
Proof.
  intros H. unfold exec, exec_with. case_decide; [|done]. by apply search_plain.
Qed.

Lemma exec_children_plain span i :
  Str.all is_plain span = true → exec CHILDREN_RE span i = None.
Proof. intros H. by apply exec_children_plain_from, all_drop. Qed.

(** A span that is not empty is entered with [expressing] set unless it is
    the last. *)
Lemma enter_span_nonempty n s span exp st :
  span ≠ EmptyString →
  enter_span n s span exp st = Normal (with_expressing (bool_decide (s < n - 1)) st).
Proof.
  intros Hne. unfold enter_span, consecutive_expressions.
  by rewrite (bool_decide_eq_false_2 (span = EmptyString)), andb_false_r.
Qed.

Lemma process_plain_span n s span exp st :
  Str.all is_plain span = true →
  matcher st = CHILDREN_RE →
  ∃ st',
    process_span n s span exp st = Normal st'
    ∧ matcher st' = CHILDREN_RE
    ∧ stack st' = stack st
    ∧ current st' = current (push_children (plain_span_children n s span exp) st).
Proof.
  intros Hplain Hre. unfold process_span, plain_span_children.
  destruct span as [|c span].
  - (* the empty span *)
    unfold enter_span, consecutive_expressions. cbn [expressing with_expressing].
    rewrite (bool_decide_eq_true_2 (EmptyString = EmptyString) eq_refl).
    cbn [matcher with_expressing]. rewrite Hre.
    destruct (bool_decide (s < n - 1)); cbn [andb].
    + eexists. split; [done|]. by destruct st.
    + eexists. split; [done|]. destruct st as [[t p cs] ? ? ? ? ? ?]; simpl in *.
      repeat split; try done. by rewrite app_nil_r.
  - set (sp := String c span) in *.
    rewrite (enter_span_nonempty n s sp exp st) by done. run_binds.
    set (st0 := with_expressing _ st).
    rewrite (span_loop_unfold (String.length sp) sp exp 0 st0) by (simpl; lia).
    unfold iteration. cbn [fst snd].
    assert (matcher st0 = CHILDREN_RE) as Hre0 by done.
    rewrite Hre0, (exec_children_plain sp 0 Hplain).
    unfold switch_matcher. rewrite Hre0. unfold children_case, end_of. run_binds.
    rewrite span_loop_done by done.
    unfold push_text_after, push_pending_child, pending_at_end.
    rewrite (bool_decide_eq_true_2 (0 < String.length sp)) by (simpl; lia).
    change (Str.slice_from sp 0) with sp.
    subst st0. cbn [expressing with_expressing].
    destruct (bool_decide (s < n - 1)) eqn:Hpending; cbn [negb].
    + change (Str.nonempty sp) with true. cbv iota.
      cbn [expressing push_value with_current].
      rewrite bool_decide_eq_true_2 by done. cbn [andb].
      eexists. split; [done|]. destruct st as [[t p cs] ? ? ? ? ? ?]; simpl in *.
      repeat split; try done. unfold push_child; simpl. by rewrite <- app_assoc.
    + destruct (Str.nonempty (trim_trailing sp)).
      * eexists. split; [done|]. destruct st as [[t p cs] ? ? ? ? ? ?]; simpl in *.
        repeat split; try done.
      * eexists. split; [done|]. destruct st as [[t p cs] ? ? ? ? ? ?]; simpl in *.
        repeat split; try done. by rewrite app_nil_r.
Qed.

Lemma spans_loop_plain n expressions rest :
  Forall (λ span, Str.all is_plain span = true) rest →
  ∀ s st,
    matcher st = CHILDREN_RE →
    ∃ st',
      spans_loop n expressions s rest st = Normal st'
      ∧ stack st' = stack st
      ∧ current st' = current (push_children (plain_children n expressions s rest) st).
Proof.
  induction 1 as [|span rest Hspan _ IH]; intros s st Hre.
  - exists st. split; [done|]. split; [done|].
    destruct st as [[t p cs] ? ? ? ? ? ?]; simpl. by rewrite app_nil_r.
  - cbn [spans_loop plain_children].
    destruct (process_plain_span n s span (expression_at expressions s) st Hspan Hre)
      as (st1 & -> & Hre1 & Hst1 & Hcur1).
    run_binds. destruct (IH (S s) st1 Hre1) as (st2 & -> & Hst2 & Hcur2).
    exists st2. split; [done|]. split; [congruence|].
    rewrite Hcur2. unfold push_children. cbn [current with_current].
    rewrite Hcur1. cbn [current push_children with_current tag props children].
    by rewrite app_assoc.
Qed.

(** ** Escaping *)

Lemma unescape_escape s : unescape (escape s) = s.
Proof.
  induction s as [|c s IH]; [done|]. cbn [escape].
  destruct (Ascii.eqb c BACKSLASH) eqn:Hb; cbn [orb].
  - apply Ascii.eqb_eq in Hb as ->. cbn [unescape].
    change (Ascii.eqb BACKSLASH BACKSLASH) with true. cbv iota.
    change (is_line_terminator BACKSLASH) with false. cbv iota. by rewrite IH.
  - destruct (Ascii.eqb c DQUOTE || Ascii.eqb c SQUOTE) eqn:Hq.
    + cbn [unescape]. change (Ascii.eqb BACKSLASH BACKSLASH) with true. cbv iota.
      assert (is_line_terminator c = false) as ->.
      { apply orb_prop in Hq as [->%Ascii.eqb_eq| ->%Ascii.eqb_eq]; done. }
      by rewrite IH.
    + cbn [unescape]. by rewrite Hb, IH.
Qed.

Lemma slice_to_last_quoted q q' s :
  Str.slice_to_last (String q (s +:+ String q' EmptyString)) 1 = s.
Proof.
  unfold Str.slice_to_last, Str.slice. cbn [Str.drop String.length].
  rewrite string_length_app. cbn [String.length].
  replace (S (String.length s + 1) - 1 - 1) with (String.length s) by lia.
  apply take_app_length.
Qed.

Lemma length_take n s : String.length (Str.take n s) ≤ n.
Proof.
  revert s; induction n as [|n IH]; intros [|c s]; simpl; try lia.
  specialize (IH s). lia.
Qed.

Lemma length_unescape s : String.length (unescape s) ≤ String.length s.
Proof.
  remember (String.length s) as n eqn:Hn.
  revert s Hn. induction (lt_wf n) as [n _ IH]. intros s ->.
  destruct s as [|c s]; [done|]. cbn [unescape].
  destruct (Ascii.eqb c BACKSLASH).
  - destruct s as [|d s]; [simpl; lia|].
    destruct (is_line_terminator d).
    + specialize (IH (String.length (String d s)) ltac:(simpl; lia) _ eq_refl).
      simpl in *. lia.
    + specialize (IH (String.length s) ltac:(simpl; lia) s eq_refl). simpl in *. lia.
  - specialize (IH (String.length s) ltac:(simpl; lia) s eq_refl). simpl in *. lia.
Qed.

Lemma unescape_plain s :
  Str.all (λ c, negb (Ascii.eqb c BACKSLASH)) s = true → unescape s = s.
Proof.
  induction s as [|c s IH]; [done|]. simpl.
  intros [Hc Hs]%andb_prop. apply negb_true_iff in Hc. rewrite Hc.
  by rewrite IH.
Qed.

(** ** Whole comments *)

(** The terminator is not found across the end of a body that does not hold
    it. *)
Lemma comment_rest_closed body text :
  contains "-->" body = false →
  comment_rest (body +:+ "-->" +:+ text) = body +:+ "-->".
Proof.
  induction body as [|c body IH]; intros Hno.
  - done.
  - apply contains_cons in Hno as [Hhere Hno].
    rewrite (string_app_cons c body ("-->" +:+ text)), (string_app_cons c body "-->").
    cbn [comment_rest].
    assert (Str.starts_with "-->" (String c (body +:+ "-->" +:+ text)) = false) as ->.
    { destruct body as [|d [|e body]]; cbn in Hhere |- *.
      - by rewrite andb_false_r.
      - destruct (Ascii.eqb "-" c), (Ascii.eqb "-" d); done.
      - done. }
    by rewrite IH.
Qed.

Lemma comment_length body text :
  String.length ("<!--" +:+ body +:+ "-->" +:+ text)
  = 4 + String.length body + 3 + String.length text.
Proof. rewrite !string_length_app. simpl. lia. Qed.

(** The iteration that reads a whole comment at the start of a span. *)
Lemma iteration_comment body text exp st :
  contains "-->" body = false →
  matcher st = CHILDREN_RE →
  iteration ("<!--" +:+ body +:+ "-->" +:+ text) exp 0 st =
    (4 + String.length body + 3,
     Normal (let st1 := with_lineStart false st in
             if Str.nonempty text then st1
             else let st2 := with_matcher CLOSING_COMMENT_RE st1 in
                  if expressing st then with_expressing false st2 else st2)).
Proof.
  intros Hno Hre. unfold iteration. rewrite Hre.
  rewrite (exec_children_comment (body +:+ "-->" +:+ text)).
  rewrite (comment_rest_closed _ _ Hno).
  unfold end_of, match_end. cbn [index matched].
  assert (String.length ("<!--" +:+ body +:+ "-->") = 4 + String.length body + 3) as Hlen.
  { rewrite !string_length_app. simpl. lia. }
  rewrite Nat.add_0_l, Hlen. f_equal.
  unfold switch_matcher. rewrite Hre. unfold children_case.
  set (m := mkMatch _ _ _).
  assert (truthy (group 1 m) = false) as -> by done.
  assert (truthy (group 2 m) = true) as -> by done.
  unfold push_text_before. cbn [index m]. rewrite bool_decide_eq_false_2 by lia.
  run_binds. unfold comment_case, push_pending_child, pending_at_end.
  rewrite comment_length.
  destruct text as [|c text].
  - cbn [String.length Str.nonempty]. rewrite !bool_decide_eq_true_2 by lia.
    cbn [expressing with_matcher with_lineStart]. rewrite andb_true_r.
    destruct (expressing st) eqn:Hex; cbn [andb expressing with_expressing]; [done|].
    cbn [expressing with_matcher with_lineStart]. by rewrite Hex.
  - cbn [String.length Str.nonempty]. rewrite !bool_decide_eq_false_2 by lia.
    cbn [expressing with_lineStart]. by rewrite andb_false_r.
Qed.

Lemma drop_comment body text :
  Str.drop (4 + String.length body + 3) ("<!--" +:+ body +:+ "-->" +:+ text) = text.
Proof.
  replace (4 + String.length body + 3) with (String.length ("<!--" +:+ body +:+ "-->")).
  - rewrite <- (string_drop_app_length ("<!--" +:+ body +:+ "-->") text) at 2.
    by rewrite !app_assoc_string.
  - rewrite !string_length_app. simpl. lia.
Qed.

(** A span that a comment ends: the scanner is left in ClosingComment mode
    and the pending expression is gone. *)
Lemma process_span_comment n s body exp st :
  contains "-->" body = false →
  matcher st = CHILDREN_RE →
  process_span n s ("<!--" +:+ body +:+ "-->") exp st =
    Normal (with_expressing false
              (with_matcher CLOSING_COMMENT_RE (with_lineStart false st))).
Proof.
  intros Hbody Hre. unfold process_span.
  rewrite (enter_span_nonempty n s ("<!--" +:+ body +:+ "-->")) by done.
  run_binds. set (st0 := with_expressing _ st).
  pose proof (comment_length body EmptyString) as Hlen.
  pose proof (iteration_comment body EmptyString exp st0 Hbody Hre) as Hit.
  cbn [Str.nonempty String.length] in Hit, Hlen.
  change ("<!--" +:+ body +:+ "-->" +:+ EmptyString)
    with ("<!--" +:+ body +:+ "-->") in Hit, Hlen.
  set (span := "<!--" +:+ body +:+ "-->") in *. clearbody span.
  rewrite (span_loop_unfold (String.length span) span exp 0 st0) by lia.
  rewrite Hit. cbn [fst snd]. run_binds.
  rewrite span_loop_done by lia. run_binds.
  subst st0. cbn [expressing with_expressing].
  destruct (bool_decide (s < n - 1)); by destruct st.
Qed.

(** ** Iterations, one after the other *)

Lemma steps_one span exp i st j st' :
  i < String.length span →
  iteration span exp i st = (j, Normal st') →
  Steps span exp i st j st'.
Proof. intros Hi Hit. eapply steps_next; [done..|constructor]. Qed.

Lemma steps_trans span exp i st j st' k st'' :
  Steps span exp i st j st' → Steps span exp j st' k st'' →
  Steps span exp i st k st''.
Proof.
  induction 1 as [|i st j st' k' st''' Hi Hit _ IH]; [done|].
  intros Hrest. eapply steps_next; [done..|]. by apply IH.
Qed.

Lemma steps_span_loop span exp fuel i st j st' :
  Steps span exp i st j st' →
  String.length span - i ≤ fuel →
  span_loop fuel span exp i st = span_loop fuel span exp j st'.
Proof.
  induction 1 as [|i st j st' k st'' Hi Hit _ IH]; [done|].
  intros Hfuel. rewrite span_loop_unfold by done. rewrite Hit. cbn [fst snd].
  rewrite bind_normal. apply IH.
  pose proof (iteration_progress span exp i st Hi) as Hlt.
  rewrite Hit in Hlt. simpl in Hlt. lia.
Qed.

Lemma drop_lt i span c r : Str.drop i span = String c r → i < String.length span.
Proof.
  intros H. pose proof (length_drop i span) as Hlen. rewrite H in Hlen.
  simpl in Hlen. lia.
Qed.

Lemma drop_end i span : Str.drop i span = EmptyString → String.length span ≤ i.
Proof.
  intros H. pose proof (length_drop i span) as Hlen. rewrite H in Hlen.
  simpl in Hlen. lia.
Qed.

Lemma drop_add i span a b :
  Str.drop i span = a +:+ b → Str.drop (i + String.length a) span = b.
Proof. intros H. by rewrite <- drop_drop, H, string_drop_app_length. Qed.

(** A template of one span: the iterations of its inner loop give the
    result. *)
Lemma parse_single span j st :
  Steps span VUndefined 0 initial j st →
  Str.drop j span = EmptyString →
  expressing st = false → stack st = [] →
  parse [span] [] = Normal (current st).
Proof.
  intros Hsteps Hdrop Hex Hstack. unfold parse. cbn [spans_loop length].
  unfold process_span, enter_span, consecutive_expressions.
  change (bool_decide (0 < 1 - 1)) with false.
  cbn [expressing with_expressing andb].
  change (with_expressing false initial) with initial.
  change (expression_at [] 0) with VUndefined. run_binds.
  rewrite (steps_span_loop _ _ _ _ _ _ _ Hsteps) by lia.
  rewrite span_loop_done by (by apply drop_end).
  run_binds. unfold leave_span. rewrite Hex. run_binds.
  unfold finish. rewrite Hstack. by rewrite bool_decide_eq_false_2 by (by intros ?).
Qed.

Lemma exec_here re span i c r m gs :
  Str.drop i span = String c r →
  attempt re (String c r) = Some (m, gs) →
  exec re span i = Some (mkMatch i m gs).
Proof.
  intros Hdrop Hat. unfold exec, exec_with.
  pose proof (drop_lt _ _ _ _ Hdrop). rewrite decide_True by lia.
  rewrite Hdrop. by apply search_here.
Qed.

Lemma search_children_skip t r idx m gs :
  Str.all is_plain t = true → children_at r = Some (m, gs) →
  search children_at (t +:+ r) idx = Some (mkMatch (idx + String.length t) m gs).
Proof.
  revert idx; induction t as [|c t IH]; intros idx Ht Hat.
  - rewrite app_empty_l. simpl. rewrite Nat.add_0_r. by apply search_here.
  - simpl in Ht. apply andb_prop in Ht as [Hc Ht].
    rewrite string_app_cons. cbn [search].
    rewrite (children_at_plain _ _ Hc), (IH (S idx) Ht Hat).
    do 2 f_equal. simpl. lia.
Qed.

Lemma exec_children_skip span i t c r m gs :
  Str.drop i span = t +:+ String c r →
  Str.all is_plain t = true → children_at (String c r) = Some (m, gs) →
  exec CHILDREN_RE span i = Some (mkMatch (i + String.length t) m gs).
Proof.
  intros Hdrop Ht Hat. unfold exec, exec_with.
  assert (i < String.length span) as Hi.
  { destruct t; [|rewrite string_app_cons in Hdrop]; by eapply drop_lt. }
  rewrite decide_True by lia. rewrite Hdrop. by apply search_children_skip.
Qed.

Lemma slice_text span i t r :
  Str.drop i span = t +:+ r → Str.slice span i (i + String.length t) = t.
Proof.
  intros H. unfold Str.slice. rewrite H.
  replace (i + String.length t - i) with (String.length t) by lia.
  apply take_app_length.
Qed.

(** The text before a tag marker is pushed as it is when the line has
    started. *)
Lemma push_text_before_tag_marker span i t r m gs st :
  Str.drop i span = t +:+ r →
  t = EmptyString ∨ lineStart st = false →
  gs !! 0 = Some None →
  push_text_before span i (mkMatch (i + String.length t) m gs) st = push_text t st.
Proof.
  intros Hdrop Hline Hgs. unfold push_text_before, push_text, text_before.
  cbn [index]. destruct t as [|c t].
  - simpl. by rewrite bool_decide_eq_false_2 by lia.
  - destruct Hline as [|Hline]; [done|].
    rewrite Hline, (slice_text _ _ _ _ Hdrop).
    assert (truthy (group 1 (mkMatch (i + String.length (String c t)) m gs)) = false)
      as ->.
    { unfold group. cbn [groups]. by rewrite Hgs. }
    simpl. by rewrite bool_decide_eq_true_2 by lia.
Qed.

Lemma push_text_fields t st :
  matcher (push_text t st) = matcher st
  ∧ stack (push_text t st) = stack st
  ∧ expressing (push_text t st) = expressing st
  ∧ lineStart (push_text t st) = lineStart st
  ∧ tag (current (push_text t st)) = tag (current st)
  ∧ props (current (push_text t st)) = props (current st)
  ∧ children (current (push_text t st)) = children (current st) ++ text_child t.
Proof.
  unfold push_text, text_child. destruct (Str.nonempty t); simpl; [done|].
  by rewrite app_nil_r.
Qed.

(** The iteration that reads the text [t] and the marker [<x] after it:
    the text is pushed and the element [x] is opened. *)
Lemma step_open span exp i st t x d rest :
  Str.drop i span = t +:+ "<" +:+ x +:+ String d rest →
  Str.all is_plain t = true →
  Str.nonempty x = true → Str.all is_ident x = true → is_ident d = false →
  matcher st = CHILDREN_RE →
  t = EmptyString ∨ lineStart st = false →
  iteration span exp i st =
    (i + String.length t + S (String.length x),
     Normal (with_matcher PROPS_RE
               (open_element (VStr x) (with_lineStart false (push_text t st))))).
Proof.
  intros Hdrop Ht Hne Hx Hd Hre Hline. unfold iteration. rewrite Hre.
  rewrite (exec_children_skip span i t "<" (x +:+ String d rest) _ _ Hdrop Ht
             (children_at_open x d rest Hne Hx Hd)).
  set (gs := [None; None; Some (String "<" x); Some EmptyString; Some x]).
  set (m := mkMatch _ _ _).
  assert (end_of span (Some m) = i + String.length t + S (String.length x)) as ->
    by done.
  assert (i + String.length t + S (String.length x) ≠ String.length span) as Hend.
  { pose proof (length_drop i span) as Hlen.
    rewrite Hdrop, !string_length_app in Hlen. simpl in Hlen. lia. }
  f_equal. unfold switch_matcher. rewrite Hre. unfold children_case.
  assert (push_text_before span i m st = push_text t st) as ->
    by exact (push_text_before_tag_marker span i t ("<" +:+ x +:+ String d rest)
                (String "<" x) gs st Hdrop Hline eq_refl).
  change (truthy (group 1 m)) with false. change (truthy (group 2 m)) with false.
  change (truthy (group 3 m)) with true. cbv iota.
  unfold tag_case, marker_tag, pending_at_end.
  rewrite (bool_decide_eq_false_2 _ Hend), !andb_false_r.
  change (truthy (group 4 m)) with false.
  change (group 5 m) with (Some x). run_binds.
  unfold push_pending_child, pending_at_end.
  by rewrite (bool_decide_eq_false_2 _ Hend), !andb_false_r.
Qed.

Lemma children_at_close x d rest :
  Str.nonempty x = true → Str.all is_ident x = true → is_ident d = false →
  children_at (String "<" (String "/" (x +:+ String d rest))) =
    Some ("</" +:+ x,
          [None; None; Some ("</" +:+ x); Some "/"; Some x]).
Proof.
  intros Hne Hx Hd. destruct x as [|c x']; [done|].
  pose proof Hx as Hcx. simpl in Hcx. apply andb_prop in Hcx as [Hc Hx'].
  unfold children_at. change (is_eol "<") with false. cbv iota.
  cbn [Str.starts_with].
  change (Ascii.eqb "<" "<") with true. change (Ascii.eqb "!" "/") with false.
  cbn [andb]. cbn [Str.span]. change (is_space "/") with false. cbv iota.
  rewrite string_app_cons. cbn [slashes]. change (Ascii.eqb "/" "/") with true.
  cbv iota. rewrite (is_ident_not_slash c Hc). cbn [Str.span].
  rewrite (is_ident_not_space c Hc).
  rewrite <-string_app_cons.
  rewrite (string_span_all_stop is_ident (String c x') d rest Hx Hd).
  by rewrite !app_empty_l.
Qed.

(** The iteration that reads the text [t] and the marker [</x] after it:
    the text is pushed and the current element, whose tag is [x], is
    closed. *)
Lemma step_close span exp i st t x d rest parent stk :
  Str.drop i span = t +:+ "</" +:+ x +:+ String d rest →
  Str.all is_plain t = true →
  Str.nonempty x = true → Str.all is_ident x = true → is_ident d = false →
  matcher st = CHILDREN_RE → expressing st = false →
  t = EmptyString ∨ lineStart st = false →
  stack st = parent :: stk → tag (current st) = VStr x →
  iteration span exp i st =
    (i + String.length t + S (S (String.length x)),
     Normal (with_matcher CLOSING_TAG_RE
               (with_stack stk
                  (with_current (close_into parent (current (push_text t st)))
                     (with_lineStart false (push_text t st)))))).
Proof.
  intros Hdrop Ht Hne Hx Hd Hre Hex Hline Hstack Htag. unfold iteration. rewrite Hre.
  rewrite (exec_children_skip span i t "<" (String "/" (x +:+ String d rest)) _ _
             Hdrop Ht (children_at_close x d rest Hne Hx Hd)).
  set (gs := [None; None; Some ("</" +:+ x); Some "/"; Some x]).
  set (m := mkMatch _ _ _).
  assert (end_of span (Some m) = i + String.length t + S (S (String.length x))) as ->
    by done.
  f_equal. unfold switch_matcher. rewrite Hre. unfold children_case.
  assert (push_text_before span i m st = push_text t st) as ->
    by exact (push_text_before_tag_marker span i t ("</" +:+ x +:+ String d rest)
                ("</" +:+ x) gs st Hdrop Hline eq_refl).
  pose proof (push_text_fields t st) as (_ & Hstack' & Hex' & _ & Htag' & _).
  change (truthy (group 1 m)) with false. change (truthy (group 2 m)) with false.
  change (truthy (group 3 m)) with true. cbv iota.
  unfold tag_case, marker_tag, pending_at_end. cbn [expressing with_lineStart].
  rewrite Hex', Hex. cbn [andb]. change (truthy (group 4 m)) with true.
  change (group 5 m) with (Some x). change (group 4 m) with (Some "/").
  cbv iota. cbn [stack current with_lineStart].
  rewrite Hstack', Hstack, Htag', Htag.
  rewrite bool_decide_eq_false_2 by done.
  rewrite (bool_decide_eq_false_2 (Some "/" = Some "//")) by done.
  cbn [JS.strict_equal]. rewrite bool_decide_eq_true_2 by done. cbn [negb andb].
  unfold pop. cbn [stack with_lineStart]. rewrite Hstack', Hstack. run_binds.
  unfold push_pending_child, pending_at_end.
  cbn [expressing with_matcher with_current with_stack with_lineStart current].
  by rewrite Hex', Hex.
Qed.

Lemma is_ident_not_gt c : is_ident c = true → Ascii.eqb c ">" = false.
Proof. by destruct c as [[] [] [] [] [] [] [] []]. Qed.

Lemma is_ident_not_dot c : is_ident c = true → Ascii.eqb "." c = false.
Proof. by destruct c as [[] [] [] [] [] [] [] []]. Qed.

(** The iteration that reads the [>] of an opening tag. *)
Lemma step_tag_end span exp i st rest :
  Str.drop i span = String ">" rest →
  matcher st = PROPS_RE → expressing st = false →
  iteration span exp i st = (S i, Normal (with_matcher CHILDREN_RE st)).
Proof.
  intros Hdrop Hre Hex. unfold iteration. rewrite Hre.
  rewrite (exec_here PROPS_RE span i ">" rest ">" [Some ">"; None; None; None; None]
             Hdrop eq_refl).
  set (m := mkMatch _ _ _).
  assert (end_of span (Some m) = S i) as -> by (unfold end_of, match_end; simpl; lia).
  f_equal. unfold switch_matcher. rewrite Hre. unfold props_case.
  cbn [index m]. rewrite bool_decide_eq_false_2 by lia.
  change (truthy (group 1 m)) with true. cbv iota.
  unfold tag_end_case. change (group 1 m) with (Some ">").
  cbn [default String.get]. rewrite bool_decide_eq_false_2 by done.
  run_binds. unfold pending_at_end. cbn [expressing with_matcher]. by rewrite Hex.
Qed.

(** The iteration that reads the [/>] of a self-closing tag. *)
Lemma step_self_close span exp i st rest parent stk :
  Str.drop i span = "/>" +:+ rest →
  matcher st = PROPS_RE → expressing st = false → stack st = parent :: stk →
  iteration span exp i st =
    (S (S i),
     Normal (with_matcher CHILDREN_RE
               (with_stack stk (with_current (close_into parent (current st)) st)))).
Proof.
  intros Hdrop Hre Hex Hstack. unfold iteration. rewrite Hre.
  rewrite (exec_here PROPS_RE span i "/" (String ">" rest) "/>"
             [Some "/>"; None; None; None; None] Hdrop eq_refl).
  set (m := mkMatch _ _ _).
  assert (end_of span (Some m) = S (S i)) as -> by (unfold end_of, match_end; simpl; lia).
  f_equal. unfold switch_matcher. rewrite Hre. unfold props_case.
  cbn [index m]. rewrite bool_decide_eq_false_2 by lia.
  change (truthy (group 1 m)) with true. cbv iota.
  unfold tag_end_case. change (group 1 m) with (Some "/>").
  cbn [default String.get]. rewrite bool_decide_eq_true_2 by done.
  unfold pop. rewrite Hstack. run_binds.
  unfold pending_at_end. cbn [expressing with_matcher with_stack with_current].
  by rewrite Hex.
Qed.

(** The iteration that reads the [>] of a closing tag. *)
Lemma step_closing_tag span exp i st rest :
  Str.drop i span = String ">" rest →
  matcher st = CLOSING_TAG_RE →
  iteration span exp i st = (S i, Normal (with_matcher CHILDREN_RE st)).
Proof.
  intros Hdrop Hre. unfold iteration. rewrite Hre.
  rewrite (exec_here CLOSING_TAG_RE span i ">" rest ">" [] Hdrop eq_refl).
  set (m := mkMatch _ _ _).
  assert (end_of span (Some m) = S i) as -> by (unfold end_of, match_end; simpl; lia).
  f_equal. unfold switch_matcher. rewrite Hre. unfold closing_tag_case.
  cbn [index m]. by rewrite bool_decide_eq_false_2 by lia.
Qed.

(** ** Strings in quotes *)

Lemma is_quote_not_backslash q : is_quote q = true → Ascii.eqb BACKSLASH q = false.
Proof. by intros [->%Ascii.eqb_eq| ->%Ascii.eqb_eq]%orb_prop. Qed.

Lemma quoted_rest_char q c s :
  Ascii.eqb c q = false → Ascii.eqb c BACKSLASH = false →
  quoted_rest q (String c s) = String c (quoted_rest q s).
Proof.
  intros Hq Hb. cbn [quoted_rest]. rewrite Hq, Hb. by destruct s.
Qed.

Lemma quoted_rest_backslash q d s :
  is_quote q = true → Ascii.eqb d q = false →
  quoted_rest q (String BACKSLASH (String d s))
  = String BACKSLASH (quoted_rest q (String d s)).
Proof.
  intros Hq Hd. cbn [quoted_rest]. rewrite (is_quote_not_backslash q Hq), Hd.
  by rewrite andb_false_r.
Qed.

Lemma quoted_rest_escaped_quote q s :
  is_quote q = true →
  quoted_rest q (String BACKSLASH (String q s))
  = String BACKSLASH (String q (quoted_rest q s)).
Proof.
  intros Hq. cbn [quoted_rest]. rewrite (is_quote_not_backslash q Hq).
  by rewrite !Ascii.eqb_refl.
Qed.

(** The first character of an escaped text is no quote. *)
Lemma escape_head q c s rest :
  is_quote q = true →
  ∃ d e, escape (String c s) +:+ rest = String d e ∧ Ascii.eqb d q = false.
Proof.
  intros Hq. cbn [escape].
  destruct (Ascii.eqb c BACKSLASH || Ascii.eqb c DQUOTE || Ascii.eqb c SQUOTE) eqn:Hc.
  - eexists _, _. split; [by rewrite string_app_cons|].
    by rewrite (is_quote_not_backslash q Hq).
  - eexists _, _. split; [by rewrite string_app_cons|].
    apply orb_false_elim in Hc as [[_ Hd]%orb_false_elim Hs].
    apply orb_prop in Hq as [->%Ascii.eqb_eq| ->%Ascii.eqb_eq]; done.
Qed.

(** The scanner of a quoted string reads an escaped text up to the quote
    that follows it. *)
Lemma quoted_rest_escape q v rest :
  is_quote q = true → ends_with_backslash v = false →
  quoted_rest q (escape v +:+ String q rest) = escape v +:+ String q EmptyString.
Proof.
  intros Hq. induction v as [|c v IH]; intros Hv.
  - rewrite !app_empty_l. cbn [quoted_rest]. by rewrite Ascii.eqb_refl.
  - assert (v ≠ EmptyString → ends_with_backslash v = false) as Hv'.
    { intros Hne. by destruct v. }
    cbn [escape]. destruct (Ascii.eqb c BACKSLASH) eqn:Hb; cbn [orb].
    + apply Ascii.eqb_eq in Hb as ->.
      destruct v as [|c' v]; [done|]. specialize (Hv' ltac:(done)).
      rewrite !string_app_cons.
      destruct (escape_head q c' v (String q rest) Hq) as (d & e & He & Hd).
      rewrite He in IH |- *.
      rewrite (quoted_rest_backslash q BACKSLASH _ Hq).
      2:{ rewrite Ascii.eqb_sym. by apply is_quote_not_backslash. }
      rewrite (quoted_rest_backslash q d e Hq Hd). by rewrite (IH Hv').
    + assert (ends_with_backslash v = false) as Hv''.
      { destruct v; [done|]. by apply Hv'. }
      destruct (Ascii.eqb c DQUOTE || Ascii.eqb c SQUOTE) eqn:Hcq.
      * rewrite !string_app_cons. destruct (Ascii.eqb c q) eqn:Hcq'.
        { apply Ascii.eqb_eq in Hcq' as ->.
          rewrite (quoted_rest_escaped_quote q _ Hq). by rewrite (IH Hv''). }
        rewrite (quoted_rest_backslash q c _ Hq Hcq').
        rewrite (quoted_rest_char q c _ Hcq' Hb). by rewrite (IH Hv'').
      * rewrite !string_app_cons.
        assert (Ascii.eqb c q = false) as Hcq'.
        { apply orb_false_elim in Hcq as [? ?].
          apply orb_prop in Hq as [->%Ascii.eqb_eq| ->%Ascii.eqb_eq]; done. }
        rewrite (quoted_rest_char q c _ Hcq' Hb). by rewrite (IH Hv'').
Qed.

Lemma is_quote_not_space q : is_quote q = true → is_space q = false.
Proof. by intros [->%Ascii.eqb_eq| ->%Ascii.eqb_eq]%orb_prop. Qed.

(** PROPS_RE at a space, a name, [=] and a string in quotes. *)
Lemma props_at_attr k q lit rest :
  Str.nonempty k = true → Str.all is_ident k = true → is_quote q = true →
  quoted_rest q (lit +:+ String q rest) = lit +:+ String q EmptyString →
  props_at (String " " (k +:+ String "=" (String q (lit +:+ String q rest)))) =
    Some (" " +:+ k +:+ "=" +:+ String q (lit +:+ String q EmptyString),
          [None; None; Some k; Some "=";
           Some (String q (lit +:+ String q EmptyString))]).
Proof.
  intros Hne Hk Hq Hlit. destruct k as [|c k']; [done|].
  pose proof Hk as Hck. simpl in Hck. apply andb_prop in Hck as [Hc Hk'].
  unfold props_at. rewrite string_app_cons. cbn [Str.span].
  change (is_space " ") with true. cbv iota.
  rewrite (is_ident_not_space c Hc).
  unfold tag_end_at. rewrite (is_ident_not_slash c Hc). cbn [Str.span].
  rewrite (is_ident_not_space c Hc), (is_ident_not_gt c Hc).
  unfold spread_at. cbn [Str.starts_with]. rewrite (is_ident_not_dot c Hc).
  cbn [andb]. unfold prop_at. rewrite <- string_app_cons.
  rewrite (string_span_all_stop is_ident (String c k') "=" _ Hk eq_refl).
  rewrite Hne. cbn [Str.span]. change (is_space "=") with false. cbv iota.
  change (Ascii.eqb "=" "=") with true. cbv iota. cbn [Str.span].
  rewrite (is_quote_not_space q Hq). fold (is_quote q). rewrite Hq, Hlit.
  cbn [default]. by rewrite !app_empty_l.
Qed.

(** The iteration that reads a prop with a string in quotes. *)
Lemma step_attr span exp i st k q v rest :
  Str.drop i span
    = String " " (k +:+ String "=" (String q (escape v +:+ String q rest))) →
  Str.nonempty k = true → Str.all is_ident k = true → is_quote q = true →
  ends_with_backslash v = false →
  matcher st = PROPS_RE → expressing st = false →
  iteration span exp i st =
    (i + String.length (" " +:+ k +:+ "=" +:+ String q (escape v +:+ String q EmptyString)),
     Normal (assign_props {[ k := VStr v ]} st)).
Proof.
  intros Hdrop Hne Hk Hq Hv Hre Hex. unfold iteration. rewrite Hre.
  rewrite (exec_here PROPS_RE span i _ _ _ _ Hdrop
             (props_at_attr k q (escape v) rest Hne Hk Hq
                (quoted_rest_escape q v rest Hq Hv))).
  set (str := String q (escape v +:+ String q EmptyString)).
  set (m := mkMatch _ _ _).
  assert (end_of span (Some m) = i + String.length (" " +:+ k +:+ "=" +:+ str)) as ->
    by done.
  f_equal. unfold switch_matcher. rewrite Hre. unfold props_case.
  cbn [index m]. rewrite bool_decide_eq_false_2 by lia.
  change (truthy (group 1 m)) with false. change (truthy (group 2 m)) with false.
  change (group 3 m) with (Some k). unfold truthy at 1. cbn [default]. rewrite Hne.
  unfold prop_case. change (group 5 m) with (Some str). cbv iota.
  unfold pending_at_end. rewrite Hex. cbn [andb]. run_binds.
  unfold str, formatString. by rewrite slice_to_last_quoted, unescape_escape.
Qed.

(** ** Written props *)

Lemma fold_attrs_Some m attrs :
  fold_attrs (Some m) attrs = Some (foldl (λ m a, <[a.1 := VStr a.2]> m) m attrs).
Proof.
  revert m; induction attrs as [|a attrs IH]; intros m; [done|].
  cbn [fold_attrs foldl]. unfold JS.spread at 2. cbn [default].
  fold (fold_attrs (Some ({[a.1 := VStr a.2]} ∪ m)) attrs).
  by rewrite IH, insert_union_singleton_l.
Qed.

Lemma fold_attrs_None attrs : fold_attrs None attrs = attrs_props attrs.
Proof.
  destruct attrs as [|a attrs]; [done|].
  cbn [fold_attrs foldl attrs_props]. unfold JS.spread at 2. cbn [default].
  fold (fold_attrs (Some ({[a.1 := VStr a.2]} ∪ ∅)) attrs).
  by rewrite fold_attrs_Some, insert_union_singleton_l.
Qed.

Lemma drop_after i j span a b :
  Str.drop i span = a +:+ b → j = i + String.length a → Str.drop j span = b.
Proof. intros H ->. by apply drop_add. Qed.

Lemma render_attr_app k v r :
  render_attr (k, v) +:+ r
  = String " " (k +:+ String "=" (String DQUOTE (escape v +:+ String DQUOTE r))).
Proof.
  unfold render_attr. cbn [fst snd].
  by rewrite string_app_cons, app_assoc_string, string_app_cons, string_app_cons,
    app_assoc_string, string_app_cons, app_empty_l.
Qed.

Lemma render_attr_length k v :
  String.length (render_attr (k, v))
  = String.length (" " +:+ k +:+ "=" +:+ String DQUOTE (escape v +:+ String DQUOTE EmptyString)).
Proof. done. Qed.

(** The iterations that read the props of a tag. *)
Lemma attrs_steps span exp attrs :
  forallb is_attr attrs = true →
  ∀ i st rest,
    Str.drop i span = join (List.map render_attr attrs) +:+ rest →
    matcher st = PROPS_RE → expressing st = false →
    ∃ j st',
      Steps span exp i st j st'
      ∧ Str.drop j span = rest
      ∧ matcher st' = PROPS_RE ∧ expressing st' = false
      ∧ lineStart st' = lineStart st ∧ stack st' = stack st
      ∧ tag (current st') = tag (current st)
      ∧ children (current st') = children (current st)
      ∧ props (current st') = fold_attrs (props (current st)) attrs.
Proof.
  induction attrs as [|[k v] attrs IH]; intros Hok i st rest Hdrop Hre Hex.
  - exists i, st. split; [constructor|]. by rewrite app_empty_l in Hdrop.
  - cbn [forallb] in Hok. apply andb_prop in Hok as [Ha Hok].
    unfold is_attr, is_name in Ha. cbn [fst snd] in Ha.
    apply andb_prop in Ha as [[Hne Hk]%andb_prop Hv]. apply negb_true_iff in Hv.
    change (join (List.map render_attr ((k, v) :: attrs)))
      with (render_attr (k, v) +:+ join (List.map render_attr attrs)) in Hdrop.
    rewrite app_assoc_string in Hdrop.
    pose proof (drop_add _ _ _ _ Hdrop) as Hdrop1.
    rewrite render_attr_app in Hdrop.
    pose proof (step_attr span exp i st k DQUOTE v _ Hdrop Hne Hk eq_refl Hv Hre Hex)
      as Hit.
    rewrite render_attr_length in Hdrop1.
    set (j := i + _) in Hit, Hdrop1. set (st1 := assign_props _ st) in Hit.
    destruct (IH Hok j st1 rest Hdrop1 Hre Hex)
      as (j' & st' & Hsteps & Hdrop' & Hre' & Hex' & Hline' & Hstack' & Htag' & Hkids' & Hprops').
    exists j', st'. split.
    { eapply steps_next; [|exact Hit|exact Hsteps]. by eapply drop_lt. }
    repeat split; try done.
Qed.

(** ** Reading markup *)

Lemma size_pos m : 1 ≤ size m.
Proof. destruct m; simpl; lia. Qed.

Lemma drop_open i span t x r :
  Str.drop i span = t +:+ "<" +:+ x +:+ r →
  Str.drop (i + String.length t + S (String.length x)) span = r.
Proof.
  intros H. apply (drop_after i _ span (t +:+ "<" +:+ x) r).
  - by rewrite !app_assoc_string.
  - rewrite !string_length_app. simpl. lia.
Qed.

Lemma drop_close i span t x r :
  Str.drop i span = t +:+ "</" +:+ x +:+ r →
  Str.drop (i + String.length t + S (S (String.length x))) span = r.
Proof.
  intros H. apply (drop_after i _ span (t +:+ "</" +:+ x) r).
  - by rewrite !app_assoc_string.
  - rewrite !string_length_app. simpl. lia.
Qed.

Lemma drop_text_lt i span t c r :
  Str.drop i span = t +:+ String c r → i < String.length span.
Proof.
  intros H. destruct t; [|rewrite string_app_cons in H]; by eapply drop_lt.
Qed.

(** What follows the name of a tag is no identifier character. *)
Lemma attrs_head attrs c r :
  is_ident c = false →
  ∃ d r', join (List.map render_attr attrs) +:+ String c EmptyString +:+ r
          = String d r'
          ∧ is_ident d = false.
Proof.
  intros Hc. destruct attrs as [|[k v] attrs].
  - by exists c, r.
  - change (join (List.map render_attr ((k, v) :: attrs)))
      with (render_attr (k, v) +:+ join (List.map render_attr attrs)).
    rewrite app_assoc_string, render_attr_app. by eexists _, _.
Qed.

Lemma separated_cons m content :
  separated (m :: content) = true →
  separated content = true
  ∧ (is_Text m = true → head_is_text content = false).
Proof.
  destruct content as [|b content]; [done|]. cbn [separated head_is_text].
  intros [H1 H2]%andb_prop. split; [done|]. intros Hm.
  rewrite Hm in H1. by destruct (is_Text b).
Qed.

Lemma drop_S j span c r : Str.drop j span = String c r → Str.drop (S j) span = r.
Proof.
  intros H. apply (drop_after j _ span (String c EmptyString) r); [done|simpl; lia].
Qed.

Section markup.
Context (span : string) (exp : value).

(** The iterations that read an element, and those that read the content
    of an element and its closing tag, by induction on the size of what is
    read. *)
Lemma markup_steps n :
  (∀ m, size m ≤ n → well_formed m = true → is_Text m = false →
   ∀ t i st rest,
     Str.all is_plain t = true →
     t = EmptyString ∨ lineStart st = false →
     Str.drop i span = t +:+ render m +:+ rest →
     matcher st = CHILDREN_RE → expressing st = false →
     ∃ j st',
       Steps span exp i st j st' ∧ Str.drop j span = rest
       ∧ matcher st' = CHILDREN_RE ∧ expressing st' = false
       ∧ lineStart st' = false ∧ stack st' = stack st
       ∧ tag (current st') = tag (current st)
       ∧ props (current st') = props (current st)
       ∧ children (current st') = children (current st) ++ text_child t ++ [tree m])
  ∧ (∀ content,
       list_sum (List.map size content) ≤ n →
       forallb well_formed content = true → separated content = true →
       ∀ t i st x rest parent stk,
         Str.all is_plain t = true →
         t = EmptyString ∨ head_is_text content = false →
         is_name x = true →
         Str.drop i span
           = t +:+ join (List.map render content) +:+ "</" +:+ x +:+ String ">" rest →
         matcher st = CHILDREN_RE → expressing st = false → lineStart st = false →
         stack st = parent :: stk → tag (current st) = VStr x →
         ∃ j st',
           Steps span exp i st j st' ∧ Str.drop j span = rest
           ∧ matcher st' = CHILDREN_RE ∧ expressing st' = false
           ∧ lineStart st' = false ∧ stack st' = stk
           ∧ current st' =
               push_child
                 (Element (VStr x) (props (current st))
                    (children (current st) ++ text_child t ++ List.map tree content))
                 parent).
Proof.
  induction (lt_wf n) as [n _ IH].
  assert (∀ m, size m ≤ n → well_formed m = true → is_Text m = false →
   ∀ t i st rest,
     Str.all is_plain t = true →
     t = EmptyString ∨ lineStart st = false →
     Str.drop i span = t +:+ render m +:+ rest →
     matcher st = CHILDREN_RE → expressing st = false →
     ∃ j st',
       Steps span exp i st j st' ∧ Str.drop j span = rest
       ∧ matcher st' = CHILDREN_RE ∧ expressing st' = false
       ∧ lineStart st' = false ∧ stack st' = stack st
       ∧ tag (current st') = tag (current st)
       ∧ props (current st') = props (current st)
       ∧ children (current st') = children (current st) ++ text_child t ++ [tree m])
    as Helement.
  { intros m Hsize Hwf Hno t i st rest Ht Hline Hdrop Hre Hex.
    pose proof (push_text_fields t st)
      as (Hre0 & Hstack0 & Hex0 & Hline0 & Htag0 & Hprops0 & Hkids0).
    destruct m as [x attrs ks|x attrs|]; [| |done].
    - (* an element with its content *)
      cbn [well_formed] in Hwf.
      apply andb_prop in Hwf as [[[Hx Hattrs]%andb_prop Hsep]%andb_prop Hks].
      pose proof Hx as [Hne Hid]%andb_prop.
      cbn [render] in Hdrop. rewrite !app_assoc_string in Hdrop.
      (* the marker *)
      destruct (attrs_head attrs ">"
                  (join (List.map render ks) +:+ "</" +:+ x +:+ ">" +:+ rest) eq_refl)
        as (d & r' & Hhead & Hd).
      pose proof (drop_open _ _ _ _ _ Hdrop) as Hdrop1.
      pose proof Hdrop as Hdrop0. rewrite Hhead in Hdrop0.
      pose proof (step_open span exp i st t x d r' Hdrop0 Ht Hne Hid Hd Hre Hline)
        as Hit1.
      set (j1 := i + String.length t + S (String.length x)) in *.
      set (st1 := with_matcher PROPS_RE _) in Hit1.
      (* the props *)
      destruct (attrs_steps span exp attrs Hattrs j1 st1 _ Hdrop1 eq_refl)
        as (j2 & st2 & Hsteps2 & Hdrop2 & Hre2 & Hex2 & Hline2 & Hstack2 & Htag2
            & Hkids2 & Hprops2).
      { subst st1. cbn. by rewrite Hex0. }
      (* the end of the tag *)
      pose proof (step_tag_end span exp j2 st2 _ Hdrop2 Hre2 Hex2) as Hit3.
      pose proof (drop_S _ _ _ _ Hdrop2) as Hdrop3.
      set (st3 := with_matcher CHILDREN_RE st2) in Hit3.
      (* the content and the closing tag *)
      assert (list_sum (List.map size ks) < n) as Hlt by (simpl in Hsize; lia).
      destruct (IH _ Hlt) as [_ Hcontent].
      destruct (Hcontent ks ltac:(lia) Hks Hsep EmptyString (S j2) st3 x rest
                  (current (push_text t st)) (stack st))
        as (j4 & st4 & Hsteps4 & Hdrop4 & Hre4 & Hex4 & Hline4 & Hstack4 & Hcur4);
        try done.
      { by left. }
      { subst st3. cbn. rewrite Hstack2. subst st1. cbn. by rewrite Hstack0. }
      exists j4, st4. split.
      { eapply steps_next; [by eapply drop_text_lt|exact Hit1|].
        eapply steps_trans; [exact Hsteps2|].
        eapply steps_next; [by eapply drop_lt|exact Hit3|exact Hsteps4]. }
      rewrite Hcur4. cbn [tag props children push_child].
      rewrite Htag0, Hprops0, Hkids0.
      repeat split; try done.
      subst st3. cbn [current with_matcher]. rewrite Hprops2, Hkids2.
      subst st1. cbn [current with_matcher open_element with_current props children].
      rewrite fold_attrs_None. cbn [tree text_child Str.nonempty app].
      by rewrite <- app_assoc.
    - (* a self-closing element *)
      cbn [well_formed] in Hwf. apply andb_prop in Hwf as [Hx Hattrs].
      pose proof Hx as [Hne Hid]%andb_prop.
      cbn [render] in Hdrop. rewrite !app_assoc_string in Hdrop.
      destruct (attrs_head attrs "/" (">" +:+ rest) eq_refl)
        as (d & r' & Hhead & Hd).
      pose proof (drop_open _ _ _ _ _ Hdrop) as Hdrop1.
      pose proof Hdrop as Hdrop0.
      change ("/>" +:+ rest) with ("/" +:+ ">" +:+ rest) in Hdrop0.
      rewrite Hhead in Hdrop0.
      pose proof (step_open span exp i st t x d r' Hdrop0 Ht Hne Hid Hd Hre Hline)
        as Hit1.
      set (j1 := i + String.length t + S (String.length x)) in *.
      set (st1 := with_matcher PROPS_RE _) in Hit1.
      destruct (attrs_steps span exp attrs Hattrs j1 st1 _ Hdrop1 eq_refl)
        as (j2 & st2 & Hsteps2 & Hdrop2 & Hre2 & Hex2 & Hline2 & Hstack2 & Htag2
            & Hkids2 & Hprops2).
      { subst st1. cbn. by rewrite Hex0. }
      assert (stack st2 = current (push_text t st) :: stack st) as Hstack2'.
      { rewrite Hstack2. subst st1. cbn. by rewrite Hstack0. }
      pose proof (step_self_close span exp j2 st2 rest _ _ Hdrop2 Hre2 Hex2 Hstack2')
        as Hit3.
      pose proof (drop_S _ _ _ _ (drop_S _ _ _ _ Hdrop2)) as Hdrop3.
      set (st3 := with_matcher CHILDREN_RE _) in Hit3.
      exists (S (S j2)), st3. split.
      { eapply steps_next; [by eapply drop_text_lt|exact Hit1|].
        eapply steps_trans; [exact Hsteps2|].
        eapply steps_one; [by eapply drop_lt|exact Hit3]. }
      subst st3. cbn [matcher expressing lineStart stack current with_matcher
        with_stack with_current close_into push_child as_child tag props children].
      unfold as_child.
      rewrite Htag0, Hprops0, Hkids0, Hex2, Hline2, Htag2, Hprops2, Hkids2.
      subst st1. cbn [current with_matcher open_element with_current props children
        tag lineStart with_stack with_lineStart].
      rewrite fold_attrs_None. repeat split; try done.
      by rewrite <- app_assoc. }
  split; [exact Helement|].
  intros content Hsize Hwf Hsep t i st x rest parent stk Ht Htext Hx Hdrop Hre Hex
    Hline Hstack Htag.
  pose proof Hx as [Hne Hid]%andb_prop.
  pose proof (push_text_fields t st)
    as (Hre0 & Hstack0 & Hex0 & Hline0 & Htag0 & Hprops0 & Hkids0).
  destruct content as [|m content].
  - (* the closing tag *)
    cbn [List.map join foldr] in Hdrop. rewrite app_empty_l in Hdrop.
    pose proof (step_close span exp i st t x ">" rest parent stk Hdrop Ht Hne Hid
                  eq_refl Hre Hex (or_intror Hline) Hstack Htag) as Hit1.
    pose proof (drop_close _ _ _ _ _ Hdrop) as Hdrop1.
    set (j1 := i + String.length t + S (S (String.length x))) in *.
    set (st1 := with_matcher CLOSING_TAG_RE _) in Hit1.
    pose proof (step_closing_tag span exp j1 st1 rest Hdrop1 eq_refl) as Hit2.
    pose proof (drop_S _ _ _ _ Hdrop1) as Hdrop2.
    exists (S j1), (with_matcher CHILDREN_RE st1). split.
    { eapply steps_next; [by eapply drop_text_lt|exact Hit1|].
      eapply steps_one; [by eapply drop_lt|exact Hit2]. }
    subst st1. cbn [matcher expressing lineStart stack current with_matcher
      with_stack with_current with_lineStart].
    unfold close_into, as_child.
    rewrite Htag0, Hprops0, Hkids0, Hex0, Htag. repeat split; try done.
    cbn [List.map]. by rewrite app_nil_r.
  - cbn [forallb] in Hwf. apply andb_prop in Hwf as [Hm Hwf].
    apply separated_cons in Hsep as [Hsep Hhead].
    change (list_sum (List.map size (m :: content)))
      with (size m + list_sum (List.map size content)) in Hsize.
    pose proof (size_pos m) as Hpos.
    assert (list_sum (List.map size content) < n) as Hlt by lia.
    destruct (IH _ Hlt) as [_ Hcontent].
    change (join (List.map render (m :: content)))
      with (render m +:+ join (List.map render content)) in Hdrop.
    rewrite app_assoc_string in Hdrop.
    destruct (is_Text m) eqn:Hm_text.
    + (* a text: it is read with what follows it *)
      destruct m as [| |s]; [done..|]. cbn [well_formed] in Hm.
      apply andb_prop in Hm as [Hs_ne Hs_plain].
      destruct Htext as [->|Htext]; [|done].
      rewrite app_empty_l in Hdrop. cbn [render] in Hdrop.
      destruct (Hcontent content ltac:(lia) Hwf Hsep s i st x rest parent stk)
        as (j & st' & Hsteps & Hdrop' & Hre' & Hex' & Hline' & Hstack' & Hcur');
        try done.
      { right. by apply Hhead. }
      exists j, st'. repeat split; try done.
      rewrite Hcur'. unfold text_child. by rewrite Hs_ne.
    + (* an element *)
      destruct (Helement m ltac:(lia) Hm Hm_text t i st _ Ht (or_intror Hline) Hdrop
                  Hre Hex)
        as (j1 & st1 & Hsteps1 & Hdrop1 & Hre1 & Hex1 & Hline1 & Hstack1 & Htag1
            & Hprops1 & Hkids1).
      destruct (Hcontent content ltac:(lia) Hwf Hsep EmptyString j1 st1 x rest
                  parent stk)
        as (j & st' & Hsteps & Hdrop' & Hre' & Hex' & Hline' & Hstack' & Hcur');
        try done; try congruence.
      { by left. }
      exists j, st'. split; [by eapply steps_trans|].
      repeat split; try done.
      rewrite Hcur', Hprops1, Hkids1. cbn [text_child Str.nonempty app List.map].
      by rewrite <- !app_assoc.
Qed.
End markup.

Lemma parse_render_element m :
  well_formed m = true → is_Text m = false →
  parse [render m] [] = Normal (mkElement (VStr EmptyString) None [tree m]).
Proof.
  intros Hwf Hno.
  destruct (markup_steps (render m) VUndefined (size m)) as [Helement _].
  destruct (Helement m (le_n _) Hwf Hno EmptyString 0 initial EmptyString)
    as (j & st & Hsteps & Hdrop & Hre & Hex & Hline & Hstack & Htag & Hprops & Hkids);
    try done.
  { by left. }
  { by rewrite app_empty_l, app_empty_r. }
  rewrite (parse_single _ _ _ Hsteps Hdrop Hex Hstack).
  destruct (current st) as [t p cs]. simpl in *. by subst.
Qed.

(** ** White space *)

Lemma all_app p a b : Str.all p (a +:+ b) = Str.all p a && Str.all p b.
Proof.
  induction a as [|c a IH]; [done|]. rewrite string_app_cons. simpl.
  by rewrite IH, andb_assoc.
Qed.

Lemma span_fst_all p s : Str.all p (Str.span p s).1 = true.
Proof.
  induction s as [|c s IH]; [done|]. simpl. destruct (p c) eqn:Hc; [|done].
  destruct (Str.span p s) as [a b]. simpl in *. by rewrite Hc.
Qed.

Lemma span_all p s : Str.all p s = true → Str.span p s = (s, EmptyString).
Proof.
  induction s as [|c s IH]; [done|]. simpl. intros [-> Hs]%andb_prop.
  by rewrite (IH Hs).
Qed.

Lemma drop_trailing_all p s : Str.all p s = true → Str.drop_trailing p s = EmptyString.
Proof. destruct s as [|c s]; [done|]. cbn [Str.drop_trailing]. by intros ->. Qed.

Lemma is_space_not_lt c : is_space c = true → Ascii.eqb c "<" = false.
Proof. by destruct c as [[] [] [] [] [] [] [] []]. Qed.

Lemma all_impl (p q : ascii → bool) s :
  (∀ c, p c = true → q c = true) → Str.all p s = true → Str.all q s = true.
Proof.
  intros Hpq. induction s as [|c s IH]; [done|]. simpl.
  intros [Hc Hs]%andb_prop. by rewrite (Hpq c Hc), IH.
Qed.

Lemma drop_all s : Str.drop (String.length s) s = EmptyString.
Proof. induction s; [done|]. done. Qed.

(** ** Spans that end with an expression *)

(** The body of the outer loop, from the iterations of the inner loop. *)
Lemma process_span_steps n s span exp st st0 j st' :
  enter_span n s span exp st = Normal st0 →
  Steps span exp 0 st0 j st' →
  Str.drop j span = EmptyString →
  process_span n s span exp st = leave_span exp st'.
Proof.
  intros Henter Hsteps Hdrop. unfold process_span. rewrite Henter. run_binds.
  rewrite (steps_span_loop _ _ _ _ _ _ _ Hsteps) by lia.
  by rewrite span_loop_done by (by apply drop_end).
Qed.

(** PROPS_RE at a space, a name and [=], at the end of the span. *)
Lemma props_at_name_equals k :
  Str.nonempty k = true → Str.all is_ident k = true →
  props_at (String " " (k +:+ "=")) =
    Some (" " +:+ k +:+ "=", [None; None; Some k; Some "="; None]).
Proof.
  intros Hne Hk. destruct k as [|c k']; [done|].
  pose proof Hk as Hck. simpl in Hck. apply andb_prop in Hck as [Hc Hk'].
  unfold props_at. rewrite string_app_cons. cbn [Str.span].
  change (is_space " ") with true. cbv iota.
  rewrite (is_ident_not_space c Hc).
  unfold tag_end_at. rewrite (is_ident_not_slash c Hc). cbn [Str.span].
  rewrite (is_ident_not_space c Hc), (is_ident_not_gt c Hc).
  unfold spread_at. cbn [Str.starts_with]. rewrite (is_ident_not_dot c Hc).
  cbn [andb]. unfold prop_at. rewrite <- string_app_cons.
  rewrite (string_span_all_stop is_ident (String c k') "=" _ Hk eq_refl).
  rewrite Hne. cbn [Str.span]. change (is_space "=") with false. cbv iota.
  change (Ascii.eqb "=" "=") with true. cbv iota. cbn [Str.span default].
  by rewrite !app_empty_l, app_empty_r.
Qed.

(** A span that is a space, a name and [=], with the expression that
    follows it: the prop is given the expression. *)
Lemma process_span_prop_expression n s k exp st :
  Str.nonempty k = true → Str.all is_ident k = true →
  s < n - 1 → matcher st = PROPS_RE →
  process_span n s (" " +:+ k +:+ "=") exp st =
    Normal (assign_props {[ k := exp ]} (with_expressing false st)).
Proof.
  intros Hne Hk Hs Hre.
  set (span := " " +:+ k +:+ "=").
  assert (enter_span n s span exp st = Normal (with_expressing true st)) as Henter.
  { rewrite enter_span_nonempty by done.
    by rewrite (bool_decide_eq_true_2 (s < n - 1)) by done. }
  set (st0 := with_expressing true st).
  assert (Str.drop 0 span = String " " (k +:+ "=")) as Hdrop by done.
  pose proof (exec_here PROPS_RE span 0 _ _ _ _ Hdrop (props_at_name_equals k Hne Hk))
    as Hexec.
  set (m := mkMatch _ _ _) in Hexec.
  assert (iteration span exp 0 st0
          = (String.length span,
             Normal (assign_props {[ k := exp ]} (with_expressing false st)))) as Hit.
  { rewrite (surjective_pairing (iteration span exp 0 st0)). f_equal.
    - unfold iteration. cbn [fst]. change (matcher st0) with (matcher st).
      by rewrite Hre, Hexec.
    - rewrite (prop_without_string span exp 0 m st0 k Hre Hexec eq_refl eq_refl eq_refl).
      change (truthy (group 4 m)) with true. cbn [negb].
      rewrite bool_decide_eq_false_2 by (unfold match_end; simpl; lia).
      done. }
  rewrite (process_span_steps n s span exp st st0 (String.length span)
             (assign_props {[ k := exp ]} (with_expressing false st)) Henter).
  - done.
  - apply steps_one; [simpl; lia|done].
  - apply drop_all.
Qed.

(** The span [<] with the expression that follows it: an element whose tag
    is the expression is opened. *)
Lemma process_span_open_expression n s T cur stk ls pn pv ex :
  s < n - 1 →
  process_span n s "<" T (mkLocals cur stk CHILDREN_RE ls pn pv ex) =
    Normal (mkLocals (mkElement T None []) (cur :: stk) PROPS_RE false pn pv false).
Proof.
  intros Hs. unfold process_span, enter_span.
  rewrite (bool_decide_eq_true_2 (s < n - 1)) by done. reflexivity.
Qed.

(** The span [>] that ends an opening tag, with the expression that follows
    it: the expression is the first child. *)
Lemma process_span_child_expression n s c cur stk ls pn pv ex :
  s < n - 1 →
  process_span n s ">" c (mkLocals cur stk PROPS_RE ls pn pv ex) =
    Normal (mkLocals (push_child (Value c) cur) stk CHILDREN_RE ls pn pv false).
Proof.
  intros Hs. unfold process_span, enter_span.
  rewrite (bool_decide_eq_true_2 (s < n - 1)) by done. reflexivity.
Qed.

(** The span [</] with the expression that follows it: the current element
    is closed when its tag is the expression. *)
Lemma process_span_close_expression n s T cur parent stk ls pn pv ex :
  s < n - 1 →
  process_span n s "</" T (mkLocals cur (parent :: stk) CHILDREN_RE ls pn pv ex) =
    if JS.strict_equal (tag cur) T
    then Normal (mkLocals (close_into parent cur) stk CLOSING_TAG_RE false pn pv false)
    else Throw MismatchedClosingTag.
Proof.
  intros Hs. unfold process_span, enter_span.
  rewrite (bool_decide_eq_true_2 (s < n - 1)) by done.
  cbv -[JS.strict_equal tag].
  by destruct (JS.strict_equal (tag cur) T).
Qed.

(** The last span [>], after a closing tag. *)
Lemma process_span_closing_tag n s exp cur stk ls pn pv ex :
  ¬ s < n - 1 →
  process_span n s ">" exp (mkLocals cur stk CLOSING_TAG_RE ls pn pv ex) =
    Normal (mkLocals cur stk CHILDREN_RE ls pn pv false).
Proof.
  intros Hs. unfold process_span, enter_span.
  rewrite (bool_decide_eq_false_2 (s < n - 1)) by done. reflexivity.
Qed.

(** ** White space in a tag *)



(** ** A string in quotes that an expression interrupts *)

Lemma quoted_rest_quote_free q s : quote_free q s = true → quoted_rest q s = s.
Proof.
  induction s as [|c s IH]; [done|]. unfold quote_free. cbn [Str.all].
  intros [[Hq Hb]%andb_prop Hs]%andb_prop.
  apply negb_true_iff in Hq, Hb.
  rewrite (quoted_rest_char q c s Hq Hb). by rewrite (IH Hs).
Qed.

(** PROPS_RE at a space, a name, [=] and a string that runs to the end of
    the span. *)
Lemma props_at_open_string k q a :
  Str.nonempty k = true → Str.all is_ident k = true → is_quote q = true →
  quote_free q a = true →
  props_at (String " " (k +:+ String "=" (String q a))) =
    Some (" " +:+ k +:+ "=" +:+ String q a,
          [None; None; Some k; Some "="; Some (String q a)]).
Proof.
  intros Hne Hk Hq Ha. destruct k as [|c k']; [done|].
  pose proof Hk as Hck. simpl in Hck. apply andb_prop in Hck as [Hc Hk'].
  unfold props_at. rewrite string_app_cons. cbn [Str.span].
  change (is_space " ") with true. cbv iota.
  rewrite (is_ident_not_space c Hc).
  unfold tag_end_at. rewrite (is_ident_not_slash c Hc). cbn [Str.span].
  rewrite (is_ident_not_space c Hc), (is_ident_not_gt c Hc).
  unfold spread_at. cbn [Str.starts_with]. rewrite (is_ident_not_dot c Hc).
  cbn [andb]. unfold prop_at. rewrite <- string_app_cons.
  rewrite (string_span_all_stop is_ident (String c k') "=" _ Hk eq_refl).
  rewrite Hne. cbn [Str.span]. change (is_space "=") with false. cbv iota.
  change (Ascii.eqb "=" "=") with true. cbv iota. cbn [Str.span].
  rewrite (is_quote_not_space q Hq). fold (is_quote q).
  rewrite Hq, (quoted_rest_quote_free q a Ha).
  cbn [default]. by rewrite !app_empty_l.
Qed.

(** The closing quote is found after a text with no quote and no backslash,
    when no second quote follows it. *)
Lemma search_closing_quote q b d rest idx :
  is_quote q = true → quote_free q b = true → Ascii.eqb d q = false →
  ∃ m, search (closing_quote_at q) (b +:+ String q (String d rest)) idx = Some m
       ∧ idx ≤ index m
       ∧ match_end m = idx + String.length b + 1.
Proof.
  intros Hq Hb Hd. revert idx. induction b as [|c b IH]; intros idx.
  - rewrite app_empty_l. cbn [search closing_quote_at].
    rewrite Hd, andb_false_r, Ascii.eqb_refl.
    eexists. split; [done|]. unfold match_end. simpl. lia.
  - unfold quote_free in Hb. cbn [Str.all] in Hb.
    apply andb_prop in Hb as [[Hcq Hcb]%andb_prop Hb].
    apply negb_true_iff in Hcq, Hcb.
    rewrite string_app_cons. cbn [search]. unfold closing_quote_at at 1.
    destruct b as [|c' b].
    + rewrite app_empty_l. rewrite Hcb, Ascii.eqb_refl. cbn [negb andb].
      eexists. split; [done|]. unfold match_end. simpl. lia.
    + rewrite string_app_cons.
      pose proof Hb as Hb'. unfold quote_free in Hb'. cbn [Str.all] in Hb'.
      apply andb_prop in Hb' as [[Hc'q _]%andb_prop _].
      apply negb_true_iff in Hc'q. rewrite Hc'q, andb_false_r, Hcq.
      destruct (IH Hb (S idx)) as (m & Hm & Hidx & Hend).
      rewrite string_app_cons in Hm. exists m. split; [done|].
      split; [lia|]. rewrite Hend. simpl. lia.
Qed.

Lemma attempt_closing_quote q :
  is_quote q = true → attempt (closing_quote_of q) = closing_quote_at q.
Proof. by intros [->%Ascii.eqb_eq| ->%Ascii.eqb_eq]%orb_prop. Qed.

Lemma closing_quote_of_cases q :
  closing_quote_of q = CLOSING_SINGLE_QUOTE_RE
  ∨ closing_quote_of q = CLOSING_DOUBLE_QUOTE_RE.
Proof. unfold closing_quote_of. destruct (Ascii.eqb q SQUOTE); by eauto. Qed.

(** The iteration that reads a prop whose string runs into an expression:
    the name and the string so far are kept, with the text of the
    expression, and the scanner turns to the closing quote; when [String]
    throws on the expression, so does the iteration. *)
Lemma step_open_string span exp i st k q a :
  Str.drop i span = String " " (k +:+ String "=" (String q a)) →
  Str.nonempty k = true → Str.all is_ident k = true → is_quote q = true →
  quote_free q a = true →
  matcher st = PROPS_RE → expressing st = true →
  iteration span exp i st =
    (String.length span,
     st1 ← append_unless_boolean_or_nullish exp
             (with_propValue (String q a) (with_propName k st));
     mret (with_expressing false (with_matcher (closing_quote_of q) st1))).
Proof.
  intros Hdrop Hne Hk Hq Ha Hre Hex. unfold iteration. rewrite Hre.
  rewrite (exec_here PROPS_RE span i _ _ _ _ Hdrop
             (props_at_open_string k q a Hne Hk Hq Ha)).
  set (str := String q a). set (m := mkMatch _ _ _).
  assert (end_of span (Some m) = String.length span) as Hend.
  { unfold end_of, match_end, m. cbn [index matched].
    pose proof (length_drop i span) as Hlen. rewrite Hdrop in Hlen.
    pose proof (drop_lt _ _ _ _ Hdrop).
    change (String.length (" " +:+ k +:+ "=" +:+ str))
      with (String.length (String " " (k +:+ String "=" (String q a)))).
    lia. }
  rewrite Hend. f_equal. unfold switch_matcher. rewrite Hre. unfold props_case.
  cbn [index m]. rewrite bool_decide_eq_false_2 by lia.
  change (truthy (group 1 m)) with false. change (truthy (group 2 m)) with false.
  change (group 3 m) with (Some k). unfold truthy at 1. cbn [default]. rewrite Hne.
  unfold prop_case. change (group 5 m) with (Some str). cbv iota.
  unfold pending_at_end. rewrite Hex, bool_decide_eq_true_2 by done. cbn [andb].
  destruct (append_unless_boolean_or_nullish _ _) as [st1|]; [|done].
  run_binds. do 3 f_equal. unfold closing_quote_of, str. cbn [String.get].
  apply orb_prop in Hq as [->%Ascii.eqb_eq| ->%Ascii.eqb_eq]; done.
Qed.

(** The iteration that reads the rest of a string up to its closing quote:
    the prop is given the unescaped value. *)
Lemma step_closing_quote span exp i st q b d rest :
  Str.drop i span = b +:+ String q (String d rest) →
  is_quote q = true → quote_free q b = true → Ascii.eqb d q = false →
  matcher st = closing_quote_of q → expressing st = false →
  iteration span exp i st =
    (i + String.length b + 1,
     Normal (let value := propValue st +:+ b +:+ String q EmptyString in
             assign_props {[ propName st := VStr (formatString value) ]}
               (with_matcher PROPS_RE (with_propValue value st)))).
Proof.
  intros Hdrop Hq Hb Hd Hre Hex.
  destruct (search_closing_quote q b d rest i Hq Hb Hd) as (m & Hm & Hidx & Hend).
  assert (i < String.length span) as Hi by (by eapply drop_text_lt).
  assert (exec (matcher st) span i = Some m) as Hexec.
  { unfold exec, exec_with. rewrite decide_True by lia.
    by rewrite Hre, (attempt_closing_quote q Hq), Hdrop. }
  assert (Str.slice span i (i + String.length b + 1) = b +:+ String q EmptyString)
    as Hslice.
  { replace (i + String.length b + 1)
      with (i + String.length (b +:+ String q EmptyString))
      by (rewrite string_length_app; simpl; lia).
    apply (slice_text span i _ (String d rest)). by rewrite app_assoc_string. }
  unfold iteration. rewrite Hexec. cbn [end_of]. rewrite Hend. f_equal.
  unfold switch_matcher, closing_quote_case, pending_at_end.
  rewrite Hslice.
  destruct (closing_quote_of_cases q) as [Hcase|Hcase]; rewrite Hre, Hcase;
    cbn [expressing with_matcher with_propValue]; rewrite Hex; cbn [andb];
    run_binds; by rewrite <- !app_assoc_string.
Qed.

Lemma append_interpolated exp st :
  append_unless_boolean_or_nullish exp st
  = match interpolated exp with
    | Some text => Normal (with_propValue (propValue st +:+ text) st)
    | None => Abort TypeError
    end.
Proof.
  unfold append_unless_boolean_or_nullish, append_text, interpolated.
  destruct (JS.is_boolean exp), (JS.is_nullish exp); cbn [negb andb orb]; try done;
    destruct st; unfold with_propValue; cbn; by rewrite app_empty_r.
Qed.

(** ** Where a [TypeError] comes from *)

Lemma append_text_type_error exp st x :
  append_text exp st = Abort x → JS.to_text exp = None.
Proof. unfold append_text. by destruct (JS.to_text exp). Qed.

Lemma append_unless_nullish_type_error exp st x :
  append_unless_nullish exp st = Abort x → JS.to_text exp = None.
Proof.
  unfold append_unless_nullish.
  destruct (negb _); [apply append_text_type_error|done].
Qed.

Lemma append_unless_boolean_or_nullish_type_error exp st x :
  append_unless_boolean_or_nullish exp st = Abort x → JS.to_text exp = None.
Proof.
  unfold append_unless_boolean_or_nullish.
  destruct (_ && _); [apply append_text_type_error|done].
Qed.

Lemma to_text_String exp : JS.to_text exp = None → JS.String_ exp = None.
Proof. by destruct exp. Qed.

(** The lines before the inner loop and the iterations of the inner loop
    throw a [TypeError] only where [String] does. *)
Lemma enter_span_type_error n s span exp st x :
  enter_span n s span exp st = Abort x → JS.String_ exp = None.
Proof.
  unfold enter_span, consecutive_expressions. intros Henter.
  apply to_text_String.
  destruct (_ && _); [|done].
  destruct (matcher _); try done.
  all: destruct (append_unless_boolean_or_nullish _ _) as [st1|y] eqn:Happend;
    [done|]; by eapply append_unless_boolean_or_nullish_type_error.
Qed.

Lemma switch_matcher_type_error span exp i match_ end_ st :
  switch_matcher span exp i match_ end_ st = Abort TypeError →
  JS.String_ exp = None.
Proof.
  intros Hcase. apply to_text_String. revert Hcase.
  unfold switch_matcher. destruct (matcher st).
  - unfold children_case. destruct match_ as [m|]; simpl; [|done].
    set (st1 := with_lineStart _ _). clearbody st1.
    destruct (truthy (group 2 m)); [done|].
    destruct (truthy (group 3 m)); [|done].
    unfold tag_case. set (st2 := if pending_at_end span end_ st1 then _ else _).
    clearbody st2. destruct (truthy (group 4 m)); [|done].
    case_bool_decide as Hst; [done|]. destruct (_ && _); [done|].
    unfold pop. by destruct (stack st2).
  - unfold props_case. destruct match_ as [m|]; [|by destruct (negb _)].
    destruct (bool_decide _); [done|].
    destruct (truthy (group 1 m)).
    { unfold tag_end_case, pop. destruct (bool_decide _); [|done].
      by destruct (stack st). }
    destruct (truthy (group 2 m)); [unfold spread_case; by destruct (negb _)|].
    destruct (truthy (group 3 m)); [|done].
    unfold prop_case. destruct (group 5 m) as [str|]; [|by repeat case_match].
    destruct (pending_at_end span end_ st); [|done].
    destruct (append_unless_boolean_or_nullish _ _) as [st1|y] eqn:Happend;
      [done|].
    intros _. by eapply append_unless_boolean_or_nullish_type_error.
  - unfold closing_tag_case. repeat case_match; done.
  - unfold closing_quote_case.
    set (st1 := match match_ with Some _ => _ | None => _ end). clearbody st1.
    destruct (pending_at_end span end_ st1); [|done].
    destruct (append_unless_nullish exp st1) as [st2|y] eqn:Happend; [done|].
    intros _. by eapply append_unless_nullish_type_error.
  - unfold closing_quote_case.
    set (st1 := match match_ with Some _ => _ | None => _ end). clearbody st1.
    destruct (pending_at_end span end_ st1); [|done].
    destruct (append_unless_nullish exp st1) as [st2|y] eqn:Happend; [done|].
    intros _. by eapply append_unless_nullish_type_error.
  - unfold closing_comment_case. repeat case_match; done.
Qed.

Lemma expression_at_cases expressions s :
  expression_at expressions s = VUndefined
  ∨ expression_at expressions s ∈ expressions.
Proof.
  unfold expression_at. destruct (expressions !! s) as [v|] eqn:Hv; [|by left].
  right. by eapply list_elem_of_lookup_2.
Qed.

(** * Further properties *)

(** ** X1 *)

(** X1.  [parse] always completes, and what it returns is the wrapper.  For
    all spans and expressions it returns an element, and then the element
    is the wrapper it started from (its tag is the empty string and its
    props are [null]), or throws a [SyntaxError], or lets through what
    [String] or [JSON.stringify] throws on an expression; and when
    [String] and [JSON.stringify] throw on none of the expressions, it
    returns the wrapper or throws a [SyntaxError].  The inner loop is never
    cut off and [current] is never left undefined by the pop of a
    self-closing tag. *)
Theorem parse_returns_wrapper_or_throws spans expressions :
  ((∃ root, parse spans expressions = Normal root
            ∧ tag root = VStr EmptyString ∧ props root = None)
   ∨ (∃ e, parse spans expressions = Throw e)
   ∨ parse spans expressions = Abort TypeError)
  ∧ ((∀ v, v ∈ expressions →
           JS.String_ v ≠ None ∧ JS.stringify_throws v = false) →
     (∃ root, parse spans expressions = Normal root
              ∧ tag root = VStr EmptyString ∧ props root = None)
     ∨ (∃ e, parse spans expressions = Throw e)).
Proof.
  assert ((∃ root, parse spans expressions = Normal root
                   ∧ tag root = VStr EmptyString ∧ props root = None)
          ∨ (∃ e, parse spans expressions = Throw e)
          ∨ parse spans expressions = Abort TypeError) as Hcases.
  { destruct (parse_returns_or_throws spans expressions) as [[root Hp]|?];
      [|by right].
    left. exists root. split; [done|]. by apply (parse_returns_wrapper _ _ _ Hp). }
  split; [done|]. intros Hsafe.
  destruct Hcases as [?|[?|Hp]]; [by left|by right|exfalso].
  assert (∀ s, JS.String_ (expression_at expressions s) ≠ None
               ∧ JS.stringify_throws (expression_at expressions s) = false)
    as Hat.
  { intros s. destruct (expression_at_cases expressions s) as [-> |Hin];
      [done|by apply Hsafe]. }
  destruct (parse_abort_origin _ _ _ Hp)
    as [s span st Hs Hreach Henter
       |s span i st (Hs & Hreach & Hi) Hit
       |s span i st _ _ _ _ Hleave
       |st _ _ [=]].
  - apply enter_span_type_error in Henter. by destruct (Hat s).
  - apply switch_matcher_type_error in Hit. by destruct (Hat s).
  - unfold leave_span in Hleave. destruct (Hat s) as [_ Hjson].
    rewrite Hjson in Hleave. by destruct (expressing st).
Qed.

(** [<p ${1}/>]: no conversion throws on the number 1, and [parse] returns
    the wrapper or throws a [SyntaxError]. *)
Lemma parse_returns_wrapper_or_throws_witness :
  (∃ root, parse ["<p "; "/>"] [VNum 1] = Normal root
           ∧ tag root = VStr EmptyString ∧ props root = None)
  ∨ (∃ e, parse ["<p "; "/>"] [VNum 1] = Throw e).
Proof.
  apply (proj2 (parse_returns_wrapper_or_throws ["<p "; "/>"] [VNum 1])).
  intros v ->%list_elem_of_singleton. done.
Defined.

(** ** X2 *)

(** X2.  An iteration of the inner loop that starts at a position [i]
    inside the span sets the next position [end] so that
    [i < end <= span.length], whatever the mode and the locals: a match is
    never empty and never runs past the span, and without a match [end] is
    [span.length]. *)
Theorem inner_loop_advances span exp i st :
  i < String.length span →
  i < (iteration span exp i st).1 ≤ String.length span.
Proof. apply iteration_bounds. Qed.

Lemma inner_loop_advances_witness :
  0 < (iteration "<p/>" VUndefined 0 initial).1 ≤ 4.
Proof. apply (inner_loop_advances "<p/>" VUndefined 0 initial). simpl. lia. Defined.

(** ** X3 *)

(** X3.  Every [SyntaxError] of [parse] comes from one of three places:
    - the [switch] of an iteration that the run reaches, and then it is an
      error of the mode of that iteration ([may_throw]: the closing-tag
      errors in Children mode; unexpected text, missing spread expression
      and expression expected in Props mode; unexpected text in ClosingTag
      mode; the missing terminator in ClosingComment mode; nothing in the
      closing-quote modes);
    - the check after the inner loop, and then it is [UnexpectedExpression]
      and an expression is still pending at the end of a span;
    - the check after the outer loop, and then it is [UnmatchedOpeningTag]
      and the stack is not empty after the last span. *)
Theorem parse_error_places spans expressions e :
  parse spans expressions = Throw e →
  (∃ s span i st,
      Runs spans expressions s span i st
      ∧ (iteration span (expression_at expressions s) i st).2 = Throw e
      ∧ may_throw (matcher st) e = true)
  ∨ (e = UnexpectedExpression
     ∧ ∃ s span i st,
         spans !! s = Some span
         ∧ Reaches spans expressions (AtIndex s i) st
         ∧ String.length span ≤ i
         ∧ expressing st = true)
  ∨ (e = UnmatchedOpeningTag
     ∧ ∃ st, Reaches spans expressions (AtSpan (length spans)) st ∧ stack st ≠ []).
Proof.
  intros Hp. destruct (parse_abort_origin _ _ _ Hp)
    as [s span st Hs Hr Henter
       |s span i st Hrun Hit
       |s span i st Hs Hr Hi Hex He
       |st Hr Hst He].
  - by apply enter_span_abort in Henter.
  - left. exists s, span, i, st. split; [done|]. split; [done|].
    unfold iteration in Hit. cbn [snd] in Hit.
    by apply switch_matcher_may_throw in Hit.
  - right; left. unfold leave_span in He. rewrite Hex in He.
    destruct (JS.stringify_throws _); [done|]. injection He as ->.
    split; [done|]. by exists s, span, i, st.
  - right; right. injection He as ->. split; [done|]. by exists st.
Qed.

Lemma parse_error_places_witness :
  parse ["<p>"] [] = Throw UnmatchedOpeningTag
  ∧ ((∃ s span i st,
      Runs ["<p>"] [] s span i st
      ∧ (iteration span (expression_at [] s) i st).2 = Throw UnmatchedOpeningTag
      ∧ may_throw (matcher st) UnmatchedOpeningTag = true)
  ∨ (UnmatchedOpeningTag = UnexpectedExpression
     ∧ ∃ s span i st,
         ["<p>"] !! s = Some span
         ∧ Reaches ["<p>"] [] (AtIndex s i) st
         ∧ String.length span ≤ i
         ∧ expressing st = true)
  ∨ (UnmatchedOpeningTag = UnmatchedOpeningTag
     ∧ ∃ st, Reaches ["<p>"] [] (AtSpan (length ["<p>"])) st ∧ stack st ≠ [])).
Proof.
  split; [by vm_compute|].
  apply (parse_error_places ["<p>"] [] UnmatchedOpeningTag). by vm_compute.
Defined.

(** ** X4 *)

(** X4.  A template without markers: when no span holds a line end or a
    [<], [parse] returns the wrapper whose children are, span after span,
    the text of the span when it is not empty and then the expression that
    follows the span.  The text before an expression is kept as it is, the
    text of the last span loses its trailing white space, and leading white
    space is kept; an empty span between two expressions gives the
    expression alone. *)
Theorem parse_plain spans expressions :
  Forall (λ span, Str.all is_plain span = true) spans →
  parse spans expressions =
    Normal (mkElement (VStr EmptyString) None
              (plain_children (length spans) expressions 0 spans)).
Proof.
  intros Hplain. unfold parse.
  destruct (spans_loop_plain (length spans) expressions spans Hplain 0 initial eq_refl)
    as (st & -> & Hst & Hcur).
  run_binds. unfold finish. rewrite Hst. cbn [stack initial].
  rewrite bool_decide_eq_false_2 by (by intros H). run_binds.
  by rewrite Hcur.
Qed.

Lemma parse_plain_witness :
  parse ["a "; EmptyString; " b "] [VNum 1; VBool true] =
    Normal (mkElement (VStr EmptyString) None
              [Value (VStr "a "); Value (VNum 1); Value (VBool true); Value (VStr " b")]).
Proof.
  apply (parse_plain ["a "; EmptyString; " b "] [VNum 1; VBool true]).
  repeat constructor.
Defined.

(** ** X5 *)

(** X5.  A template of one span of white space only, line ends included,
    has no children: [parse] returns the bare wrapper and [template] returns
    [c] of the empty string. *)
Theorem parse_blank s :
  Str.all is_space s = true →
  parse [s] [] = Normal (mkElement (VStr EmptyString) None [])
  ∧ template [s] [] = Normal (Crank.c (VStr EmptyString) Crank.Absent []).
Proof.
  intros Hs.
  assert (parse [s] [] = Normal (mkElement (VStr EmptyString) None [])) as Hparse.
  2:{ split; [done|]. unfold template. by rewrite Hparse. }
  pose proof (span_app (λ c, negb (is_eol c)) s) as Happ.
  pose proof (span_fst_all (λ c, negb (is_eol c)) s) as Ha.
  pose proof (span_snd_head (λ c, negb (is_eol c)) s) as Hb.
  destruct (Str.span (λ c, negb (is_eol c)) s) as [a b]. cbn [fst snd] in *.
  rewrite <- Happ, all_app in Hs. apply andb_prop in Hs as [Hsa Hsb].
  assert (Str.all is_plain a = true) as Hplain.
  { clear Happ. induction a as [|c a IH]; [done|]. simpl in *.
    apply andb_prop in Ha as [Hc Ha]. apply andb_prop in Hsa as [Hsc Hsa].
    unfold is_plain at 1. rewrite Hc, (is_space_not_lt c Hsc). by apply IH. }
  destruct b as [|c b].
  - (* no line end *)
    rewrite app_empty_r in Happ. subst a. unfold parse. cbn [spans_loop length].
    destruct (process_plain_span 1 0 s (expression_at [] 0) initial Hplain eq_refl)
      as (st & -> & Hre & Hstack & Hcur).
    run_binds. unfold finish. rewrite Hstack. cbn [stack initial].
    rewrite bool_decide_eq_false_2 by (by intros ?). run_binds.
    rewrite Hcur. unfold plain_span_children, trim_trailing.
    change (bool_decide (0 < 1 - 1)) with false. cbv iota.
    by rewrite (drop_trailing_all _ _ Hsa).
  - (* a line end: the match runs to the end of the span *)
    specialize (Hb c b eq_refl). apply negb_false_iff in Hb.
    simpl in Hsb. apply andb_prop in Hsb as [_ Hsb].
    assert (children_at (String c b)
            = Some (String c b, [Some (String c b); None; None; None; None])) as Hat.
    { unfold children_at. by rewrite Hb, (span_all _ _ Hsb). }
    assert (Str.drop 0 s = a +:+ String c b) as Hdrop by done.
    pose proof (exec_children_skip s 0 a c b _ _ Hdrop Hplain Hat) as Hexec.
    cbn [Nat.add] in Hexec.
    set (m := mkMatch _ _ _) in Hexec.
    assert (match_end m = String.length s) as Hend.
    { unfold match_end, m. cbn [index matched]. by rewrite <- Happ, string_length_app. }
    assert (iteration s VUndefined 0 initial
            = (String.length s, Normal (with_lineStart true initial))) as Hit.
    { rewrite (surjective_pairing (iteration s VUndefined 0 initial)). f_equal.
      - unfold iteration. cbn [fst]. change (matcher initial) with CHILDREN_RE.
        rewrite Hexec. done.
      - rewrite (newline_step s VUndefined 0 m initial (String c b) eq_refl Hexec eq_refl).
        f_equal. unfold push_pending_child, pending_at_end.
        cbn [expressing with_lineStart].
        assert (push_text_before s 0 m initial = initial) as ->; [|done].
        unfold push_text_before. destruct (bool_decide (0 < index m)); [|done].
        assert (text_before s 0 m initial = EmptyString) as ->; [|done].
        unfold text_before. cbn [lineStart initial index m].
        pose proof (slice_text s 0 a _ Hdrop) as Hslice. cbn [Nat.add] in Hslice.
        rewrite Hslice. unfold trim_leading.
        rewrite (span_all _ _ Hsa). cbn [snd].
        change (truthy (group 1 m)) with true. cbv iota.
        by destruct (bool_decide _). }
    assert (0 < String.length s) as Hlen.
    { rewrite <- Happ, string_length_app. simpl. lia. }
    apply (parse_single s (String.length s) (with_lineStart true initial)).
    + by apply steps_one.
    + apply drop_all.
    + done.
    + done.
Qed.

Lemma parse_blank_witness :
  parse [String " " (String LF (String " " EmptyString))] [] =
    Normal (mkElement (VStr EmptyString) None []).
Proof.
  apply (parse_blank (String " " (String LF (String " " EmptyString)))). done.
Defined.

(** ** X6 *)

(** X6.  A comment gives no child.  For a body that does not hold the
    terminator and a text with no line end and no [<], the span made of the
    comment and the text parses to the wrapper whose only child is the text
    without its trailing white space, or to the bare wrapper when nothing
    is left of the text. *)
Theorem parse_comment body text :
  contains "-->" body = false →
  Str.all is_plain text = true →
  parse ["<!--" +:+ body +:+ "-->" +:+ text] [] =
    Normal (mkElement (VStr EmptyString) None (text_child (trim_trailing text))).
Proof.
  intros Hno Hplain. unfold parse. cbn [spans_loop length].
  unfold process_span, enter_span, consecutive_expressions.
  set (exp := expression_at [] 0).
  change (bool_decide (0 < 1 - 1)) with false.
  cbn [expressing with_expressing andb].
  set (st0 := with_expressing false initial). run_binds.
  set (i := 4 + String.length body + 3).
  pose proof (comment_length body text) as Hlen.
  pose proof (iteration_comment body text exp st0 Hno eq_refl) as Hit.
  pose proof (drop_comment body text) as Hdrop.
  fold i in Hit, Hdrop.
  set (span := "<!--" +:+ body +:+ "-->" +:+ text) in *. clearbody span.
  rewrite (span_loop_unfold (String.length span) span exp 0 st0) by lia.
  rewrite Hit. cbn [fst snd]. run_binds.
  destruct text as [|c text].
  - cbn [Str.nonempty]. rewrite span_loop_done by (simpl in Hlen; lia).
    by vm_compute.
  - cbn [Str.nonempty]. set (text' := String c text) in *.
    set (st1 := with_lineStart false st0).
    assert (i < String.length span) as Hi by (subst i text'; simpl in Hlen; lia).
    rewrite (span_loop_unfold (String.length span) span exp i st1) by lia.
    unfold iteration. cbn [fst snd].
    assert (exec CHILDREN_RE span i = None) as Hex.
    { apply exec_children_plain_from. by rewrite Hdrop. }
    change (matcher st1) with CHILDREN_RE. rewrite Hex.
    unfold end_of.
    unfold switch_matcher. change (matcher st1) with CHILDREN_RE.
    unfold children_case. run_binds.
    unfold push_text_after, push_pending_child, pending_at_end.
    rewrite (bool_decide_eq_true_2 (i < String.length span)) by done.
    change (expressing st1) with false. cbn [negb].
    unfold Str.slice_from. rewrite Hdrop.
    unfold text_child. destruct (Str.nonempty (trim_trailing text')).
    + cbn [expressing push_value with_current andb].
      rewrite span_loop_done by done. done.
    + cbn [expressing andb]. rewrite span_loop_done by done. done.
Qed.

Lemma parse_comment_witness :
  parse ["<!-- a > b -->text "] [] =
    Normal (mkElement (VStr EmptyString) None [Value (VStr "text")]).
Proof. by apply (parse_comment " a > b " "text "). Defined.

(** ** X7 *)

(** X7.  The expression that follows a comment at the end of a span is
    dropped, and the next span is read in ClosingComment mode, although the
    comment was closed: for two spans, the first a whole comment, [parse]
    returns the bare wrapper when the second span is empty, and throws
    [MissingCommentTerminator] when the second span is not empty and does
    not hold the terminator. *)
Theorem expression_after_comment body text v :
  contains "-->" body = false →
  contains "-->" text = false →
  parse ["<!--" +:+ body +:+ "-->"; text] [v] =
    if Str.nonempty text then Throw MissingCommentTerminator
    else Normal (mkElement (VStr EmptyString) None []).
Proof.
  intros Hbody Htext. unfold parse. cbn [spans_loop length].
  rewrite (process_span_comment 2 0 body _ initial Hbody eq_refl). run_binds.
  set (exp1 := expression_at [v] 1).
  set (st1 := with_expressing false _).
  unfold process_span, enter_span, consecutive_expressions.
  change (bool_decide (1 < 2 - 1)) with false.
  cbn [expressing with_expressing andb]. run_binds.
  set (st2 := with_expressing false st1).
  destruct text as [|c text].
  - by vm_compute.
  - set (text' := String c text) in *. cbn [Str.nonempty].
    rewrite (span_loop_unfold (String.length text') text' exp1 0 st2)
      by (simpl; lia).
    unfold iteration. cbn [fst snd]. change (matcher st2) with CLOSING_COMMENT_RE.
    rewrite (exec_no_terminator text' Htext).
    unfold switch_matcher. change (matcher st2) with CLOSING_COMMENT_RE.
    unfold closing_comment_case. change (expressing st2) with false. done.
Qed.

Lemma expression_after_comment_witness :
  parse ["<!--a-->"; "<p/>"] [VNum 1] = Throw MissingCommentTerminator.
Proof. by apply (expression_after_comment "a" "<p/>" (VNum 1)). Defined.

(** ** X8 *)

(** X8.  [formatString] undoes [escape]: for every string [s], the text
    of [s] with a backslash before each backslash and each quote, between
    two characters (the quotes), is mapped back to [s]. *)
Theorem formatString_escape q q' s :
  formatString (String q (escape s +:+ String q' EmptyString)) = s.
Proof.
  unfold formatString. by rewrite slice_to_last_quoted, unescape_escape.
Qed.

(** ** X9 *)

(** X9.  Markup is read back as it was written.  For every well-formed
    markup [m] that is an element (names are identifiers, the value of a
    prop does not end with a backslash, a text is not empty and has no [<]
    and no line end, no two texts are in a row), [parse] of the one span
    [render m] returns the wrapper whose only child is [tree m], and
    [template] returns the calls of [c] for [tree m], the wrapper being
    discarded. *)
Theorem markup_round_trip m :
  well_formed m = true → is_Text m = false →
  parse [render m] [] = Normal (mkElement (VStr EmptyString) None [tree m])
  ∧ ∃ e, child_argument (tree m) = Crank.ChildElement e
         ∧ template [render m] [] = Normal e.
Proof.
  intros Hwf Hno. split; [by apply parse_render_element|].
  unfold template. rewrite (parse_render_element m Hwf Hno). run_binds.
  cbn [children]. destruct m as [x attrs ks|x attrs|]; [| |done].
  - eexists. split; [done|]. done.
  - eexists. split; [done|]. done.
Qed.

Lemma markup_round_trip_witness :
  parse [render (Node "p" [("class", "a\b'c"); ("id", "1")]
                   [Text "x "; Leaf "br" []; Node "b" [] [Text "y"]])] [] =
    Normal (mkElement (VStr EmptyString) None
              [Element (VStr "p")
                 (Some (<["id" := VStr "1"]> (<["class" := VStr "a\b'c"]> ∅)))
                 [Value (VStr "x "); Element (VStr "br") None [];
                  Element (VStr "b") None [Value (VStr "y")]]]).
Proof.
  apply (markup_round_trip
           (Node "p" [("class", "a\b'c"); ("id", "1")]
              [Text "x "; Leaf "br" []; Node "b" [] [Text "y"]])); done.
Defined.

(** ** X10 *)

(** X10.  Expressions as the tag, as the value of a prop, as a child and
    in the closing tag.  For the five spans [<], [ k=], [>], [</] and [>]
    with [k] an identifier and the expressions [T], [v], [c] and [T']: when
    [T === T'], [parse] returns the wrapper with one element of tag [T],
    props [{k: v}] and the only child [c], the values as they are; and
    otherwise it throws [MismatchedClosingTag]. *)
Theorem expressions_in_every_position k T v c T' :
  is_name k = true →
  parse ["<"; " " +:+ k +:+ "="; ">"; "</"; ">"] [T; v; c; T'] =
    if JS.strict_equal T T'
    then Normal (mkElement (VStr EmptyString) None
                   [Element T (Some {[ k := v ]}) [Value c]])
    else Throw MismatchedClosingTag.
Proof.
  intros [Hne Hk]%andb_prop. unfold parse. cbn [spans_loop length].
  change (expression_at [T; v; c; T'] 0) with T.
  change (expression_at [T; v; c; T'] 1) with v.
  change (expression_at [T; v; c; T'] 2) with c.
  change (expression_at [T; v; c; T'] 3) with T'.
  unfold initial.
  rewrite process_span_open_expression by lia. run_binds.
  rewrite (process_span_prop_expression 5 1 k v _ Hne Hk) by (done || lia). run_binds.
  unfold assign_props, with_expressing, with_current, set_props, JS.spread.
  cbn [current stack matcher lineStart propName propValue expressing tag props
       children default].
  rewrite process_span_child_expression by lia. run_binds.
  rewrite process_span_close_expression by lia.
  cbn [tag push_child]. destruct (JS.strict_equal T T'); [|done]. run_binds.
  rewrite process_span_closing_tag by lia. run_binds.
  unfold finish. cbn [stack]. rewrite bool_decide_eq_false_2 by (by intros ?).
  run_binds. cbn [current]. unfold close_into, as_child, push_child.
  cbn [tag props children app]. by rewrite (right_id_L ∅ (∪)).
Qed.

Lemma expressions_in_every_position_witness :
  parse ["<"; " id="; ">"; "</"; ">"]
        [VObj 7 "function" ∅; VNum 1; VStr "x"; VObj 7 "function" ∅] =
    Normal (mkElement (VStr EmptyString) None
              [Element (VObj 7 "function" ∅) (Some {[ "id" := VNum 1 ]})
                 [Value (VStr "x")]]).
Proof.
  apply (expressions_in_every_position "id" (VObj 7 "function" ∅) (VNum 1)
           (VStr "x") (VObj 7 "function" ∅)). done.
Defined.

(** ** X11 *)

(** X11.  A string in quotes that an expression interrupts.  For the two
    spans [<x k=qa] and [bq/>], with [q] a quote, [x] and [k] identifiers and
    [a] and [b] texts without [q] and without backslash, [parse] returns the
    wrapper with the element [x] whose prop [k] is the unescaped text of
    [a], of the expression and of [b].  The text of the expression is
    nothing for a boolean, [null] and [undefined], the string itself for a
    string and what [String] returns otherwise (for a number, an integer
    that a double holds exactly, its decimal digits); when [String] throws
    on the expression, so does [parse]. *)
Theorem quoted_prop_with_expression x k q a b v :
  is_name x = true → is_name k = true → is_quote q = true →
  quote_free q a = true → quote_free q b = true →
  parse ["<" +:+ x +:+ " " +:+ k +:+ "=" +:+ String q a; b +:+ String q "/>"] [v] =
    match interpolated v with
    | Some text =>
        Normal (mkElement (VStr EmptyString) None
                  [Element (VStr x)
                     (Some {[ k := VStr (unescape (a +:+ text +:+ b)) ]}) []])
    | None => Abort TypeError
    end.
Proof.
  intros [Hx_ne Hx]%andb_prop [Hk_ne Hk]%andb_prop Hq Ha Hb.
  unfold parse. cbn [spans_loop length].
  change (expression_at [v] 0) with v. set (exp1 := expression_at [v] 1).
  set (span0 := "<" +:+ x +:+ " " +:+ k +:+ "=" +:+ String q a).
  set (span1 := b +:+ String q "/>").
  (* the first span *)
  assert (enter_span 2 0 span0 v initial = Normal (with_expressing true initial))
    as Henter0 by (by rewrite enter_span_nonempty).
  set (st0 := with_expressing true initial) in *.
  assert (Str.drop 0 span0
          = EmptyString +:+ "<" +:+ x +:+ String " " (k +:+ String "=" (String q a)))
    as Hdrop0 by done.
  pose proof (step_open span0 v 0 st0 EmptyString x " " _ Hdrop0 eq_refl Hx_ne Hx
                eq_refl eq_refl (or_introl eq_refl)) as Hit1.
  pose proof (drop_open _ _ _ _ _ Hdrop0) as Hdrop1.
  set (j1 := 0 + String.length EmptyString + S (String.length x)) in *.
  set (st1 := with_matcher PROPS_RE _) in Hit1.
  pose proof (step_open_string span0 v j1 st1 k q a Hdrop1 Hk_ne Hk Hq Ha eq_refl
                eq_refl) as Hit2.
  rewrite append_interpolated in Hit2.
  destruct (interpolated v) as [text|].
  2:{ (* [String] throws *)
      assert (process_span 2 0 span0 v initial = Abort TypeError) as ->; [|done].
      unfold process_span. rewrite Henter0. run_binds.
      assert (Steps span0 v 0 st0 j1 st1) as Hsteps
        by (apply steps_one; [by eapply drop_lt|exact Hit1]).
      rewrite (steps_span_loop _ _ _ _ _ _ _ Hsteps) by lia.
      pose proof (drop_lt _ _ _ _ Hdrop1) as Hj1.
      rewrite span_loop_unfold by lia.
      by rewrite Hit2. }
  run_binds_in Hit2.
  set (st2 := with_expressing false _) in Hit2.
  rewrite (process_span_steps 2 0 span0 v initial st0 (String.length span0) st2
             Henter0).
  2:{ eapply steps_next; [by eapply drop_lt|exact Hit1|].
      eapply steps_one; [by eapply drop_lt|exact Hit2]. }
  2:{ apply drop_all. }
  change (leave_span v st2) with (Normal st2). run_binds.
  (* the second span *)
  assert (enter_span 2 1 span1 exp1 st2 = Normal st2) as Henter1 by done.
  assert (Str.drop 0 span1 = b +:+ String q (String "/" ">")) as Hdrop2 by done.
  assert (Ascii.eqb "/" q = false) as Hslash.
  { apply orb_prop in Hq as [->%Ascii.eqb_eq| ->%Ascii.eqb_eq]; done. }
  pose proof (step_closing_quote span1 exp1 0 st2 q b "/" ">" Hdrop2 Hq Hb Hslash
                eq_refl eq_refl) as Hit3.
  cbv zeta in Hit3.
  assert (Str.drop (0 + String.length b + 1) span1 = "/>" +:+ EmptyString) as Hdrop3.
  { apply (drop_after 0 _ span1 (b +:+ String q EmptyString) "/>").
    - by rewrite app_assoc_string.
    - rewrite string_length_app. simpl. lia. }
  set (j3 := 0 + String.length b + 1) in *.
  set (st3 := assign_props _ _) in Hit3.
  pose proof (step_self_close span1 exp1 j3 st3 EmptyString
                (mkElement (VStr EmptyString) None []) [] Hdrop3 eq_refl eq_refl
                eq_refl) as Hit4.
  set (st4 := with_matcher CHILDREN_RE _) in Hit4.
  rewrite (process_span_steps 2 1 span1 exp1 st2 st2 (S (S j3)) st4 Henter1).
  2:{ eapply steps_next; [by eapply drop_text_lt|exact Hit3|].
      eapply steps_one; [by eapply drop_lt|exact Hit4]. }
  2:{ by apply (drop_S _ _ ">" EmptyString), (drop_S _ _ "/" ">"). }
  change (leave_span exp1 st4) with (Normal st4). run_binds.
  unfold finish. change (stack st4) with (@nil ParseElement).
  rewrite bool_decide_eq_false_2 by (by intros ?). run_binds.
  assert ((String q a +:+ text) +:+ b +:+ String q EmptyString
          = String q ((a +:+ text +:+ b) +:+ String q EmptyString))
    as Hvalue by (by rewrite !string_app_cons, !app_assoc_string).
  subst st4 st3 st2 st1 st0. cbn.
  unfold close_into, as_child, push_child, set_props. cbn [tag props children app].
  unfold formatString. rewrite Hvalue, slice_to_last_quoted.
  unfold JS.spread. cbn [default]. by rewrite ?insert_empty, ?(right_id_L ∅ (∪)).
Qed.

(** The comment of the source, [<p class="foo ${exp}" />], here with single
    quotes: with the string [bar], with the number 12, and with an object
    on which [String] throws. *)
Lemma quoted_prop_with_expression_witness :
  parse ["<p class='foo "; "'/>"] [VStr "bar"] =
    Normal (mkElement (VStr EmptyString) None
              [Element (VStr "p") (Some {[ "class" := VStr "foo bar" ]}) []])
  ∧ parse ["<p class='foo "; "'/>"] [VNum 12] =
    Normal (mkElement (VStr EmptyString) None
              [Element (VStr "p") (Some {[ "class" := VStr "foo 12" ]}) []])
  ∧ parse ["<p class='foo "; "'/>"] [VOther 1 None true ∅] = Abort TypeError.
Proof.
  split; [|split].
  - apply (quoted_prop_with_expression "p" "class" "'" "foo " EmptyString
             (VStr "bar")); done.
  - apply (quoted_prop_with_expression "p" "class" "'" "foo " EmptyString
             (VNum 12)); done.
  - apply (quoted_prop_with_expression "p" "class" "'" "foo " EmptyString
             (VOther 1 None true ∅)); done.
Defined.

(** ** X12 *)


